(** * Hangman: the guessing session and the account lifecycle

    A shallow embedding of [game_logic.py], [accounts.py], [storage.py],
    [main.py] and the input routines of [display.py].

    Conventions of the embedding.
    - A Python [str] is a [string] of 8-bit characters.  [str.upper],
      [str.islower], [str.isupper], [str.isdigit], [str.isalpha] and
      [str.strip] are embedded on the ASCII range, where they coincide with
      Python's; codes above 127 are treated as caseless non-letters.  So the
      embedding describes the program on ASCII text.  Two functions look at
      the characters of what the user types and are also given for any
      text: [validate_password] on sequences of code points, with the
      character classes of the interpreter as a parameter ([Unicode]), and
      the loop of [get_letter_guess] for arbitrary string methods
      ([get_letter_guess_with]).
    - A Python [list] is a [list]; [l.append(x)] is [l ++ [x]].
    - A Python [int] is a [Z].
    - A [dict] mutated in place becomes either a record passed through the
      function (the game session) or a cell of the shared heap (the account
      records, which are aliased between the store and the acting identity).
    - Console input, console output, the random generator, the word source
      and the accounts file are fields of a world that every computation
      threads; a computation returns, raises a Python exception, or is stuck
      when the fuel of an unbounded loop runs out.
    - The [accounts] dictionary, created once by [load_accounts] and passed
      by reference to every function, is a field of the world as well; the
      file that [accounts_file] names is [accounts.json].  What the file may
      hold is listed with [file_content].
    - The backup and repair helpers of [storage.py], which the program never
      calls and which name their files, run in a directory of files
      ([Files]).
    - The routines of [display.py] that only print are left out, as are
      [get_game_stats] and [get_account_summary], which compute with floats,
      and the helpers of [storage.py] that look at sizes, times and
      directories. *)

From Stdlib Require Import ZArith Ascii String List Bool Lia Permutation.
From stdpp Require Import base list strings pretty gmap.

Import ListNotations.
Local Open Scope string_scope.
Local Open Scope list_scope.
Local Open Scope Z_scope.

(** ** Strings *)

Module Str.

Definition code (c : ascii) : N := N_of_ascii c.

(** [c.islower()], [c.isupper()], [c.isdigit()] for a single character. *)
Definition islower (c : ascii) : bool := ((97 <=? code c) && (code c <=? 122))%N.
Definition isupper (c : ascii) : bool := ((65 <=? code c) && (code c <=? 90))%N.
Definition isdigit (c : ascii) : bool := ((48 <=? code c) && (code c <=? 57))%N.
Definition isalpha_chr (c : ascii) : bool := islower c || isupper c.

(** Whitespace removed by [str.strip()]: tab, newline, vertical tab, form
    feed, carriage return, the separators 28..31 and the space. *)
Definition isspace (c : ascii) : bool :=
  (((9 <=? code c) && (code c <=? 13)) || ((28 <=? code c) && (code c <=? 32)))%N.

Definition upper_chr (c : ascii) : ascii :=
  if islower c then ascii_of_N (code c - 32) else c.

Fixpoint upper (s : string) : string :=
  match s with
  | EmptyString => EmptyString
  | String c s' => String (upper_chr c) (upper s')
  end.

Definition chars (s : string) : list ascii := list_ascii_of_string s.

(** [s.isalpha()]: non-empty and every character alphabetic. *)
Definition isalpha (s : string) : bool :=
  match chars s with
  | [] => false
  | cs => forallb isalpha_chr cs
  end.

(** [sub in s] for two strings: [sub] occurs as a substring of [s]. *)
Fixpoint contains (s sub : string) : bool :=
  String.prefix sub s ||
  match s with
  | EmptyString => false
  | String _ s' => contains s' sub
  end.

(** [x in l] for a list of strings. *)
Definition mem (x : string) (l : list string) : bool :=
  existsb (String.eqb x) l.

Fixpoint lstrip (s : string) : string :=
  match s with
  | EmptyString => EmptyString
  | String c s' => if isspace c then lstrip s' else s
  end.

Fixpoint rstrip (s : string) : string :=
  match s with
  | EmptyString => EmptyString
  | String c s' =>
      match rstrip s' with
      | EmptyString => if isspace c then EmptyString else String c EmptyString
      | r => String c r
      end
  end.

Definition strip (s : string) : string := rstrip (lstrip s).

End Str.

(** ** The game session ([game_logic.py]) *)

Record game_session := GameSession {
  word : string;
  guessed_letters : list string;
  correct_guesses : list string;
  wrong_guesses : list string;
  lives : Z;
  is_complete : bool;
  is_won : bool
}.

Definition create_game_session (w : string) : game_session :=
  {| word := Str.upper w;
     guessed_letters := [];
     correct_guesses := [];
     wrong_guesses := [];
     lives := 6;
     is_complete := false;
     is_won := false |}.

(** [all(char in correct for char in word)] *)
Definition all_chars_in (w : string) (correct : list string) : bool :=
  forallb (fun c => Str.mem (String c EmptyString) correct) (Str.chars w).

(** The session is a dictionary mutated in place; the embedding returns the
    result of the call together with the session after it. *)
Definition make_guess (gs : game_session) (letter : string) : bool * game_session :=
  let letter := Str.upper letter in
  let w := word gs in
  if Str.mem letter (guessed_letters gs) then (false, gs)
  else
    let guessed := guessed_letters gs ++ [letter] in
    if Str.contains w letter then
      let correct := correct_guesses gs ++ [letter] in
      if all_chars_in w correct then
        (true, {| word := w; guessed_letters := guessed;
                  correct_guesses := correct;
                  wrong_guesses := wrong_guesses gs;
                  lives := lives gs;
                  is_complete := true; is_won := true |})
      else
        (true, {| word := w; guessed_letters := guessed;
                  correct_guesses := correct;
                  wrong_guesses := wrong_guesses gs;
                  lives := lives gs;
                  is_complete := is_complete gs; is_won := is_won gs |})
    else
      let wrong := wrong_guesses gs ++ [letter] in
      let lives' := lives gs - 1 in
      if lives' <=? 0 then
        (false, {| word := w; guessed_letters := guessed;
                   correct_guesses := correct_guesses gs;
                   wrong_guesses := wrong;
                   lives := lives';
                   is_complete := true; is_won := false |})
      else
        (false, {| word := w; guessed_letters := guessed;
                   correct_guesses := correct_guesses gs;
                   wrong_guesses := wrong;
                   lives := lives';
                   is_complete := is_complete gs; is_won := is_won gs |}).

Definition is_letter_already_guessed (gs : game_session) (letter : string) : bool :=
  Str.mem (Str.upper letter) (guessed_letters gs).

(** [make_guess] applied to every guess of a sequence, whatever the state. *)
Definition guess_all (gs : game_session) (guesses : list string) : game_session :=
  fold_left (fun s g => snd (make_guess s g)) guesses gs.

(** [make_guess] applied under the guard of [play_game]'s loop,
    [while not game_session["is_complete"]]: once the session is complete no
    further guess is processed. *)
Fixpoint guess_while_active (gs : game_session) (guesses : list string) : game_session :=
  match guesses with
  | [] => gs
  | g :: rest =>
      if is_complete gs then gs
      else guess_while_active (snd (make_guess gs g)) rest
  end.

(** The invariant of the data model, in the words of the specification. *)
Definition word_covered (gs : game_session) : Prop :=
  forall c, In c (Str.chars (word gs)) -> In (String c EmptyString) (correct_guesses gs).

Record session_invariant (gs : game_session) : Prop := {
  inv_lives : lives gs = 6 - Z.of_nat (length (wrong_guesses gs));
  inv_complete : is_complete gs = true <-> (lives gs <= 0 \/ word_covered gs);
  inv_won : is_won gs = true <-> (is_complete gs = true /\ lives gs > 0);
  inv_floor : is_complete gs = true -> lives gs >= 0
}.

(** What the guard of the loop keeps, whatever the word: a session that is
    not complete has a life left and is not won, and a complete one is won
    exactly when a life is left. *)
Definition guarded_invariant (gs : game_session) : Prop :=
  (is_won gs = true <-> (is_complete gs = true /\ lives gs > 0))
  /\ (is_complete gs = true -> lives gs >= 0)
  /\ (is_complete gs = false -> lives gs > 0).

(** A session on the empty word in which no guess was correct. *)
Definition empty_word_session (gs : game_session) : Prop :=
  word gs = EmptyString
  /\ correct_guesses gs = []
  /\ is_won gs = false
  /\ wrong_guesses gs = guessed_letters gs
  /\ lives gs = 6 - Z.of_nat (length (wrong_guesses gs))
  /\ (is_complete gs = true <-> lives gs <= 0).

(** The three outcomes of a guess, in the words of the specification. *)
Inductive outcome := AlreadyGuessed | Correct | Incorrect.

Definition guess_outcome (gs : game_session) (letter : string) : outcome :=
  if Str.mem (Str.upper letter) (guessed_letters gs) then AlreadyGuessed
  else if Str.contains (word gs) (Str.upper letter) then Correct
  else Incorrect.

(** ** Exceptions *)

Inductive exn_class :=
| BaseException | Exception | KeyboardInterrupt
| OSError | FileNotFoundError | PermissionError
| ValueError | JSONDecodeError | UnicodeError | UnicodeDecodeError
| LookupError | KeyError
| RuntimeError | RecursionError
| AttributeError | TypeError | EOFError.

(** [IOError] is an alias of [OSError] in Python 3. *)
Definition IOError : exn_class := OSError.

Definition exn_class_eqb (a b : exn_class) : bool :=
  match a, b with
  | BaseException, BaseException | Exception, Exception
  | KeyboardInterrupt, KeyboardInterrupt | OSError, OSError
  | FileNotFoundError, FileNotFoundError | PermissionError, PermissionError
  | ValueError, ValueError | JSONDecodeError, JSONDecodeError
  | UnicodeError, UnicodeError | UnicodeDecodeError, UnicodeDecodeError
  | LookupError, LookupError | KeyError, KeyError
  | RuntimeError, RuntimeError | RecursionError, RecursionError
  | AttributeError, AttributeError | TypeError, TypeError
  | EOFError, EOFError => true
  | _, _ => false
  end.

Definition base_class (c : exn_class) : option exn_class :=
  match c with
  | BaseException => None
  | Exception | KeyboardInterrupt => Some BaseException
  | OSError | ValueError | LookupError | RuntimeError
  | AttributeError | TypeError | EOFError =>
      Some Exception
  | FileNotFoundError | PermissionError => Some OSError
  | JSONDecodeError | UnicodeError => Some ValueError
  | UnicodeDecodeError => Some UnicodeError
  | KeyError => Some LookupError
  | RecursionError => Some RuntimeError
  end.

(** [issubclass(c, d)]; the hierarchy is four levels deep. *)
Fixpoint issubclass_upto (depth : nat) (c d : exn_class) : bool :=
  exn_class_eqb c d ||
  match depth, base_class c with
  | S depth', Some b => issubclass_upto depth' b d
  | _, _ => false
  end.

Definition issubclass : exn_class -> exn_class -> bool := issubclass_upto 4.

Record exn := Exn { exn_type : exn_class; exn_msg : string }.

(** The expressions that occur in the [except] clauses of the program: a
    builtin class, or an attribute of the [json] module. *)
Inductive class_expr :=
| Builtin (c : exn_class)
| JsonAttr (attr : string).

(** The public names of the standard [json] module, with the exception class
    a name denotes when it denotes one. *)
Definition json_namespace : list (string * option exn_class) :=
  [ ("dump", None); ("dumps", None); ("load", None); ("loads", None);
    ("JSONDecoder", None); ("JSONDecodeError", Some JSONDecodeError);
    ("JSONEncoder", None) ].

Fixpoint assoc {V} (k : string) (l : list (string * V)) : option V :=
  match l with
  | [] => None
  | (k', v) :: rest => if String.eqb k' k then Some v else assoc k rest
  end.

(** Evaluation of one class expression: an attribute that the module does not
    have raises [AttributeError]. *)
Definition eval_class_expr (ce : class_expr) : exn + option exn_class :=
  match ce with
  | Builtin c => inr (Some c)
  | JsonAttr attr =>
      match assoc attr json_namespace with
      | Some v => inr v
      | None => inl (Exn AttributeError
                       ("module 'json' has no attribute '" +:+ attr +:+ "'"))
      end
  end.

(** Evaluation of the tuple of an [except] clause, left to right. *)
Fixpoint eval_class_tuple (ces : list class_expr) : exn + list (option exn_class) :=
  match ces with
  | [] => inr []
  | ce :: rest =>
      match eval_class_expr ce with
      | inl e => inl e
      | inr c =>
          match eval_class_tuple rest with
          | inl e => inl e
          | inr cs => inr (c :: cs)
          end
      end
  end.

(** Matching of a raised exception against the evaluated tuple; an entry that
    is not an exception class makes the match itself raise [TypeError]. *)
Fixpoint exn_matches (e : exn) (cs : list (option exn_class)) : exn + bool :=
  match cs with
  | [] => inr false
  | Some c :: rest =>
      if issubclass (exn_type e) c then inr true else exn_matches e rest
  | None :: rest =>
      inl (Exn TypeError
             "catching classes that do not inherit from BaseException is not allowed")
  end.

(** ** Accounts and the world the program runs in *)

Record account := Account {
  name : string;
  username : string;
  password : string;
  wins : Z;
  losses : Z;
  plays : Z;
  session_wins : Z;
  session_losses : Z;
  session_plays : Z
}.

(** Account dictionaries are shared objects: a reference is an index into the
    heap. *)
Definition loc := nat.

(** A dictionary keyed by strings, in insertion order. *)
Definition dict (V : Type) := list (string * V).

Definition dict_get {V} (d : dict V) (k : string) : option V := assoc k d.

Definition dict_mem {V} (d : dict V) (k : string) : bool :=
  match dict_get d k with Some _ => true | None => false end.

Fixpoint dict_set {V} (d : dict V) (k : string) (v : V) : dict V :=
  match d with
  | [] => [(k, v)]
  | (k', v') :: rest =>
      if String.eqb k' k then (k, v) :: rest else (k', v') :: dict_set rest k v
  end.

Definition dict_values {V} (d : dict V) : list V := map snd d.

(** Why a file that exists cannot be read: [open] is refused
    ([PermissionError]); its bytes are not text in the encoding of [open]
    ([UnicodeDecodeError], with the message of the decoder); or its JSON
    nests deeper than the interpreter recurses ([RecursionError]). *)
Inductive read_error :=
| Denied
| Undecodable (msg : string)
| TooDeep (msg : string).

(** The first item of the loaded data on which the loop of [load_accounts]
    fails: something that is not a dictionary (or data that is not a
    sequence at all), on which the loop raises [TypeError] with the message
    of the interpreter; or a dictionary without the key ["username"], on
    which it raises [KeyError]. *)
Inductive bad_item :=
| NotARecord (msg : string)
| NoUsername.

(** The content of [accounts.json]:
    - a JSON array of account records, each with its nine fields, which is
      what [save_accounts] writes;
    - text that is not JSON, which [json.load] refuses with
      [JSONDecodeError];
    - a file that cannot be read;
    - JSON of another shape: the account records [loaded] that stand before
      the first item [bad] that is not one.
    Records that carry a username but not the other eight fields are not
    described. *)
Inductive file_content :=
| JsonAccounts (records : list account)
| Malformed
| Unreadable (r : read_error)
| Foreign (loaded : list account) (bad : bad_item).

(** What [json.load] returns, as far as the loop of [load_accounts] looks at
    it: the account records at the head of the data and the first item, if
    there is one, that is not an account record. *)
Definition json_data : Type := list account * option bad_item.

Definition read_exn (path : string) (r : read_error) : exn :=
  match r with
  | Denied => Exn PermissionError ("[Errno 13] Permission denied: '" +:+ path +:+ "'")
  | Undecodable msg => Exn UnicodeDecodeError msg
  | TooDeep msg => Exn RecursionError msg
  end.

Definition item_exn (bad : bad_item) : exn :=
  match bad with
  | NotARecord msg => Exn TypeError msg
  | NoUsername => Exn KeyError "'username'"
  end.

(** What can go wrong when the file is written: [open] raises and the file is
    left as it was, or the write raises after [open] has truncated the file. *)
Inductive write_fault :=
| OpenFails (e : exn)
| WriteFails (e : exn).

Record world := World {
  stdin : list string;                 (* the lines the user will type *)
  stdout : list string;                (* what has been printed *)
  rng : list nat;                      (* the draws of the random generator *)
  word_source : list (option string);  (* the answers of [retrieve_word] *)
  disk : option file_content;          (* [accounts.json], when it exists *)
  disk_faults : list (option write_fault); (* one entry per write attempt *)
  heap : list account;                 (* the account dictionaries *)
  accounts : dict loc                  (* the [accounts] dictionary *)
}.

Definition set_stdin (v : list string) (w : world) : world :=
  World v (stdout w) (rng w) (word_source w) (disk w) (disk_faults w) (heap w) (accounts w).
Definition set_stdout (v : list string) (w : world) : world :=
  World (stdin w) v (rng w) (word_source w) (disk w) (disk_faults w) (heap w) (accounts w).
Definition set_rng (v : list nat) (w : world) : world :=
  World (stdin w) (stdout w) v (word_source w) (disk w) (disk_faults w) (heap w) (accounts w).
Definition set_word_source (v : list (option string)) (w : world) : world :=
  World (stdin w) (stdout w) (rng w) v (disk w) (disk_faults w) (heap w) (accounts w).
Definition set_disk (v : option file_content) (w : world) : world :=
  World (stdin w) (stdout w) (rng w) (word_source w) v (disk_faults w) (heap w) (accounts w).
Definition set_disk_faults (v : list (option write_fault)) (w : world) : world :=
  World (stdin w) (stdout w) (rng w) (word_source w) (disk w) v (heap w) (accounts w).
Definition set_heap (v : list account) (w : world) : world :=
  World (stdin w) (stdout w) (rng w) (word_source w) (disk w) (disk_faults w) v (accounts w).
Definition set_accounts (v : dict loc) (w : world) : world :=
  World (stdin w) (stdout w) (rng w) (word_source w) (disk w) (disk_faults w) (heap w) v.

(** ** The monad of Python computations *)

(** A call returns, raises, or is [Stuck]: the embedding ran out of fuel in
    an unbounded loop, or followed a reference that no program run creates. *)
Inductive result (A : Type) :=
| Returned (a : A)
| Raised (e : exn)
| Stuck.
Arguments Returned {A} a.
Arguments Raised {A} e.
Arguments Stuck {A}.

Definition Py (A : Type) : Type := world -> result A * world.

Definition ret {A} (a : A) : Py A := fun w => (Returned a, w).
Definition raise {A} (e : exn) : Py A := fun w => (Raised e, w).
Definition stuck {A} : Py A := fun w => (Stuck, w).

Definition bind {A B} (m : Py A) (k : A -> Py B) : Py B :=
  fun w =>
    match m w with
    | (Returned a, w') => k a w'
    | (Raised e, w') => (Raised e, w')
    | (Stuck, w') => (Stuck, w')
    end.

Declare Scope py_scope.
Delimit Scope py_scope with py.
Notation "x <- m ;; k" := (bind m (fun x => k))
  (at level 100, m at next level, k at level 200, right associativity) : py_scope.
Notation "m ;; k" := (bind m (fun _ => k))
  (at level 100, k at level 200, right associativity) : py_scope.
Local Open Scope py_scope.

(** [try: body  except T1 as e: h1  except T2 as e: h2 ...].  The tuple of a
    clause is evaluated only when an exception reaches the clause. *)
Fixpoint dispatch {A} (e : exn) (clauses : list (list class_expr * (exn -> Py A)))
  : Py A :=
  match clauses with
  | [] => raise e
  | (ces, handler) :: rest =>
      match eval_class_tuple ces with
      | inl e' => raise e'
      | inr cs =>
          match exn_matches e cs with
          | inl e' => raise e'
          | inr true => handler e
          | inr false => dispatch e rest
          end
      end
  end.

Definition try_except {A} (body : Py A)
    (clauses : list (list class_expr * (exn -> Py A))) : Py A :=
  fun w =>
    match body w with
    | (Raised e, w') => dispatch e clauses w'
    | r => r
    end.

(** ** Primitive effects *)

Definition print (line : string) : Py unit :=
  fun w => (Returned tt, set_stdout (stdout w ++ [line]) w).

(** [input(prompt)]: the prompt is written, a line is read; at the end of the
    input [EOFError] is raised. *)
Definition input (prompt : string) : Py string :=
  fun w =>
    let w := set_stdout (stdout w ++ [prompt]) w in
    match stdin w with
    | [] => (Raised (Exn EOFError "EOF when reading a line"), w)
    | line :: rest => (Returned line, set_stdin rest w)
    end.

(** A draw below [n]: any value of [0 .. n-1] can come out. *)
Definition randbelow (n : nat) : Py nat :=
  fun w =>
    match rng w with
    | [] => (Returned 0%nat, w)
    | r :: rest => (Returned (r mod n)%nat, set_rng rest w)
    end.

(** [random.choice(seq)] for a non-empty sequence. *)
Definition random_choice {A} (default : A) (seq : list A) : Py A :=
  i <- randbelow (length seq) ;; ret (nth i seq default).

(** [random.randint(a, b)] *)
Definition random_randint (a b : nat) : Py nat :=
  i <- randbelow (b - a + 1)%nat ;; ret (a + i)%nat.

Definition swap {A} (l : list A) (i j : nat) : list A :=
  match l !! i, l !! j with
  | Some x, Some y => <[j := x]> (<[i := y]> l)
  | _, _ => l
  end.

(** [random.shuffle(x)]:
    [for i in reversed(range(1, len(x))): j = randbelow(i + 1); x[i], x[j] = x[j], x[i]] *)
Fixpoint shuffle_from {A} (i : nat) (l : list A) : Py (list A) :=
  match i with
  | O => ret l
  | S i' => j <- randbelow (i + 1)%nat ;; shuffle_from i' (swap l i j)
  end.

Definition random_shuffle {A} (l : list A) : Py (list A) :=
  shuffle_from (length l - 1)%nat l.

Definition new_account (a : account) : Py loc :=
  fun w => (Returned (length (heap w)), set_heap (heap w ++ [a]) w).

Definition deref (l : loc) : Py account :=
  fun w =>
    match heap w !! l with
    | Some a => (Returned a, w)
    | None => (Stuck, w)
    end.

Definition assign (l : loc) (a : account) : Py unit :=
  fun w =>
    match heap w !! l with
    | Some _ => (Returned tt, set_heap (<[l := a]> (heap w)) w)
    | None => (Stuck, w)
    end.

Fixpoint deref_all (ls : list loc) : Py (list account) :=
  match ls with
  | [] => ret []
  | l :: rest => a <- deref l ;; r <- deref_all rest ;; ret (a :: r)
  end.

Definition get_accounts : Py (dict loc) := fun w => (Returned (accounts w), w).

(** [accounts[k] = v] *)
Definition accounts_setitem (k : string) (v : loc) : Py unit :=
  fun w => (Returned tt, set_accounts (dict_set (accounts w) k v) w).

(** [accounts[k]] *)
Definition accounts_getitem (k : string) : Py loc :=
  fun w =>
    match dict_get (accounts w) k with
    | Some l => (Returned l, w)
    | None => (Raised (Exn KeyError k), w)
    end.

Definition file_exists : Py bool :=
  fun w => (Returned (match disk w with Some _ => true | None => false end), w).

(** Writing [accounts.json], with [open(file, 'w')] followed by the dump, or
    with [write_text]. *)
Definition write_file (content : file_content) : Py unit :=
  fun w =>
    match disk_faults w with
    | Some (OpenFails e) :: rest => (Raised e, set_disk_faults rest w)
    | Some (WriteFails e) :: rest =>
        (Raised e, set_disk (Some Malformed) (set_disk_faults rest w))
    | None :: rest => (Returned tt, set_disk (Some content) (set_disk_faults rest w))
    | [] => (Returned tt, set_disk (Some content) w)
    end.

(** [open(accounts_file, 'r')] followed by [json.load] on the open file. *)
Definition read_json : Py json_data :=
  fun w =>
    match disk w with
    | Some (JsonAccounts records) => (Returned (records, None), w)
    | Some (Foreign loaded bad) => (Returned (loaded, Some bad), w)
    | Some Malformed =>
        (Raised (Exn JSONDecodeError "Expecting value: line 1 column 1 (char 0)"), w)
    | Some (Unreadable r) => (Raised (read_exn "accounts.json" r), w)
    | None =>
        (Raised (Exn FileNotFoundError "No such file or directory: 'accounts.json'"), w)
    end.

(** The answer of the word source, which is not part of the repository: a
    word, or a failure. *)
Definition retrieve_word (length : nat) : Py string :=
  fun w =>
    match word_source w with
    | Some wd :: rest => (Returned wd, set_word_source rest w)
    | None :: rest =>
        (Raised (Exn Exception "word source unavailable"), set_word_source rest w)
    | [] => (Raised (Exn Exception "word source unavailable"), w)
    end.

(** ** Account records ([accounts.py]) *)

Definition nl : string := String (ascii_of_nat 10) EmptyString.

Definition with_wins (v : Z) (a : account) : account :=
  Account (name a) (username a) (password a) v (losses a) (plays a)
          (session_wins a) (session_losses a) (session_plays a).
Definition with_losses (v : Z) (a : account) : account :=
  Account (name a) (username a) (password a) (wins a) v (plays a)
          (session_wins a) (session_losses a) (session_plays a).
Definition with_plays (v : Z) (a : account) : account :=
  Account (name a) (username a) (password a) (wins a) (losses a) v
          (session_wins a) (session_losses a) (session_plays a).
Definition with_session_wins (v : Z) (a : account) : account :=
  Account (name a) (username a) (password a) (wins a) (losses a) (plays a)
          v (session_losses a) (session_plays a).
Definition with_session_losses (v : Z) (a : account) : account :=
  Account (name a) (username a) (password a) (wins a) (losses a) (plays a)
          (session_wins a) v (session_plays a).
Definition with_session_plays (v : Z) (a : account) : account :=
  Account (name a) (username a) (password a) (wins a) (losses a) (plays a)
          (session_wins a) (session_losses a) v.

(** The dictionary literal of [create_account]. *)
Definition account_record (nm un pw : string) : account :=
  {| name := nm; username := un; password := pw;
     wins := 0; losses := 0; plays := 0;
     session_wins := 0; session_losses := 0; session_plays := 0 |}.

Definition create_account (nm un pw : string) : Py loc :=
  new_account (account_record nm un pw).

Definition create_guest_account (nm : string) : Py loc :=
  create_account nm "guest" EmptyString.

Definition add_session_to_totals (acc : loc) : Py unit :=
  a <- deref acc ;; assign acc (with_wins (wins a + session_wins a) a) ;;
  a <- deref acc ;; assign acc (with_losses (losses a + session_losses a) a) ;;
  a <- deref acc ;; assign acc (with_plays (plays a + session_plays a) a).

(** [string.punctuation]: the 32 characters with codes 33..47, 58..64,
    91..96 and 123..126. *)
Definition punctuation : string :=
  string_of_list_ascii
    (map ascii_of_nat
       [33; 34; 35; 36; 37; 38; 39; 40; 41; 42; 43; 44; 45; 46; 47;
        58; 59; 60; 61; 62; 63; 64;
        91; 92; 93; 94; 95; 96;
        123; 124; 125; 126]%nat).

Definition validate_password (pw : string) : bool :=
  if (16 <? String.length pw)%nat || (String.length pw <? 1)%nat then false
  else
    let has_lower := existsb Str.islower (Str.chars pw) in
    let has_upper := existsb Str.isupper (Str.chars pw) in
    let has_digit := existsb Str.isdigit (Str.chars pw) in
    let has_symbol :=
      existsb (fun c => Str.contains punctuation (String c EmptyString)) (Str.chars pw) in
    has_lower && has_upper && has_digit && has_symbol.

(** *** Passwords beyond the ASCII range

    [validate_password] is applied to what the user types, which may be any
    text.  Here a [str] is a sequence of Unicode code points, and how
    [str.islower], [str.isupper] and [str.isdigit] classify a code point is
    what the Unicode character database of the interpreter says.  The
    database is a parameter; [ascii_compatible] records what every version
    of it says of the ASCII range.  [string.punctuation] is a constant of 32
    ASCII characters. *)

Module Unicode.

Definition char := N.
Definition str := list char.

Record database := Database {
  islower : char -> bool;
  isupper : char -> bool;
  isdigit : char -> bool
}.

(** The text of a string of the ASCII model. *)
Definition of_string (s : string) : str := map Str.code (Str.chars s).

(** [c in string.punctuation] for a character [c]. *)
Definition in_punctuation (c : char) : bool :=
  existsb (N.eqb c) (of_string punctuation).

Definition validate_password (db : database) (password : str) : bool :=
  if (16 <? length password)%nat || (length password <? 1)%nat then false
  else
    let has_lower := existsb (islower db) password in
    let has_upper := existsb (isupper db) password in
    let has_digit := existsb (isdigit db) password in
    let has_symbol := existsb in_punctuation password in
    has_lower && has_upper && has_digit && has_symbol.

Definition ascii_compatible (db : database) : Prop :=
  forall c, (c < 128)%N ->
    islower db c = ((97 <=? c) && (c <=? 122))%N
    /\ isupper db c = ((65 <=? c) && (c <=? 90))%N
    /\ isdigit db c = ((48 <=? c) && (c <=? 57))%N.

(** A database that knows the ASCII range only. *)
Definition ascii_only : database :=
  {| islower := fun c => ((97 <=? c) && (c <=? 122))%N;
     isupper := fun c => ((65 <=? c) && (c <=? 90))%N;
     isdigit := fun c => ((48 <=? c) && (c <=? 57))%N |}.

(** A database that also knows the letters and digits of the Latin-1
    supplement, as Python's does: [islower] holds of U+00AA, U+00B5, U+00BA,
    U+00DF to U+00F6 and U+00F8 to U+00FF; [isupper] of U+00C0 to U+00D6
    and U+00D8 to U+00DE; [isdigit] of the superscripts U+00B2, U+00B3 and
    U+00B9. *)
Definition latin1 : database :=
  {| islower := fun c =>
       (((97 <=? c) && (c <=? 122)) || (c =? 170) || (c =? 181) || (c =? 186)
        || ((223 <=? c) && (c <=? 246)) || ((248 <=? c) && (c <=? 255)))%N;
     isupper := fun c =>
       (((65 <=? c) && (c <=? 90))
        || ((192 <=? c) && (c <=? 214)) || ((216 <=? c) && (c <=? 222)))%N;
     isdigit := fun c =>
       (((48 <=? c) && (c <=? 57)) || (c =? 178) || (c =? 179) || (c =? 185))%N |}.

(** The password policy, in the words of the specification. *)
Record policy (db : database) (p : str) : Prop := {
  policy_length : (1 <= length p <= 16)%nat;
  policy_lower : exists c, In c p /\ islower db c = true;
  policy_upper : exists c, In c p /\ isupper db c = true;
  policy_digit : exists c, In c p /\ isdigit db c = true;
  policy_symbol : exists c, In c p /\ In c (of_string punctuation)
}.

(** A string of the ASCII model all of whose characters are ASCII. *)
Definition is_ascii (s : string) : Prop :=
  List.Forall (fun c => (Str.code c < 128)%N) (Str.chars s).

End Unicode.

Definition ascii_lowercase : string := "abcdefghijklmnopqrstuvwxyz".
Definition ascii_uppercase : string := "ABCDEFGHIJKLMNOPQRSTUVWXYZ".
Definition digits : string := "0123456789".
Definition safe_symbols : string := "!@#$%^&*".

Definition choice_chr (s : string) : Py ascii :=
  random_choice Ascii.zero (Str.chars s).

(** [for _ in range(n): password.append(random.choice(all_chars))] *)
Fixpoint append_choices (n : nat) (all_chars : string) (pw : list ascii)
  : Py (list ascii) :=
  match n with
  | O => ret pw
  | S n' => c <- choice_chr all_chars ;; append_choices n' all_chars (pw ++ [c])
  end.

Definition generate_password : Py string :=
  let lower := ascii_lowercase in
  let upper := ascii_uppercase in
  let symbols := safe_symbols in
  c1 <- choice_chr lower ;;
  c2 <- choice_chr upper ;;
  c3 <- choice_chr digits ;;
  c4 <- choice_chr symbols ;;
  let pw := [c1; c2; c3; c4] in
  let all_chars := lower +:+ upper +:+ digits +:+ symbols in
  pw <- append_choices 8 all_chars pw ;;
  pw <- random_shuffle pw ;;
  ret (string_of_list_ascii pw).

(** ** The store ([storage.py]) *)

Definition accounts_file : string := "accounts.json".

Definition setup_accounts_file : Py unit :=
  try_except
    (ex <- file_exists ;;
     if negb ex then
       write_file (JsonAccounts []) ;;
       print "Created accounts.json file in the main directory."
     else ret tt)
    [ ([Builtin OSError; Builtin IOError],
       fun e => print ("Error creating accounts file: " +:+ exn_msg e)) ].

Fixpoint load_records (records : list account) : Py unit :=
  match records with
  | [] => ret tt
  | r :: rest =>
      l <- new_account r ;;
      accounts_setitem (username r) l ;;
      load_records rest
  end.

(** [for account_data in accounts_data]: the account records are entered in
    the dictionary one by one, up to the first item that is not one. *)
Definition load_items (accounts_data : json_data) : Py unit :=
  load_records (fst accounts_data) ;;
  match snd accounts_data with
  | None => ret tt
  | Some bad => raise (item_exn bad)
  end.

Definition load_accounts : Py unit :=
  (fun w => (Returned tt, set_accounts [] w)) ;;
  try_except
    (ex <- file_exists ;;
     if ex then
       accounts_data <- read_json ;;
       load_items accounts_data ;;
       accs <- get_accounts ;;
       print ("Loaded " +:+ pretty (length accs) +:+ " accounts from " +:+ accounts_file)
     else ret tt)
    [ ([JsonAttr "JSONDecodeError"; Builtin FileNotFoundError; Builtin KeyError],
       fun e =>
         print ("Error loading accounts: " +:+ exn_msg e) ;;
         print "Starting with empty accounts database.") ].

Definition save_accounts : Py unit :=
  try_except
    (accs <- get_accounts ;;
     accounts_data <- deref_all (dict_values accs) ;;
     write_file (JsonAccounts accounts_data) ;;
     print ("Accounts saved to " +:+ accounts_file))
    [ ([Builtin IOError; JsonAttr "JSONEncodeError"],
       fun e => print ("Error saving accounts: " +:+ exn_msg e)) ].

(** ** Console input ([display.py]); the routines that only print are not
    embedded. *)

Definition input_stripped (prompt : string) : Py string :=
  line <- input prompt ;; ret (Str.strip line).

Definition nonempty (s : string) : bool :=
  match s with EmptyString => false | _ => true end.

Fixpoint get_user_name (fuel : nat) : Py string :=
  match fuel with
  | O => stuck
  | S fuel' =>
      nm <- input_stripped "Please enter your name: " ;;
      if nonempty nm then ret nm
      else print "Name cannot be empty. Please try again." ;; get_user_name fuel'
  end.

Fixpoint get_menu_choice (fuel : nat) : Py string :=
  match fuel with
  | O => stuck
  | S fuel' =>
      choice <- input_stripped (nl +:+ "Enter your choice: ") ;;
      if Str.mem choice ["1"; "2"; "3"; "4"] then ret choice
      else print "Invalid choice. Please enter 1, 2, 3, or 4." ;; get_menu_choice fuel'
  end.

Fixpoint get_letter_guess (fuel : nat) : Py string :=
  match fuel with
  | O => stuck
  | S fuel' =>
      line <- input_stripped (nl +:+ "Enter a letter: ") ;;
      let guess := Str.upper line in
      if (String.length guess =? 1)%nat && Str.isalpha guess then ret guess
      else print "Please enter a single letter." ;; get_letter_guess fuel'
  end.

(** ** Login, registration, logout ([accounts.py]) *)

Definition is_guest (a : account) : bool := String.eqb (username a) "guest".

(** The first loop of [login_user]; [remaining] is [5 - username_attempts].
    [None] is the [else] branch of the [while]: the attempts are used up. *)
Fixpoint login_ask_username (remaining : nat) : Py (option string) :=
  match remaining with
  | O => ret None
  | S remaining' =>
      un <- input_stripped "Enter username: " ;;
      accs <- get_accounts ;;
      if dict_mem accs un then ret (Some un)
      else
        print "Username not found. Please try again." ;;
        login_ask_username remaining'
  end.

(** Step 3 of [login_user]: the guest's session counters are added to the
    target's, one field after the other. *)
Definition merge_guest_session (un : string) (current_user : loc) : Py unit :=
  t <- accounts_getitem un ;; a <- deref t ;; c <- deref current_user ;;
  assign t (with_session_wins (session_wins a + session_wins c) a) ;;
  t <- accounts_getitem un ;; a <- deref t ;; c <- deref current_user ;;
  assign t (with_session_losses (session_losses a + session_losses c) a) ;;
  t <- accounts_getitem un ;; a <- deref t ;; c <- deref current_user ;;
  assign t (with_session_plays (session_plays a + session_plays c) a).

(** The second loop of [login_user]; [remaining] is [5 - password_attempts]. *)
Fixpoint login_ask_password (remaining : nat) (un : string) (current_user : loc)
  : Py (option (bool * loc)) :=
  match remaining with
  | O => ret None
  | S remaining' =>
      pw <- input_stripped "Enter password: " ;;
      t <- accounts_getitem un ;;
      a <- deref t ;;
      if String.eqb (password a) pw then
        c <- deref current_user ;;
        (if is_guest c then merge_guest_session un current_user else ret tt) ;;
        current_user <- accounts_getitem un ;;
        u <- deref current_user ;;
        print (nl +:+ "Login successful! Welcome back, " +:+ name u +:+ "!") ;;
        ret (Some (true, current_user))
      else
        print "Incorrect password. Please try again." ;;
        login_ask_password remaining' un current_user
  end.

(** [login_user], with the call of [handle_max_attempts] left open. *)
Definition login_user_body (handle_max_attempts : string -> loc -> Py (bool * loc))
    (current_user : loc) : Py (bool * loc) :=
  found <- login_ask_username 5 ;;
  match found with
  | None => handle_max_attempts "login" current_user
  | Some un =>
      done <- login_ask_password 5 un current_user ;;
      match done with
      | None => handle_max_attempts "login" current_user
      | Some r => ret r
      end
  end.

(** The first loop of [register_user]. *)
Fixpoint register_ask_username (remaining : nat) : Py (option string) :=
  match remaining with
  | O => ret None
  | S remaining' =>
      un <- input_stripped "Enter desired username: " ;;
      accs <- get_accounts ;;
      if nonempty un && negb (dict_mem accs un) then ret (Some un)
      else
        (if dict_mem accs un then print "Username already taken. Please choose another."
         else print "Username cannot be empty. Please try again.") ;;
        register_ask_username remaining'
  end.

(** The manual password loop of [register_user]. *)
Fixpoint register_ask_password (remaining : nat) : Py (option string) :=
  match remaining with
  | O => ret None
  | S remaining' =>
      pw <- input_stripped "Enter password: " ;;
      if validate_password pw then ret (Some pw)
      else
        print "Password does not meet requirements. Please try again." ;;
        register_ask_password remaining'
  end.

(** Steps 3 to 6 of [register_user]. *)
Definition register_finish (un pw : string) (current_user : loc) : Py (bool * loc) :=
  nm <- input_stripped "Enter your display name: " ;;
  let nm := if negb (nonempty nm) then un else nm in
  acc <- create_account nm un pw ;;
  c <- deref current_user ;;
  (if is_guest c then
     c <- deref current_user ;; a <- deref acc ;;
     assign acc (with_session_wins (session_wins c) a) ;;
     c <- deref current_user ;; a <- deref acc ;;
     assign acc (with_session_losses (session_losses c) a) ;;
     c <- deref current_user ;; a <- deref acc ;;
     assign acc (with_session_plays (session_plays c) a)
   else ret tt) ;;
  accounts_setitem un acc ;;
  save_accounts ;;
  print (nl +:+ "Registration successful! Welcome, " +:+ nm +:+ "!") ;;
  ret (true, acc).

(** [register_user], with the call of [handle_max_attempts] left open. *)
Definition register_user_body (handle_max_attempts : string -> loc -> Py (bool * loc))
    (current_user : loc) : Py (bool * loc) :=
  found <- register_ask_username 5 ;;
  match found with
  | None => handle_max_attempts "registration" current_user
  | Some un =>
      password_choice <-
        input_stripped
          (nl +:+ "Would you like to (1) Enter password manually or (2) Generate automatically? Enter 1 or 2: ") ;;
      if String.eqb password_choice "2" then
        pw <- generate_password ;;
        print (nl +:+ "Generated password: " +:+ pw) ;;
        print "Please save this password securely!" ;;
        register_finish un pw current_user
      else
        chosen <- register_ask_password 5 ;;
        match chosen with
        | None => handle_max_attempts "registration" current_user
        | Some pw => register_finish un pw current_user
        end
  end.

(** The [while True] loop of [handle_max_attempts]: one line is read per
    turn; [retry] is what choice 1 runs. *)
Fixpoint handle_choice (turns : nat) (retry : Py (bool * loc)) (current_user : loc)
  : Py (bool * loc) :=
  match turns with
  | O => stuck
  | S turns' =>
      choice <-
        input_stripped
          "Would you like to (1) Try again or (2) Return to main menu? Enter 1 or 2: " ;;
      if String.eqb choice "1" then retry
      else if String.eqb choice "2" then ret (false, current_user)
      else
        print "Invalid choice. Please enter 1 or 2." ;;
        handle_choice turns' retry current_user
  end.

(** [handle_max_attempts]: choice 1 runs the process again, from its start. *)
Fixpoint handle_max_attempts (fuel : nat) (process : string) (current_user : loc)
  : Py (bool * loc) :=
  match fuel with
  | O => stuck
  | S fuel' =>
      print (nl +:+ "Maximum attempts reached for " +:+ process +:+ ".") ;;
      handle_choice fuel'
        (if String.eqb process "login"
         then login_user_body (handle_max_attempts fuel') current_user
         else register_user_body (handle_max_attempts fuel') current_user)
        current_user
  end.

Definition login_user (fuel : nat) (current_user : loc) : Py (bool * loc) :=
  login_user_body (handle_max_attempts fuel) current_user.

Definition register_user (fuel : nat) (current_user : loc) : Py (bool * loc) :=
  register_user_body (handle_max_attempts fuel) current_user.

Definition logout_user (fuel : nat) (current_user : loc) : Py loc :=
  c <- deref current_user ;;
  (if negb (is_guest c) then
     add_session_to_totals current_user ;;
     save_accounts ;;
     c <- deref current_user ;;
     print (nl +:+ "Goodbye, " +:+ name c +:+ "!") ;;
     print "Your progress has been saved."
   else ret tt) ;;
  guest_name <- get_user_name fuel ;;
  create_guest_account guest_name.

(** ** A round of the game ([game_logic.py]) *)

Definition fallback_words : list string :=
  [ "PYTHON"; "PROGRAMMING"; "COMPUTER"; "KEYBOARD"; "MONITOR";
    "SOFTWARE"; "HARDWARE"; "INTERNET"; "WEBSITE"; "DATABASE";
    "FUNCTION"; "VARIABLE"; "ALGORITHM"; "CODING"; "DEBUGGING" ].

Definition get_random_word : Py string :=
  try_except
    (n <- random_randint 4 10 ;;
     wd <- retrieve_word n ;;
     print ("Retrieved word from API: " +:+ pretty (String.length wd) +:+ " letters") ;;
     ret wd)
    [ ([Builtin Exception],
       fun e =>
         print ("Error retrieving word from API: " +:+ exn_msg e) ;;
         wd <- random_choice EmptyString fallback_words ;;
         print "Using fallback word." ;;
         ret wd) ].

(** The main loop of [play_game]. *)
Fixpoint play_rounds (fuel : nat) (gs : game_session) : Py game_session :=
  match fuel with
  | O => stuck
  | S fuel' =>
      if is_complete gs then ret gs
      else
        guess <- get_letter_guess fuel' ;;
        if is_letter_already_guessed gs guess then
          print "You already guessed that letter!" ;;
          play_rounds fuel' gs
        else
          let (hit, gs') := make_guess gs guess in
          (if hit then print ("Good guess! '" +:+ guess +:+ "' is in the word.")
           else print ("Sorry, '" +:+ guess +:+ "' is not in the word.")) ;;
          play_rounds fuel' gs'
  end.

Definition play_game (fuel : nat) (current_user : loc) : Py unit :=
  wd <- get_random_word ;;
  let gs := create_game_session wd in
  print ("Word length: " +:+ pretty (String.length wd) +:+ " letters") ;;
  print ("Good luck!" +:+ nl) ;;
  gs <- play_rounds fuel gs ;;
  (if is_won gs then
     c <- deref current_user ;;
     assign current_user (with_session_wins (session_wins c + 1) c)
   else
     c <- deref current_user ;;
     assign current_user (with_session_losses (session_losses c + 1) c)) ;;
  c <- deref current_user ;;
  assign current_user (with_session_plays (session_plays c + 1) c).

(** ** The program ([main.py]) *)

Definition exit_game (current_user : loc) : Py unit :=
  c <- deref current_user ;;
  (if negb (is_guest c) then
     add_session_to_totals current_user ;;
     save_accounts ;;
     c <- deref current_user ;;
     print (nl +:+ "Goodbye, " +:+ name c +:+ "! Your progress has been saved.")
   else
     print (nl +:+ "Goodbye, " +:+ name c +:+ "!")) ;;
  print "Thank you for playing Hangman!".

(** The [while True] loop of [main]; each turn reads a menu choice. *)
Fixpoint main_loop (fuel : nat) (current_user : loc) : Py unit :=
  match fuel with
  | O => stuck
  | S fuel' =>
      choice <- get_menu_choice fuel' ;;
      c <- deref current_user ;;
      if is_guest c then
        if String.eqb choice "1" then
          play_game fuel' current_user ;; main_loop fuel' current_user
        else if String.eqb choice "2" then
          r <- login_user fuel' current_user ;; main_loop fuel' (snd r)
        else if String.eqb choice "3" then
          r <- register_user fuel' current_user ;; main_loop fuel' (snd r)
        else if String.eqb choice "4" then
          exit_game current_user
        else main_loop fuel' current_user
      else
        if String.eqb choice "1" then
          play_game fuel' current_user ;; main_loop fuel' current_user
        else if String.eqb choice "2" then
          current_user <- logout_user fuel' current_user ;; main_loop fuel' current_user
        else if String.eqb choice "3" then
          exit_game current_user
        else main_loop fuel' current_user
  end.

Definition main (fuel : nat) : Py unit :=
  try_except
    (print "Initializing Hangman Game..." ;;
     setup_accounts_file ;;
     load_accounts ;;
     guest_name <- get_user_name fuel ;;
     current_user <- create_guest_account guest_name ;;
     main_loop fuel current_user)
    [ ([Builtin KeyboardInterrupt],
       fun _ => print (nl +:+ nl +:+ "Game interrupted by user. Goodbye!"));
      ([Builtin Exception],
       fun e =>
         print (nl +:+ "An unexpected error occurred: " +:+ exn_msg e) ;;
         print "Please restart the game." ;;
         print "If this problem persists, check that all module files are present:" ;;
         print "- display.py" ;;
         print "- game_logic.py" ;;
         print "- accounts.py" ;;
         print "- storage.py" ;;
         print "- retrieve_word_fn.py") ].

(** A world at program start: nothing printed, an empty heap. *)
Definition initial_world (keys : list string) (draws : list nat)
    (words : list (option string)) (file : option file_content)
    (faults : list (option write_fault)) : world :=
  {| stdin := keys; stdout := []; rng := draws; word_source := words;
     disk := file; disk_faults := faults; heap := []; accounts := [] |}.

(** ** Notions used in the statements *)

(** [m] returns in every world, with a value that satisfies [P]. *)
Definition returns {A} (m : Py A) (P : A -> Prop) : Prop :=
  forall w, exists a w', m w = (Returned a, w') /\ P a.

(** The character classes, in the words of the specification. *)
Definition lowercase_letter (c : ascii) : Prop := (97 <= Str.code c <= 122)%N.
Definition uppercase_letter (c : ascii) : Prop := (65 <= Str.code c <= 90)%N.
Definition digit (c : ascii) : Prop := (48 <= Str.code c <= 57)%N.
Definition symbol (c : ascii) : Prop := In c (Str.chars punctuation).

Definition has (P : ascii -> Prop) (s : string) : Prop :=
  exists c, In c (Str.chars s) /\ P c.

Record policy (p : string) : Prop := {
  policy_length : (1 <= String.length p <= 16)%nat;
  policy_lower : has lowercase_letter p;
  policy_upper : has uppercase_letter p;
  policy_digit : has digit p;
  policy_symbol : has symbol p
}.

(** The records of the store, in the order of the dictionary. *)
Fixpoint lookup_all (h : list account) (ls : list loc) : option (list account) :=
  match ls with
  | [] => Some []
  | l :: rest =>
      match h !! l, lookup_all h rest with
      | Some a, Some r => Some (a :: r)
      | _, _ => None
      end
  end.

Definition stored_records (w : world) : option (list account) :=
  lookup_all (heap w) (dict_values (accounts w)).

(** The part of the world that holds the accounts: the heap, the dictionary,
    the file and the pending write faults. *)
Definition same_store (w w' : world) : Prop :=
  heap w' = heap w /\ accounts w' = accounts w /\ disk w' = disk w
  /\ disk_faults w' = disk_faults w.

Definition keeps_store {A} (m : Py A) : Prop :=
  forall w r w', m w = (r, w') -> same_store w w'.

(** What a successful registration by a guest [g] leaves behind: the new
    record [a] at [u]. *)
Record registered (w : world) (g : account) (u : loc) (w' : world) (a : account)
  : Prop := {
  reg_record : heap w' !! u = Some a;
  reg_wins : wins a = 0;
  reg_losses : losses a = 0;
  reg_plays : plays a = 0;
  reg_session_wins : session_wins a = session_wins g;
  reg_session_losses : session_losses a = session_losses g;
  reg_session_plays : session_plays a = session_plays g;
  reg_fresh : (length (heap w) <= u)%nat;
  reg_inserted : dict_get (accounts w') (username a) = Some u;
  reg_persisted :
    exists recs,
      stored_records w' = Some recs /\ In a recs
      /\ disk w' = Some (JsonAccounts recs)
}.

(** The outcome of a successful registration, whatever ran before it. *)
Definition registration_post (cu : loc) (g : account) (m : Py (bool * loc)) : Prop :=
  forall w w' u,
    m w = (Returned (true, u), w') ->
    heap w !! cu = Some g ->
    exists a, registered w g u w' a.

(** The target record [t] after the session counters of the guest [g] have
    been added to it. *)
Definition merge_session (t g : account) : account :=
  {| name := name t; username := username t; password := password t;
     wins := wins t; losses := losses t; plays := plays t;
     session_wins := session_wins t + session_wins g;
     session_losses := session_losses t + session_losses g;
     session_plays := session_plays t + session_plays g |}.

(** What a successful login by a guest [g] leaves behind: the target record
    at [u], merged in place; nothing else changes in the store. *)
Record logged_in (w : world) (g : account) (u : loc) (w' : world)
    (un : string) (t : account) : Prop := {
  login_target : dict_get (accounts w) un = Some u;
  login_before : heap w !! u = Some t;
  login_after : heap w' !! u = Some (merge_session t g);
  login_heap : heap w' = <[u := merge_session t g]> (heap w);
  login_accounts : accounts w' = accounts w;
  login_disk : disk w' = disk w
}.

Definition login_post (cu : loc) (g : account) (m : Py (bool * loc)) : Prop :=
  forall w w' u,
    m w = (Returned (true, u), w') ->
    heap w !! cu = Some g ->
    exists un t, logged_in w g u w' un t.

(** The record [c] after its session counters have been folded into its
    lifetime counters. *)
Definition fold_session (c : account) : account :=
  {| name := name c; username := username c; password := password c;
     wins := wins c + session_wins c;
     losses := losses c + session_losses c;
     plays := plays c + session_plays c;
     session_wins := session_wins c;
     session_losses := session_losses c;
     session_plays := session_plays c |}.

(** The next write of the file goes through. *)
Definition write_succeeds (w : world) : Prop :=
  match disk_faults w with
  | Some _ :: _ => False
  | _ => True
  end.

(** What [logout_user] leaves behind when it returns [u] for the identity
    whose record was [c]: a new guest record at [u]; for a guest nothing else,
    for a registered identity the folded record, and a file that holds the
    records of the store as they are after the fold. *)
Definition logged_out (current_user : loc) (c : account) (w : world) (u : loc)
    (w' : world) : Prop :=
  exists nm,
    u = length (heap w)
    /\ heap w' !! u = Some (account_record nm "guest" EmptyString)
    /\ accounts w' = accounts w
    /\ if is_guest c then
         heap w' = heap w ++ [account_record nm "guest" EmptyString]
         /\ disk w' = disk w
         /\ disk_faults w' = disk_faults w
       else
         heap w' = <[current_user := fold_session c]> (heap w)
                     ++ [account_record nm "guest" EmptyString]
         /\ heap w' !! current_user = Some (fold_session c)
         /\ exists recs,
              lookup_all (<[current_user := fold_session c]> (heap w))
                         (dict_values (accounts w)) = Some recs
              /\ disk w' = Some (JsonAccounts recs).

(** Example worlds. *)
Definition guest_bob : account := Account "Bob" "guest" EmptyString 0 0 0 3 1 4.
Definition user_ann : account := Account "Ann" "ann" "Pw1!" 10 4 14 2 3 5.

Definition world_register : world :=
  {| stdin := ["alice"; "1"; "Abcdef1!"; EmptyString]; stdout := []; rng := [];
     word_source := []; disk := Some (JsonAccounts []); disk_faults := [];
     heap := [guest_bob]; accounts := [] |}.

Definition world_login : world :=
  {| stdin := ["ann"; "Pw1!"]; stdout := []; rng := [];
     word_source := []; disk := Some (JsonAccounts [user_ann]); disk_faults := [];
     heap := [Account "Bob" "guest" EmptyString 0 0 0 1 1 2; user_ann];
     accounts := [("ann", 1%nat)] |}.

Definition world_logout : world :=
  {| stdin := [EmptyString; "Bob"]; stdout := []; rng := [];
     word_source := []; disk := Some (JsonAccounts []); disk_faults := [];
     heap := [user_ann]; accounts := [("ann", 0%nat)] |}.

Definition json_encode_error_missing : exn :=
  Exn AttributeError "module 'json' has no attribute 'JSONEncodeError'".

Definition permission_denied : exn :=
  Exn PermissionError "[Errno 13] Permission denied: 'accounts.json'".

(** A run in which the accounts file cannot be opened for writing: the user
    registers, then would go on playing. *)
Definition world_write_failure : world :=
  initial_world ["Bob"; "3"; "ann"; "1"; "Abcdef1!"; "Ann"; "1"; "4"] [] []
    (Some (JsonAccounts [])) [Some (OpenFails permission_denied)].

(** A round for which the word source answers the empty string. *)
Definition world_empty_word : world :=
  {| stdin := ["a"; "b"; "c"; "d"; "e"; "f"]; stdout := []; rng := [];
     word_source := [Some EmptyString]; disk := None; disk_faults := [];
     heap := [account_record "Bob" "guest" EmptyString]; accounts := [] |}.

(** A run in which the user registers the username "guest" and leaves. *)
Definition world_register_guest : world :=
  initial_world ["Bob"; "3"; "guest"; "1"; "Abcdef1!"; EmptyString; "4"] [] [] None [].

(** ** The rest of the game and its display *)

Definition is_game_complete (gs : game_session) : bool := is_complete gs.

Definition is_game_won (gs : game_session) : bool := is_won gs.

(** [get_display_word] ([display.py]):
    [" ".join([letter if letter in correct_guesses else "_" for letter in word])] *)
Definition get_display_word (gs : game_session) : string :=
  String.concat " "
    (map (fun c =>
            if Str.mem (String c EmptyString) (correct_guesses gs)
            then String c EmptyString else "_")
         (Str.chars (word gs))).

(** [l[i]] for a Python list: a negative index counts from the end, and an
    index outside [-len(l) .. len(l) - 1] raises [IndexError], here [None]. *)
Definition list_getitem {A} (l : list A) (i : Z) : option A :=
  if 0 <=? i then nth_error l (Z.to_nat i)
  else if - Z.of_nat (length l) <=? i then nth_error l (Z.to_nat (Z.of_nat (length l) + i))
  else None.

(** [get_hangman_stages] ([display.py]): the seven pictures, from the empty
    gallows to the complete figure. *)
Definition get_hangman_stages : list string :=
  [ "
   +---+
   |   |
       |
       |
       |
       |
=========
";
    "
   +---+
   |   |
   O   |
       |
       |
       |
=========
";
    "
   +---+
   |   |
   O   |
   |   |
       |
       |
=========
";
    "
   +---+
   |   |
   O   |
  /|   |
       |
       |
=========
";
    "
   +---+
   |   |
   O   |
  /|\  |
       |
       |
=========
";
    "
   +---+
   |   |
   O   |
  /|\  |
  /    |
       |
=========
";
    "
   +---+
   |   |
   O   |
  /|\  |
  / \  |
       |
=========
" ].

(** The picture that [display_game_state] and [display_game_result] print:
    [hangman_stages[6 - game_session["lives"]]]. *)
Definition current_stage (gs : game_session) : option string :=
  list_getitem get_hangman_stages (6 - lives gs).

(** How the three lists of a session relate. *)
Record bookkeeping (gs : game_session) : Prop := {
  bk_nodup : List.NoDup (guessed_letters gs);
  bk_split : Permutation (guessed_letters gs) (correct_guesses gs ++ wrong_guesses gs);
  bk_correct :
    List.Forall (fun l => Str.contains (word gs) l = true) (correct_guesses gs);
  bk_wrong :
    List.Forall (fun l => Str.contains (word gs) l = false) (wrong_guesses gs);
  bk_upper : List.Forall (fun l => Str.upper l = l) (guessed_letters gs)
}.

(** The record [c] after [play_game] has counted one more game. *)
Definition record_game (won : bool) (c : account) : account :=
  {| name := name c; username := username c; password := password c;
     wins := wins c; losses := losses c; plays := plays c;
     session_wins := if won then session_wins c + 1 else session_wins c;
     session_losses := if won then session_losses c else session_losses c + 1;
     session_plays := session_plays c + 1 |}.

(** [get_letter_guess] ([display.py]) for whatever [str.strip], [str.upper],
    [str.isalpha] and [len] do: the loop itself uses nothing else of them. *)
Section LetterGuess.

Variables (strip upper : string -> string) (isalpha : string -> bool)
  (len : string -> nat).

Fixpoint get_letter_guess_with (fuel : nat) : Py string :=
  match fuel with
  | O => stuck
  | S fuel' =>
      line <- input (nl +:+ "Enter a letter: ") ;;
      let guess := upper (strip line) in
      if (len guess =? 1)%nat && isalpha guess then ret guess
      else print "Please enter a single letter." ;; get_letter_guess_with fuel'
  end.

(** The line is one that the loop takes as a guess. *)
Definition taken (line : string) : bool :=
  (len (upper (strip line)) =? 1)%nat && isalpha (upper (strip line)).

End LetterGuess.

(** The guesses that [get_letter_guess] makes of the lines typed: the
    stripped, uppercased form of each line that it takes. *)
Definition letter_guesses (lines : list string) : list string :=
  map (fun line => Str.upper (Str.strip line))
      (List.filter (taken Str.strip Str.upper Str.isalpha String.length) lines).

(** A round on the word "cat" in which the user guesses it with one miss. *)
Definition world_won_round : world :=
  {| stdin := ["c"; "x"; "?"; "a"; "c"; "t"]; stdout := []; rng := [];
     word_source := [Some "cat"]; disk := None; disk_faults := [];
     heap := [account_record "Bob" "guest" EmptyString]; accounts := [] |}.

(** A computation that reads no input. *)
Definition keeps_stdin {A} (m : Py A) : Prop :=
  forall w r w', m w = (r, w') -> stdin w' = stdin w.

(** A computation that only converses: it leaves the accounts alone and reads
    its lines from the front of the input. *)
Definition converses {A} (m : Py A) : Prop :=
  forall w r w', m w = (r, w') ->
    same_store w w' /\ exists read, stdin w = read ++ stdin w'.

(** What a successful registration leaves behind, whoever the acting identity
    is: one new record [a] at [u], stored under its username. *)
Record created (w : world) (u : loc) (w' : world) (a : account) : Prop := {
  cr_loc : u = length (heap w);
  cr_heap : heap w' = heap w ++ [a];
  cr_accounts : accounts w' = dict_set (accounts w) (username a) u;
  cr_username : username a <> EmptyString;
  cr_free : dict_get (accounts w) (username a) = None;
  cr_password : validate_password (password a) = true;
  cr_name : name a <> EmptyString;
  cr_wins : wins a = 0;
  cr_losses : losses a = 0;
  cr_plays : plays a = 0
}.

(** Every record of the store sits under its own username. *)
Definition store_keyed (w : world) : Prop :=
  forall k l, dict_get (accounts w) k = Some l ->
              exists a, heap w !! l = Some a /\ username a = k.

(** [m] ensures [R]: whenever [m] hands back [(b0, u)], the world it started
    in, [u] and the world it ends in are related by [R]. *)
Definition ensures (b0 : bool) (R : world -> loc -> world -> Prop)
    (m : Py (bool * loc)) : Prop :=
  forall w w' u, m w = (Returned (b0, u), w') -> R w u w'.

(** The outcome of a login or registration that was given up. *)
Definition unchanged (current_user : loc) (w : world) (u : loc) (w' : world) : Prop :=
  u = current_user /\ same_store w w'.

(** The outcome of a login that went through: a typed line, stripped, is the
    password of the record that the store holds under the username. *)
Definition authenticated (w : world) (u : loc) (w' : world) : Prop :=
  exists line un t,
    In line (stdin w)
    /\ dict_get (accounts w) un = Some u
    /\ heap w !! u = Some t
    /\ password t = Str.strip line.

(** The alphabet of [generate_password]: [lower + upper + digits + symbols]. *)
Definition password_alphabet : string :=
  ascii_lowercase +:+ ascii_uppercase +:+ digits +:+ safe_symbols.

(** The outcome of a registration that went through, for an acting identity
    that is a record of the heap. *)
Definition creates (current_user : loc) (w : world) (u : loc) (w' : world) : Prop :=
  is_Some (heap w !! current_user) -> exists a, created w u w' a.

(** [add_session_to_totals] called [n] times in a row on the same record. *)
Fixpoint add_session_times (n : nat) (acc : loc) : Py unit :=
  match n with
  | O => ret tt
  | S n' => add_session_to_totals acc ;; add_session_times n' acc
  end.

(** The dictionary that the loop of [load_accounts] builds from the records of
    the file, the first of which goes to heap index [base]. *)
Fixpoint index_records (base : nat) (recs : list account) (d : dict loc) : dict loc :=
  match recs with
  | [] => d
  | r :: rest => index_records (S base) rest (dict_set d (username r) base)
  end.

(** A store that [save_accounts] and [load_accounts] carry over: no username
    occurs twice among its entries, and every record sits under its own
    username. *)
(** What loading the records [recs] into an empty store leaves behind: the
    records are added to the heap in order; the usernames of the store are
    exactly those of the records; the record under a username is one of the
    records with that username; and when no username occurs twice, every
    record is the one under its username. *)
Definition loads (w w' : world) (recs : list account) : Prop :=
  heap w' = heap w ++ recs
  /\ (forall k, is_Some (dict_get (accounts w') k) <-> In k (map username recs))
  /\ (forall k l, dict_get (accounts w') k = Some l ->
        exists r, heap w' !! l = Some r /\ username r = k /\ In r recs)
  /\ (List.NoDup (map username recs) ->
      forall r, In r recs ->
        exists l, dict_get (accounts w') (username r) = Some l
                  /\ heap w' !! l = Some r).

Definition store_ok (w : world) : Prop :=
  List.NoDup (map fst (accounts w)) /\ store_keyed w.

Definition fault_exn (f : write_fault) : exn :=
  match f with OpenFails e | WriteFails e => e end.

(** ** The helpers of [storage.py] that work on a path

    These helpers name their files, so they run in a directory of files
    keyed by name.  A computation here threads the directory, the faults of
    the attempts to change a file, and what has been printed. *)

Module Files.

Record state := State {
  files : gmap string file_content;     (* the files, by name *)
  faults : list (option write_fault);   (* one entry per attempt to change a file *)
  out : list string                     (* what has been printed *)
}.

Definition M (A : Type) : Type := state -> result A * state.

Definition ret {A} (a : A) : M A := fun s => (Returned a, s).
Definition raise {A} (e : exn) : M A := fun s => (Raised e, s).

Definition bind {A B} (m : M A) (k : A -> M B) : M B :=
  fun s =>
    match m s with
    | (Returned a, s') => k a s'
    | (Raised e, s') => (Raised e, s')
    | (Stuck, s') => (Stuck, s')
    end.

Declare Scope files_scope.
Notation "x <- m ;; k" := (bind m (fun x => k))
  (at level 100, m at next level, k at level 200, right associativity) : files_scope.
Notation "m ;; k" := (bind m (fun _ => k))
  (at level 100, k at level 200, right associativity) : files_scope.
Local Open Scope files_scope.

Fixpoint dispatch {A} (e : exn) (clauses : list (list class_expr * (exn -> M A)))
  : M A :=
  match clauses with
  | [] => raise e
  | (ces, handler) :: rest =>
      match eval_class_tuple ces with
      | inl e' => raise e'
      | inr cs =>
          match exn_matches e cs with
          | inl e' => raise e'
          | inr true => handler e
          | inr false => dispatch e rest
          end
      end
  end.

Definition try_except {A} (body : M A)
    (clauses : list (list class_expr * (exn -> M A))) : M A :=
  fun s =>
    match body s with
    | (Raised e, s') => dispatch e clauses s'
    | r => r
    end.

Definition print (line : string) : M unit :=
  fun s => (Returned tt, State (files s) (faults s) (out s ++ [line])).

(** [Path(p).exists()] *)
Definition path_exists (p : string) : M bool :=
  fun s => (Returned (match files s !! p with Some _ => true | None => false end), s).

(** [with open(p, 'r') as f: json.load(f)] *)
Definition json_load (p : string) : M json_data :=
  fun s =>
    match files s !! p with
    | Some (JsonAccounts records) => (Returned (records, None), s)
    | Some (Foreign loaded bad) => (Returned (loaded, Some bad), s)
    | Some Malformed =>
        (Raised (Exn JSONDecodeError "Expecting value: line 1 column 1 (char 0)"), s)
    | Some (Unreadable r) => (Raised (read_exn p r), s)
    | None =>
        (Raised (Exn FileNotFoundError ("No such file or directory: '" +:+ p +:+ "'")), s)
    end.

(** Writing the file [p], with [open(p, 'w')] and a dump or with
    [write_text]: as [write_file] does for [accounts.json]. *)
Definition write (p : string) (content : file_content) : M unit :=
  fun s =>
    match faults s with
    | Some (OpenFails e) :: rest => (Raised e, State (files s) rest (out s))
    | Some (WriteFails e) :: rest =>
        (Raised e, State (<[p := Malformed]> (files s)) rest (out s))
    | None :: rest => (Returned tt, State (<[p := content]> (files s)) rest (out s))
    | [] => (Returned tt, State (<[p := content]> (files s)) [] (out s))
    end.

(** [Path(src).rename(dst)]: a fault leaves both names as they were. *)
Definition rename (src dst : string) : M unit :=
  fun s =>
    match files s !! src with
    | None =>
        (Raised (Exn FileNotFoundError ("No such file or directory: '" +:+ src +:+ "'")), s)
    | Some c =>
        match faults s with
        | Some f :: rest => (Raised (fault_exn f), State (files s) rest (out s))
        | None :: rest =>
            (Returned tt, State (<[dst := c]> (delete src (files s))) rest (out s))
        | [] => (Returned tt, State (<[dst := c]> (delete src (files s))) [] (out s))
        end
    end.

Definition file_exists (file_path : string) : M bool := path_exists file_path.

Definition validate_json_file (file_path : string) : M bool :=
  try_except
    (json_load file_path ;; ret true)
    [ ([JsonAttr "JSONDecodeError"; Builtin FileNotFoundError; Builtin IOError],
       fun _ => ret false) ].

Definition corrupted_backup : string := "accounts_corrupted_backup.json".

Definition repair_accounts_file (accounts_file : string) : M bool :=
  try_except
    (valid <- validate_json_file accounts_file ;;
     if valid then ret true
     else
       print "Accounts file appears to be corrupted." ;;
       ex <- path_exists accounts_file ;;
       (if ex then
          rename accounts_file corrupted_backup ;;
          print ("Corrupted file backed up as: " +:+ corrupted_backup)
        else ret tt) ;;
       write accounts_file (JsonAccounts []) ;;
       print "Created new empty accounts file." ;;
       ret false)
    [ ([Builtin Exception],
       fun e => print ("Error repairing accounts file: " +:+ exn_msg e) ;; ret false) ].

(** [backup_accounts]: the dictionary is given with the records it holds,
    which the function only reads. *)
Definition backup_accounts (accounts : dict account) (backup_name : string) : M bool :=
  try_except
    (let backup_file := "accounts_" +:+ backup_name +:+ ".json" in
     let accounts_data := dict_values accounts in
     write backup_file (JsonAccounts accounts_data) ;;
     print ("Backup created: " +:+ backup_file) ;;
     ret true)
    [ ([Builtin IOError; JsonAttr "JSONEncodeError"],
       fun e => print ("Error creating backup: " +:+ exn_msg e) ;; ret false) ].

(** The next [n] attempts to change a file go through. *)
Fixpoint no_fault (n : nat) (fs : list (option write_fault)) : Prop :=
  match n, fs with
  | O, _ => True
  | S _, [] => True
  | S n', None :: rest => no_fault n' rest
  | S _, Some _ :: _ => False
  end.

(** The file at [p] holds JSON that [json.load] reads. *)
Definition valid_json (p : string) (s : state) : bool :=
  match files s !! p with
  | Some (JsonAccounts _) | Some (Foreign _ _) => true
  | _ => false
  end.

(** The file at [p] is one on which [validate_json_file] answers: every file
    but one whose bytes are not text or whose JSON nests too deep. *)
Definition answerable (p : string) (s : state) : bool :=
  match files s !! p with
  | Some (Unreadable (Undecodable _)) | Some (Unreadable (TooDeep _)) => false
  | _ => true
  end.

(** The faults ahead are exceptions in the ordinary sense, subclasses of
    [Exception]. *)
Definition ordinary_faults (fs : list (option write_fault)) : Prop :=
  forall f, In (Some f) fs -> issubclass (exn_type (fault_exn f)) Exception = true.

(** A directory whose accounts file is not JSON, and in which the first
    attempt to change a file is refused. *)
Definition corrupted_dir (fs : list (option write_fault)) : state :=
  State {[ "accounts.json" := Malformed ]} fs [].

(** A directory whose accounts file holds bytes that are not text. *)
Definition undecodable_dir : state :=
  State {[ "accounts.json" :=
             Unreadable (Undecodable
               "'utf-8' codec can't decode byte 0xff in position 0: invalid start byte") ]}
        [] [].

End Files.

(** * Properties *)

(** ** Strings *)

Lemma mem_In (x : string) (l : list string) : Str.mem x l = true <-> In x l.
Proof.
  unfold Str.mem. rewrite existsb_exists. split.
  - intros (y & Hy & E). apply String.eqb_eq in E. now subst.
  - intros H. exists x. split; [exact H | apply String.eqb_refl].
Qed.

Lemma mem_app (x : string) (l1 l2 : list string) :
  Str.mem x (l1 ++ l2) = Str.mem x l1 || Str.mem x l2.
Proof. unfold Str.mem. apply existsb_app. Qed.

Lemma all_chars_in_covered (w : string) (correct : list string) :
  all_chars_in w correct = true <->
  (forall c, In c (Str.chars w) -> In (String c EmptyString) correct).
Proof.
  unfold all_chars_in. rewrite forallb_forall. split.
  - intros H c Hc. apply mem_In. now apply H.
  - intros H c Hc. apply mem_In. now apply H.
Qed.

Lemma upper_nonempty (s : string) : s <> EmptyString -> Str.upper s <> EmptyString.
Proof. destruct s; simpl; [congruence | discriminate]. Qed.

Lemma upper_chr_not_lower (c : ascii) : Str.islower (Str.upper_chr c) = false.
Proof.
  destruct c as [[] [] [] [] [] [] [] []]; reflexivity.
Qed.

Lemma upper_chr_idem (c : ascii) : Str.upper_chr (Str.upper_chr c) = Str.upper_chr c.
Proof.
  unfold Str.upper_chr at 1. now rewrite upper_chr_not_lower.
Qed.

Lemma upper_idem (s : string) : Str.upper (Str.upper s) = Str.upper s.
Proof.
  induction s as [| c s IH]; simpl; [reflexivity |].
  now rewrite upper_chr_idem, IH.
Qed.

(** ** The game session *)

Lemma make_guess_word (gs : game_session) (g : string) :
  word (snd (make_guess gs g)) = word gs.
Proof.
  unfold make_guess.
  repeat match goal with |- context [if ?b then _ else _] => destruct b end;
    reflexivity.
Qed.

Lemma make_guess_lives (gs : game_session) (g : string) :
  lives gs = 6 - Z.of_nat (length (wrong_guesses gs)) ->
  lives (snd (make_guess gs g)) =
  6 - Z.of_nat (length (wrong_guesses (snd (make_guess gs g)))).
Proof.
  intros H. unfold make_guess.
  repeat match goal with |- context [if ?b then _ else _] => destruct b end;
    simpl; rewrite ?length_app; simpl; lia.
Qed.

Lemma guess_all_lives (gs : game_session) (guesses : list string) :
  lives gs = 6 - Z.of_nat (length (wrong_guesses gs)) ->
  lives (guess_all gs guesses) =
  6 - Z.of_nat (length (wrong_guesses (guess_all gs guesses))).
Proof.
  revert gs. induction guesses as [| g rest IH]; intros gs H; simpl.
  - exact H.
  - apply IH. now apply make_guess_lives.
Qed.

(** One guarded step keeps the invariant. *)
Lemma make_guess_invariant (gs : game_session) (g : string) :
  session_invariant gs -> is_complete gs = false ->
  session_invariant (snd (make_guess gs g)).
Proof.
  intros [Hl Hc Hw Hf] Hact.
  assert (Hpos : lives gs > 0).
  { destruct (Z_gt_le_dec (lives gs) 0) as [|Hle]; [assumption |].
    assert (is_complete gs = true) by (apply Hc; now left). congruence. }
  assert (Hnc : ~ word_covered gs).
  { intros Hcov. assert (is_complete gs = true) by (apply Hc; now right).
    congruence. }
  assert (Hnw : is_won gs = false).
  { destruct (is_won gs) eqn:E; [| reflexivity].
    destruct (proj1 Hw eq_refl) as [E' _]. congruence. }
  unfold make_guess.
  destruct (Str.mem (Str.upper g) (guessed_letters gs)); simpl.
  { now constructor. }
  destruct (Str.contains (word gs) (Str.upper g)); simpl.
  - destruct (all_chars_in (word gs) (correct_guesses gs ++ [Str.upper g])) eqn:Hall;
      simpl.
    + constructor; simpl; try assumption.
      * split; [intros _ | reflexivity]. right.
        unfold word_covered; simpl. now apply all_chars_in_covered.
      * split; [intros _; split; [reflexivity | assumption] | reflexivity].
      * intros _. lia.
    + constructor; simpl; try assumption.
      rewrite Hact. split; [discriminate |]. intros [Hle | Hcov]; [lia |].
      unfold word_covered in Hcov; simpl in Hcov.
      apply all_chars_in_covered in Hcov. congruence.
  - destruct (lives gs - 1 <=? 0) eqn:Hz; simpl.
    + apply Z.leb_le in Hz.
      constructor; simpl.
      * rewrite length_app; simpl. lia.
      * split; [intros _; now left | reflexivity].
      * split; [discriminate | intros [_ ?]; lia].
      * intros _. lia.
    + apply Z.leb_gt in Hz.
      constructor; simpl.
      * rewrite length_app; simpl. lia.
      * rewrite Hact. split; [discriminate |]. intros [Hle | Hcov]; [lia |].
        exfalso. apply Hnc. exact Hcov.
      * rewrite Hnw, Hact. split; [discriminate | intros [? _]; discriminate].
      * rewrite Hact. discriminate.
Qed.

Lemma create_game_session_invariant (w : string) :
  w <> EmptyString -> session_invariant (create_game_session w).
Proof.
  intros Hne. constructor; simpl.
  - reflexivity.
  - split; [discriminate |]. intros [Hle | Hcov]; [lia |].
    unfold word_covered in Hcov; simpl in Hcov.
    apply upper_nonempty in Hne.
    destruct (Str.upper w) as [| c s]; [congruence |].
    destruct (Hcov c (or_introl eq_refl)).
  - split; [discriminate | intros [? _]; discriminate].
  - discriminate.
Qed.

Lemma guess_while_active_invariant (gs : game_session) (guesses : list string) :
  session_invariant gs -> session_invariant (guess_while_active gs guesses).
Proof.
  revert gs. induction guesses as [| g rest IH]; intros gs H; simpl.
  - exact H.
  - destruct (is_complete gs) eqn:E; [exact H |].
    apply IH. now apply make_guess_invariant.
Qed.

(** One step of [make_guess], guarded or not, keeps the characterisation of
    [is_complete]. *)
Lemma make_guess_complete_iff (gs : game_session) (g : string) :
  (is_complete gs = true <-> (lives gs <= 0 \/ word_covered gs)) ->
  (is_complete (snd (make_guess gs g)) = true <->
   (lives (snd (make_guess gs g)) <= 0 \/ word_covered (snd (make_guess gs g)))).
Proof.
  intros Hc. unfold make_guess.
  destruct (Str.mem (Str.upper g) (guessed_letters gs)); simpl; [exact Hc |].
  destruct (Str.contains (word gs) (Str.upper g)); simpl.
  - destruct (all_chars_in (word gs) (correct_guesses gs ++ [Str.upper g])) eqn:Hall;
      simpl.
    + split; [intros _ | reflexivity]. right.
      unfold word_covered; simpl. now apply all_chars_in_covered.
    + assert (Hnew : ~ word_covered
                       {| word := word gs;
                          guessed_letters := guessed_letters gs ++ [Str.upper g];
                          correct_guesses := correct_guesses gs ++ [Str.upper g];
                          wrong_guesses := wrong_guesses gs;
                          lives := lives gs;
                          is_complete := is_complete gs;
                          is_won := is_won gs |}).
      { intros Hcov. unfold word_covered in Hcov; simpl in Hcov.
        apply all_chars_in_covered in Hcov. congruence. }
      split.
      * intros H. apply Hc in H. destruct H as [Hle | Hcov]; [now left |].
        exfalso. apply Hnew. intros c Hin. simpl. apply in_or_app. left.
        now apply Hcov.
      * intros [Hle | Hcov]; [apply Hc; now left | now destruct Hnew].
  - destruct (lives gs - 1 <=? 0) eqn:Hz; simpl.
    + apply Z.leb_le in Hz. split; [intros _; now left | reflexivity].
    + apply Z.leb_gt in Hz. split.
      * intros H. apply Hc in H. destruct H as [Hle | Hcov]; [lia | now right].
      * intros [Hle | Hcov]; [lia | apply Hc; now right].
Qed.

Lemma guess_all_complete_iff (gs : game_session) (guesses : list string) :
  (is_complete gs = true <-> (lives gs <= 0 \/ word_covered gs)) ->
  (is_complete (guess_all gs guesses) = true <->
   (lives (guess_all gs guesses) <= 0 \/ word_covered (guess_all gs guesses))).
Proof.
  revert gs. induction guesses as [| g rest IH]; intros gs H; simpl.
  - exact H.
  - apply IH. now apply make_guess_complete_iff.
Qed.

Lemma guess_while_active_lives (gs : game_session) (guesses : list string) :
  lives gs = 6 - Z.of_nat (length (wrong_guesses gs)) ->
  lives (guess_while_active gs guesses) =
  6 - Z.of_nat (length (wrong_guesses (guess_while_active gs guesses))).
Proof.
  revert gs. induction guesses as [| g rest IH]; intros gs H; simpl.
  - exact H.
  - destruct (is_complete gs); [exact H |]. apply IH. now apply make_guess_lives.
Qed.

Lemma make_guess_guarded (gs : game_session) (g : string) :
  guarded_invariant gs -> is_complete gs = false ->
  guarded_invariant (snd (make_guess gs g)).
Proof.
  intros (Hw & Hf & Hp) Hact. pose proof (Hp Hact) as Hpos.
  assert (Hnw : is_won gs = false).
  { destruct (is_won gs) eqn:E; [| reflexivity].
    destruct (proj1 Hw eq_refl) as [E' _]. congruence. }
  unfold make_guess.
  destruct (Str.mem (Str.upper g) (guessed_letters gs)); simpl.
  { repeat split; try assumption; now apply Hw. }
  destruct (Str.contains (word gs) (Str.upper g)); simpl.
  - destruct (all_chars_in (word gs) (correct_guesses gs ++ [Str.upper g])); simpl.
    + unfold guarded_invariant; simpl. split; [| split].
      * split; [intros _; split; [reflexivity | exact Hpos] | reflexivity].
      * intros _. lia.
      * discriminate.
    + unfold guarded_invariant; simpl. rewrite Hact, Hnw. split; [| split].
      * split; [discriminate | intros [? _]; discriminate].
      * discriminate.
      * intros _. exact Hpos.
  - destruct (lives gs - 1 <=? 0) eqn:Hz; simpl.
    + apply Z.leb_le in Hz. unfold guarded_invariant; simpl. split; [| split].
      * split; [discriminate | intros [_ ?]; lia].
      * intros _. lia.
      * discriminate.
    + apply Z.leb_gt in Hz. unfold guarded_invariant; simpl.
      rewrite Hact, Hnw. split; [| split].
      * split; [discriminate | intros [? _]; discriminate].
      * discriminate.
      * intros _. lia.
Qed.

Lemma guess_while_active_guarded (gs : game_session) (guesses : list string) :
  guarded_invariant gs -> guarded_invariant (guess_while_active gs guesses).
Proof.
  revert gs. induction guesses as [| g rest IH]; intros gs H; simpl.
  - exact H.
  - destruct (is_complete gs) eqn:E; [exact H |].
    apply IH. now apply make_guess_guarded.
Qed.

Lemma create_game_session_guarded (w : string) :
  guarded_invariant (create_game_session w).
Proof.
  unfold guarded_invariant; simpl. split; [| split].
  - split; [discriminate | intros [? _]; discriminate].
  - discriminate.
  - intros _. lia.
Qed.

(** C1, as amended.  Each part of the invariant holds as far as the code
    makes it hold.
    - [lives = 6 - |wrong_guesses|] after every sequence of guesses and for
      every word, whether or not the session was complete when a guess was
      made.
    - For every non-empty word, [is_complete] holds exactly when
      [lives <= 0] or every character of the word is in [correct_guesses],
      again after every sequence of guesses, guarded or not.
    - For every word, the empty one included, when [make_guess] is applied
      only while the session is not complete, as [play_game] does, [is_won]
      holds exactly when [is_complete] and [lives > 0], and [is_complete]
      implies [lives >= 0].
    So for a non-empty word played under the guard the whole invariant
    holds after each guess. *)
Theorem session_invariant_while_active (W : string) (guesses : list string) :
  (let gs := guess_all (create_game_session W) guesses in
   lives gs = 6 - Z.of_nat (length (wrong_guesses gs))
   /\ (W <> EmptyString ->
       (is_complete gs = true <-> (lives gs <= 0 \/ word_covered gs))))
  /\ (let gs := guess_while_active (create_game_session W) guesses in
      lives gs = 6 - Z.of_nat (length (wrong_guesses gs))
      /\ (is_won gs = true <-> (is_complete gs = true /\ lives gs > 0))
      /\ (is_complete gs = true -> lives gs >= 0)
      /\ (W <> EmptyString -> session_invariant gs)).
Proof.
  split; cbv zeta.
  - split; [now apply guess_all_lives |].
    intros Hne. apply guess_all_complete_iff.
    apply (inv_complete _ (create_game_session_invariant W Hne)).
  - split; [now apply guess_while_active_lives |].
    destruct (guess_while_active_guarded _ guesses (create_game_session_guarded W))
      as (Hw & Hf & _).
    split; [exact Hw |]. split; [exact Hf |].
    intros Hne. apply guess_while_active_invariant.
    now apply create_game_session_invariant.
Qed.

Lemma session_invariant_while_active_witness :
  "cat" <> EmptyString
  /\ (let gs := guess_all (create_game_session "cat")
                  ["b"; "d"; "e"; "f"; "g"; "h"; "i"; "c"; "a"; "t"] in
      is_complete gs = true <-> (lives gs <= 0 \/ word_covered gs))
  /\ session_invariant
       (guess_while_active (create_game_session "cat") ["x"; "c"; "a"; "t"; "q"]).
Proof.
  split; [discriminate |]. split.
  - apply (proj1 (session_invariant_while_active "cat"
                    ["b"; "d"; "e"; "f"; "g"; "h"; "i"; "c"; "a"; "t"])).
    discriminate.
  - apply (proj2 (session_invariant_while_active "cat" ["x"; "c"; "a"; "t"; "q"])).
    discriminate.
Defined.

(** C1, as stated, fails, and each restriction of the amended statement is
    forced.  [make_guess] itself has no guard: a seventh wrong guess on a
    lost session brings [lives] to -1 while [is_complete] holds; and
    completing the word after the game was lost sets [is_won] while [lives]
    is 0.  [create_game_session] accepts the empty word, for which every
    character of the word is in [correct_guesses] from the start while
    [is_complete] is false, under the guard as well. *)
Lemma session_invariant_unguarded_fails :
  (let gs := guess_all (create_game_session "A")
               ["B"; "C"; "D"; "E"; "F"; "G"; "H"] in
   is_complete gs = true /\ lives gs = -1 /\ ~ session_invariant gs)
  /\ (let gs := guess_all (create_game_session "AB")
                  ["C"; "D"; "E"; "F"; "G"; "H"; "A"; "B"] in
      is_won gs = true /\ lives gs = 0 /\ ~ session_invariant gs)
  /\ (let gs := guess_while_active (create_game_session EmptyString) ["A"] in
      word_covered gs /\ is_complete gs = false /\ ~ session_invariant gs).
Proof.
  split; [| split]; cbv zeta.
  - split; [reflexivity |]. split; [reflexivity |].
    intros [_ _ _ Hf]. vm_compute in Hf. specialize (Hf eq_refl). now apply Hf.
  - split; [reflexivity |]. split; [reflexivity |].
    intros [_ _ Hw _]. vm_compute in Hw.
    destruct (proj1 Hw eq_refl) as [_ Hpos]. discriminate Hpos.
  - assert (Hcov : word_covered
                     (guess_while_active (create_game_session EmptyString) ["A"])).
    { intros c Hin. destruct Hin. }
    split; [exact Hcov |]. split; [reflexivity |].
    intros [_ Hc _ _].
    assert (H : is_complete
                  (guess_while_active (create_game_session EmptyString) ["A"]) = true).
    { apply Hc. now right. }
    vm_compute in H. discriminate.
Qed.

(** The two sessions of the specification's examples. *)
Example cat_won :
  let s := guess_while_active (create_game_session "CAT") ["C"; "A"; "T"] in
  is_won s = true /\ lives s = 6.
Proof. vm_compute. auto. Qed.

Example cat_lost :
  let s :=
    guess_while_active (create_game_session "CAT") ["X"; "Y"; "Z"; "Q"; "W"; "E"] in
  is_won s = false /\ lives s = 0 /\ is_complete s = true.
Proof. vm_compute. auto. Qed.

(** C2, as amended.  [make_guess] returns a boolean: [True] exactly when the
    uppercased letter is new and occurs in the word (outcome Correct), and
    [False] both when the letter was already guessed and when it is new and
    absent from the word, so that the returned value does not tell
    AlreadyGuessed from Incorrect.  When the letter was already guessed no
    field of the session changes. *)
Theorem make_guess_result (gs : game_session) (letter : string) :
  fst (make_guess gs letter) =
    match guess_outcome gs letter with
    | Correct => true
    | AlreadyGuessed | Incorrect => false
    end
  /\ (guess_outcome gs letter = AlreadyGuessed <->
      Str.mem (Str.upper letter) (guessed_letters gs) = true)
  /\ (guess_outcome gs letter = AlreadyGuessed -> snd (make_guess gs letter) = gs).
Proof.
  unfold guess_outcome, make_guess.
  destruct (Str.mem (Str.upper letter) (guessed_letters gs)) eqn:Hm; simpl.
  - repeat split; auto.
  - destruct (Str.contains (word gs) (Str.upper letter)) eqn:Hc; simpl.
    + destruct (all_chars_in _ _); simpl; repeat split; auto; discriminate.
    + destruct (lives gs - 1 <=? 0); simpl; repeat split; auto; discriminate.
Qed.

Lemma make_guess_result_witness :
  let gs := snd (make_guess (create_game_session "cat") "x") in
  guess_outcome gs "X" = AlreadyGuessed /\ snd (make_guess gs "X") = gs.
Proof.
  split; [reflexivity |].
  apply (make_guess_result (snd (make_guess (create_game_session "cat") "x")) "X").
  reflexivity.
Defined.

(** C2, as stated, fails: no reading of the returned value yields the three
    outcomes, because a repeated letter and a new wrong letter both return
    [False]. *)
Lemma make_guess_result_not_three_way :
  ~ exists decode : bool -> outcome,
      forall gs letter, decode (fst (make_guess gs letter)) = guess_outcome gs letter.
Proof.
  intros [decode H].
  pose proof (H (create_game_session "cat") "x") as H1.
  pose proof (H (snd (make_guess (create_game_session "cat") "x")) "x") as H2.
  vm_compute in H1, H2. congruence.
Qed.

Lemma contains_empty (sub : string) :
  sub <> EmptyString -> Str.contains EmptyString sub = false.
Proof. destruct sub; [congruence | reflexivity]. Qed.

(** On the empty word every guess that is not itself empty is a wrong one. *)
Lemma make_guess_empty_word (gs : game_session) (g : string) :
  g <> EmptyString ->
  empty_word_session gs -> empty_word_session (snd (make_guess gs g)).
Proof.
  intros Hg (Hword & Hcor & Hwon & Hwr & Hl & Hc).
  assert (Hu : Str.upper g <> EmptyString) by now apply upper_nonempty.
  pose proof Hl as Hl'. rewrite Hwr in Hl'.
  unfold make_guess. rewrite Hword, (contains_empty _ Hu).
  destruct (Str.mem (Str.upper g) (guessed_letters gs)); simpl.
  { repeat split; try assumption; now apply Hc. }
  destruct (lives gs - 1 <=? 0) eqn:Hz; unfold empty_word_session; simpl;
    rewrite Hwr, !length_app; simpl.
  - apply Z.leb_le in Hz. repeat split; try assumption; try lia.
  - apply Z.leb_gt in Hz.
    repeat split; try assumption; try lia.
    intros H. apply Hc in H. lia.
Qed.

Lemma guess_all_empty_word (gs : game_session) (guesses : list string) :
  List.Forall (fun g => g <> EmptyString) guesses ->
  empty_word_session gs -> empty_word_session (guess_all gs guesses).
Proof.
  intros Hg. revert gs. induction Hg as [| g rest Hne _ IH]; intros gs H; simpl.
  - exact H.
  - apply IH. now apply make_guess_empty_word.
Qed.

(** C9, as amended.  [create_game_session] normalizes the word to uppercase
    (the stored word is [word.upper()], and normalizing again changes
    nothing) and constructs a fresh session for every word, the empty string
    included: it performs no validation and signals no error.  The session
    it constructs for the empty string takes guesses like any other, but no
    guess of a letter is correct on it and it cannot be won: the letters
    guessed are all wrong, and the session is complete exactly when six
    different letters have been guessed. *)
Theorem create_game_session_total (w : string) (guesses : list string) :
  create_game_session w = GameSession (Str.upper w) [] [] [] 6 false false
  /\ create_game_session (word (create_game_session w)) = create_game_session w
  /\ (List.Forall (fun g => g <> EmptyString) guesses ->
      let gs := guess_all (create_game_session EmptyString) guesses in
      correct_guesses gs = []
      /\ wrong_guesses gs = guessed_letters gs
      /\ is_won gs = false
      /\ (is_complete gs = true <-> (6 <= length (guessed_letters gs))%nat)).
Proof.
  split; [reflexivity |]. split.
  - unfold create_game_session; simpl. now rewrite upper_idem.
  - intros Hg. cbv zeta.
    assert (Hinit : empty_word_session (create_game_session EmptyString)).
    { unfold empty_word_session; simpl. repeat split; try lia; discriminate. }
    destruct (guess_all_empty_word _ guesses Hg Hinit)
      as (_ & Hcor & Hwon & Hwr & Hl & Hc).
    split; [exact Hcor |]. split; [exact Hwr |]. split; [exact Hwon |].
    rewrite Hc, Hl, Hwr. lia.
Qed.

Lemma create_game_session_total_witness :
  List.Forall (fun g => g <> EmptyString) ["a"; "b"]
  /\ is_won (guess_all (create_game_session EmptyString) ["a"; "b"]) = false.
Proof.
  assert (H : List.Forall (fun g : string => g <> EmptyString) ["a"; "b"]).
  { constructor; [discriminate | constructor; [discriminate | constructor]]. }
  split; [exact H |].
  apply (proj2 (proj2 (create_game_session_total EmptyString ["a"; "b"])) H).
Defined.

(** C9, as stated, fails: called on the empty string the constructor returns
    a session whose word is empty; nothing is signalled, and [play_game] plays
    the round on that session, which six letters lose. *)
Lemma create_game_session_accepts_empty :
  ~ (exists e w1,
       ret (create_game_session EmptyString) (initial_world [] [] [] None [])
       = (Raised e, w1))
  /\ create_game_session EmptyString = GameSession EmptyString [] [] [] 6 false false
  /\ (let final := play_game 10 0%nat world_empty_word in
      fst final = Returned tt
      /\ stdin (snd final) = []
      /\ heap (snd final) !! 0%nat = Some (Account "Bob" "guest" EmptyString 0 0 0 0 1 1)).
Proof.
  split; [| split; [reflexivity | vm_compute; repeat split]].
  intros (e & w1 & H). discriminate H.
Qed.

(** ** Reasoning about computations *)

Lemma returns_ret {A} (a : A) (P : A -> Prop) : P a -> returns (ret a) P.
Proof. intros H w. exists a, w. now split. Qed.

Lemma returns_bind {A B} (m : Py A) (k : A -> Py B) (P : A -> Prop) (Q : B -> Prop) :
  returns m P -> (forall a, P a -> returns (k a) Q) -> returns (bind m k) Q.
Proof.
  intros Hm Hk w. destruct (Hm w) as (a & w1 & E & Pa).
  destruct (Hk a Pa w1) as (b & w2 & E2 & Qb).
  exists b, w2. unfold bind. rewrite E. now split.
Qed.

Lemma returns_randbelow (n : nat) :
  returns (randbelow n) (fun r => (0 < n)%nat -> (r < n)%nat).
Proof.
  intros w. unfold randbelow. destruct (rng w) as [| r rest].
  - eexists _, _. split; [reflexivity | auto].
  - eexists _, _. split; [reflexivity |].
    intros Hn. apply Nat.mod_upper_bound. lia.
Qed.

Lemma returns_choice_chr (s : string) :
  s <> EmptyString -> returns (choice_chr s) (fun c => In c (Str.chars s)).
Proof.
  intros Hne. unfold choice_chr, random_choice.
  eapply returns_bind; [apply returns_randbelow |].
  intros i Hi. apply returns_ret. apply nth_In. apply Hi.
  destruct s; [congruence | simpl; lia].
Qed.

Lemma returns_append_choices (n : nat) (all_chars : string) (pw : list ascii) :
  all_chars <> EmptyString ->
  returns (append_choices n all_chars pw)
    (fun r => exists extra, r = pw ++ extra /\ length extra = n).
Proof.
  intros Hne. revert pw. induction n as [| n IH]; intros pw; simpl.
  - apply returns_ret. exists []. split; [now rewrite app_nil_r | reflexivity].
  - eapply returns_bind; [now apply returns_choice_chr |].
    intros c _ w. destruct (IH (pw ++ [c]) w) as (r & w' & E & extra & -> & Hlen).
    exists ((pw ++ [c]) ++ extra), w'. split; [exact E |].
    exists (c :: extra). split; [now rewrite <- app_assoc | simpl; now rewrite Hlen].
Qed.

Lemma swap_Permutation {A} (l : list A) (i j : nat) : Permutation (swap l i j) l.
Proof.
  unfold swap. destruct (l !! i) as [x |] eqn:Ei; [| reflexivity].
  destruct (l !! j) as [y |] eqn:Ej; [| reflexivity].
  now apply Permutation_insert_swap.
Qed.

Lemma returns_shuffle_from {A} (i : nat) (l : list A) :
  returns (shuffle_from i l) (fun r => Permutation r l).
Proof.
  revert l. induction i as [| i IH]; intros l.
  - apply returns_ret. reflexivity.
  - cbn [shuffle_from]. eapply returns_bind; [apply returns_randbelow |].
    intros j _ w. destruct (IH (swap l (S i) j) w) as (r & w' & E & Hp).
    exists r, w'. split; [exact E |].
    etransitivity; [exact Hp | apply swap_Permutation].
Qed.

(** ** The password policy *)

Lemma islower_spec (c : ascii) : Str.islower c = true <-> lowercase_letter c.
Proof.
  unfold Str.islower, lowercase_letter.
  rewrite andb_true_iff, !N.leb_le. tauto.
Qed.

Lemma isupper_spec (c : ascii) : Str.isupper c = true <-> uppercase_letter c.
Proof.
  unfold Str.isupper, uppercase_letter.
  rewrite andb_true_iff, !N.leb_le. tauto.
Qed.

Lemma isdigit_spec (c : ascii) : Str.isdigit c = true <-> digit c.
Proof.
  unfold Str.isdigit, digit.
  rewrite andb_true_iff, !N.leb_le. tauto.
Qed.

Lemma prefix_empty (s : string) : String.prefix EmptyString s = true.
Proof. destruct s; reflexivity. Qed.

Lemma contains_chr (s : string) (c : ascii) :
  Str.contains s (String c EmptyString) = true <-> In c (Str.chars s).
Proof.
  induction s as [| a s IH]; simpl.
  - split; [discriminate | tauto].
  - rewrite orb_true_iff, IH.
    destruct (ascii_dec c a) as [-> | Hne].
    + rewrite prefix_empty. tauto.
    + split; [intros [H | H]; [discriminate | now right] |].
      intros [H | H]; [congruence | now right].
Qed.

Lemma in_punctuation_spec (c : ascii) :
  Str.contains punctuation (String c EmptyString) = true <-> symbol c.
Proof. apply contains_chr. Qed.

Lemma existsb_has (f : ascii -> bool) (P : ascii -> Prop) (s : string) :
  (forall c, f c = true <-> P c) ->
  existsb f (Str.chars s) = true <-> has P s.
Proof.
  intros Hf. rewrite existsb_exists. unfold has.
  split; intros (c & Hin & Hc); exists c; (split; [exact Hin | now apply Hf]).
Qed.

Lemma validate_password_policy (p : string) :
  validate_password p = true <-> policy p.
Proof.
  unfold validate_password.
  destruct ((16 <? String.length p)%nat || (String.length p <? 1)%nat) eqn:Hlen.
  - split; [discriminate |]. intros [Hl _ _ _ _].
    apply orb_true_iff in Hlen. rewrite !Nat.ltb_lt in Hlen. lia.
  - apply orb_false_iff in Hlen. rewrite !Nat.ltb_ge in Hlen.
    rewrite !andb_true_iff.
    rewrite (existsb_has _ _ p islower_spec), (existsb_has _ _ p isupper_spec),
      (existsb_has _ _ p isdigit_spec), (existsb_has _ _ p in_punctuation_spec).
    split.
    + intros [[[? ?] ?] ?]. constructor; auto. lia.
    + intros [? ? ? ? ?]. tauto.
Qed.

Lemma chars_length (s : string) : length (Str.chars s) = String.length s.
Proof. induction s as [| c s IH]; simpl; [reflexivity | now rewrite IH]. Qed.

(** *** Passwords of any text *)

Lemma in_punctuation_In (c : Unicode.char) :
  Unicode.in_punctuation c = true <-> In c (Unicode.of_string punctuation).
Proof.
  unfold Unicode.in_punctuation. rewrite existsb_exists. split.
  - intros (x & Hx & E). apply N.eqb_eq in E. now subst.
  - intros H. exists c. split; [exact H | apply N.eqb_refl].
Qed.

Lemma unicode_validate_password_policy (db : Unicode.database) (p : Unicode.str) :
  Unicode.validate_password db p = true <-> Unicode.policy db p.
Proof.
  unfold Unicode.validate_password.
  destruct ((16 <? length p)%nat || (length p <? 1)%nat) eqn:Hlen.
  - split; [discriminate |]. intros [Hl _ _ _ _].
    apply orb_true_iff in Hlen. rewrite !Nat.ltb_lt in Hlen. lia.
  - apply orb_false_iff in Hlen. rewrite !Nat.ltb_ge in Hlen.
    rewrite !andb_true_iff, !existsb_exists. split.
    + intros [[[Hlo Hup] Hdi] (c & Hin & Hc)]. constructor; auto; [lia |].
      exists c. split; [exact Hin | now apply in_punctuation_In].
    + intros [? ? ? ? (c & Hin & Hc)]. repeat split; auto.
      exists c. split; [exact Hin | now apply in_punctuation_In].
Qed.

Lemma code_inj (a b : ascii) : Str.code a = Str.code b -> a = b.
Proof.
  unfold Str.code. intros H.
  rewrite <- (ascii_N_embedding a), <- (ascii_N_embedding b). now rewrite H.
Qed.

Lemma existsb_ext_in {A} (f g : A -> bool) (l : list A) :
  (forall x, In x l -> f x = g x) -> existsb f l = existsb g l.
Proof.
  induction l as [| a l IH]; simpl; intros H; [reflexivity |].
  rewrite (H a (or_introl eq_refl)). f_equal. apply IH.
  intros x Hx. apply H. now right.
Qed.

Lemma existsb_map_code (f : Unicode.char -> bool) (l : list ascii) :
  existsb f (map Str.code l) = existsb (fun c => f (Str.code c)) l.
Proof. induction l as [| a l IH]; simpl; [reflexivity | now rewrite IH]. Qed.

(** The ASCII model of [validate_password] is the general one wherever the
    database classifies the characters of the password as the model does. *)
Lemma validate_password_classes (db : Unicode.database) (s : string) :
  (forall c, In c (Str.chars s) ->
     Unicode.islower db (Str.code c) = Str.islower c
     /\ Unicode.isupper db (Str.code c) = Str.isupper c
     /\ Unicode.isdigit db (Str.code c) = Str.isdigit c) ->
  validate_password s = Unicode.validate_password db (Unicode.of_string s).
Proof.
  intros Hdb. unfold validate_password, Unicode.validate_password, Unicode.of_string.
  rewrite length_map, chars_length.
  destruct ((16 <? String.length s)%nat || (String.length s <? 1)%nat);
    [reflexivity |].
  cbv zeta. rewrite !existsb_map_code.
  rewrite (existsb_ext_in Str.islower (fun c => Unicode.islower db (Str.code c)))
    by (intros c Hc; symmetry; apply (Hdb c Hc)).
  rewrite (existsb_ext_in Str.isupper (fun c => Unicode.isupper db (Str.code c)))
    by (intros c Hc; symmetry; apply (Hdb c Hc)).
  rewrite (existsb_ext_in Str.isdigit (fun c => Unicode.isdigit db (Str.code c)))
    by (intros c Hc; symmetry; apply (Hdb c Hc)).
  rewrite (existsb_ext_in (fun c => Str.contains punctuation (String c EmptyString))
             (fun c => Unicode.in_punctuation (Str.code c))); [reflexivity |].
  intros c Hc. apply eq_true_iff_eq.
  rewrite contains_chr, in_punctuation_In. unfold Unicode.of_string.
  rewrite in_map_iff. split.
  - intros H. now exists c.
  - intros (x & Hx & Hin). apply code_inj in Hx. now subst.
Qed.

(** On ASCII passwords the ASCII model of [validate_password] is the general
    one, whatever the database says beyond the ASCII range. *)
Lemma validate_password_ascii (db : Unicode.database) (s : string) :
  Unicode.ascii_compatible db -> Unicode.is_ascii s ->
  validate_password s = Unicode.validate_password db (Unicode.of_string s).
Proof.
  intros Hdb Hs. apply validate_password_classes. intros c Hc.
  unfold Unicode.is_ascii in Hs. rewrite List.Forall_forall in Hs.
  exact (Hdb (Str.code c) (Hs c Hc)).
Qed.

(** The [validate_password] of the ASCII model is the general one taken with
    the database that knows the ASCII range only. *)
Lemma validate_password_model (s : string) :
  validate_password s
  = Unicode.validate_password Unicode.ascii_only (Unicode.of_string s).
Proof. apply validate_password_classes. intros c _. repeat split. Qed.

(** C4.  For a password of any text, [validate_password] is true exactly
    when the password has between 1 and 16 characters and contains a
    character that [str.islower] accepts, one that [str.isupper] accepts, one
    that [str.isdigit] accepts and a character of [string.punctuation];
    every password of 17 characters or more is rejected.  With what the
    character database says of the ASCII range, "abc" is rejected and
    "Abcdef1!" is accepted, and on ASCII passwords the function is the one of
    the ASCII model, which is the function taken with the database that
    knows the ASCII range only. *)
Theorem validate_password_spec (db : Unicode.database) :
  (forall p, Unicode.validate_password db p = true <-> Unicode.policy db p)
  /\ (forall p, (17 <= length p)%nat -> Unicode.validate_password db p = false)
  /\ (Unicode.ascii_compatible db ->
      Unicode.validate_password db (Unicode.of_string "abc") = false
      /\ Unicode.validate_password db (Unicode.of_string "Abcdef1!") = true
      /\ forall s, Unicode.is_ascii s ->
           Unicode.validate_password db (Unicode.of_string s) = validate_password s)
  /\ (forall s, validate_password s
                = Unicode.validate_password Unicode.ascii_only (Unicode.of_string s)).
Proof.
  split; [apply unicode_validate_password_policy |].
  split; [| split; [| exact validate_password_model]].
  - intros p Hlen. unfold Unicode.validate_password.
    replace (16 <? length p)%nat with true; [reflexivity |].
    symmetry. apply Nat.ltb_lt. lia.
  - intros Hdb.
    assert (Hascii : forall s, Unicode.is_ascii s ->
              Unicode.validate_password db (Unicode.of_string s) = validate_password s).
    { intros s Hs. symmetry. now apply validate_password_ascii. }
    split; [| split; [| exact Hascii]].
    + rewrite Hascii; [reflexivity |]. repeat constructor.
    + rewrite Hascii; [reflexivity |]. repeat constructor.
Qed.

Lemma validate_password_spec_witness :
  Unicode.ascii_compatible Unicode.latin1
  /\ Unicode.validate_password Unicode.latin1 (Unicode.of_string "abc") = false
  /\ Unicode.validate_password Unicode.latin1 (Unicode.of_string "Abcdef1!") = true.
Proof.
  assert (H : Unicode.ascii_compatible Unicode.latin1).
  { intros c Hc. unfold Unicode.latin1; cbn [Unicode.islower Unicode.isupper Unicode.isdigit].
    repeat split.
    - destruct (N.leb_spec 97 c), (N.leb_spec c 122); cbn [andb orb];
        repeat match goal with
               | |- context [(c =? ?k)%N] =>
                   destruct (N.eqb_spec c k); [lia |]
               | |- context [(?k <=? c)%N] =>
                   destruct (N.leb_spec k c); [lia |]
               end; reflexivity.
    - destruct (N.leb_spec 65 c), (N.leb_spec c 90); cbn [andb orb];
        repeat match goal with
               | |- context [(?k <=? c)%N] =>
                   destruct (N.leb_spec k c); [lia |]
               end; reflexivity.
    - destruct (N.leb_spec 48 c), (N.leb_spec c 57); cbn [andb orb];
        repeat match goal with
               | |- context [(c =? ?k)%N] =>
                   destruct (N.eqb_spec c k); [lia |]
               end; reflexivity. }
  split; [exact H |].
  destruct (proj1 (proj2 (proj2 (validate_password_spec Unicode.latin1))) H)
    as (H1 & H2 & _).
  split; [exact H1 | exact H2].
Defined.

(** Beyond the ASCII range the answer depends on the character database:
    with Python's classification of the Latin-1 supplement, a password whose
    only letters are accented and one whose only digit is a superscript are
    accepted. *)
Example validate_password_latin1 :
  Unicode.validate_password Unicode.latin1 [201; 233; 49; 33]%N = true
  /\ Unicode.validate_password Unicode.latin1 [97; 65; 178; 33]%N = true.
Proof. split; reflexivity. Qed.

Lemma chars_of_list (l : list ascii) : Str.chars (string_of_list_ascii l) = l.
Proof. apply list_ascii_of_string_of_list_ascii. Qed.

Lemma alphabet_classes :
  Forall lowercase_letter (Str.chars ascii_lowercase)
  /\ Forall uppercase_letter (Str.chars ascii_uppercase)
  /\ Forall digit (Str.chars digits)
  /\ Forall symbol (Str.chars safe_symbols).
Proof.
  repeat split; apply List.Forall_forall; intros c Hc.
  - apply islower_spec.
    now apply (proj1 (forallb_forall Str.islower (Str.chars ascii_lowercase)) eq_refl).
  - apply isupper_spec.
    now apply (proj1 (forallb_forall Str.isupper (Str.chars ascii_uppercase)) eq_refl).
  - apply isdigit_spec.
    now apply (proj1 (forallb_forall Str.isdigit (Str.chars digits)) eq_refl).
  - apply in_punctuation_spec.
    now apply (proj1 (forallb_forall
                        (fun c => Str.contains punctuation (String c EmptyString))
                        (Str.chars safe_symbols)) eq_refl).
Qed.

(** C3.  Whatever the random generator draws, [generate_password] returns a
    string of exactly 12 characters that contains a lowercase letter, an
    uppercase letter, a digit and a symbol, and [validate_password] accepts
    it. *)
Theorem generate_password_valid (w : world) :
  exists pw w',
    generate_password w = (Returned pw, w')
    /\ String.length pw = 12%nat
    /\ has lowercase_letter pw /\ has uppercase_letter pw
    /\ has digit pw /\ has symbol pw
    /\ validate_password pw = true.
Proof.
  assert (H : returns generate_password
                (fun pw => String.length pw = 12%nat /\ policy pw)).
  { destruct alphabet_classes as (Hlo & Hup & Hdi & Hsy).
    rewrite List.Forall_forall in Hlo, Hup, Hdi, Hsy.
    unfold generate_password.
    eapply returns_bind; [apply returns_choice_chr; discriminate |]. intros c1 H1.
    eapply returns_bind; [apply returns_choice_chr; discriminate |]. intros c2 H2.
    eapply returns_bind; [apply returns_choice_chr; discriminate |]. intros c3 H3.
    eapply returns_bind; [apply returns_choice_chr; discriminate |]. intros c4 H4.
    eapply returns_bind; [apply returns_append_choices; discriminate |].
    intros pw (extra & -> & Hlen).
    eapply returns_bind; [apply returns_shuffle_from |].
    intros sh Hperm. apply returns_ret.
    assert (Hin : forall c, In c ([c1; c2; c3; c4] ++ extra) ->
                            In c (Str.chars (string_of_list_ascii sh))).
    { intros c Hc. rewrite chars_of_list.
      eapply Permutation_in; [symmetry; exact Hperm | exact Hc]. }
    assert (Hl : String.length (string_of_list_ascii sh) = 12%nat).
    { rewrite <- chars_length, chars_of_list, (Permutation_length Hperm).
      rewrite length_app, Hlen. reflexivity. }
    split; [exact Hl |]. constructor.
    - rewrite Hl. lia.
    - exists c1. split; [apply Hin; simpl; tauto | now apply Hlo].
    - exists c2. split; [apply Hin; simpl; tauto | now apply Hup].
    - exists c3. split; [apply Hin; simpl; tauto | now apply Hdi].
    - exists c4. split; [apply Hin; simpl; tauto | now apply Hsy]. }
  destruct (H w) as (pw & w' & E & Hl & Hp).
  exists pw, w'. split; [exact E |]. split; [exact Hl |].
  pose proof (proj2 (validate_password_policy pw) Hp) as Hv.
  destruct Hp as [? ? ? ? ?]. repeat split; assumption.
Qed.

(** ** The account lifecycle *)

Lemma same_store_refl (w : world) : same_store w w.
Proof. repeat split. Qed.

Lemma same_store_trans (w1 w2 w3 : world) :
  same_store w1 w2 -> same_store w2 w3 -> same_store w1 w3.
Proof.
  intros (? & ? & ? & ?) (? & ? & ? & ?). repeat split; congruence.
Qed.

Lemma bind_inv {A B} (m : Py A) (k : A -> Py B) (w w' : world) (b : B) :
  bind m k w = (Returned b, w') ->
  exists a w1, m w = (Returned a, w1) /\ k a w1 = (Returned b, w').
Proof.
  unfold bind. destruct (m w) as [[a | e |] w1]; intros H;
    [eauto | discriminate | discriminate].
Qed.

Lemma keeps_ret {A} (a : A) : keeps_store (ret a).
Proof. intros w r w' H. inversion H. apply same_store_refl. Qed.

Lemma keeps_bind {A B} (m : Py A) (k : A -> Py B) :
  keeps_store m -> (forall a, keeps_store (k a)) -> keeps_store (bind m k).
Proof.
  intros Hm Hk w r w' H. unfold bind in H.
  destruct (m w) as [[a | e |] w1] eqn:E.
  - eapply same_store_trans; [eapply Hm; exact E | eapply Hk; exact H].
  - inversion H; subst. eapply Hm; exact E.
  - inversion H; subst. eapply Hm; exact E.
Qed.

Lemma keeps_print (s : string) : keeps_store (print s).
Proof. intros w r w' H. inversion H. repeat split. Qed.

Lemma keeps_input (s : string) : keeps_store (input s).
Proof.
  intros w r w' H. unfold input in H. simpl in H.
  destruct (stdin w); inversion H; repeat split.
Qed.

Lemma keeps_input_stripped (s : string) : keeps_store (input_stripped s).
Proof.
  apply keeps_bind; [apply keeps_input | intros; apply keeps_ret].
Qed.

Lemma keeps_get_accounts : keeps_store get_accounts.
Proof. intros w r w' H. inversion H. apply same_store_refl. Qed.

Lemma keeps_randbelow (n : nat) : keeps_store (randbelow n).
Proof.
  intros w r w' H. unfold randbelow in H.
  destruct (rng w); inversion H; repeat split.
Qed.

Create HintDb keeps.
#[local] Hint Resolve keeps_ret keeps_print keeps_input_stripped keeps_get_accounts
  keeps_randbelow : keeps.

Ltac keeps :=
  repeat first
    [ progress auto with keeps
    | apply keeps_bind; [| intros ?]
    | match goal with
      | |- keeps_store (if ?b then _ else _) => destruct b
      | |- keeps_store (match ?o with Some _ => _ | None => _ end) => destruct o
      end ].

Lemma keeps_choice_chr (s : string) : keeps_store (choice_chr s).
Proof. unfold choice_chr, random_choice. keeps. Qed.
#[local] Hint Resolve keeps_choice_chr : keeps.

Lemma keeps_append_choices (n : nat) (all_chars : string) (pw : list ascii) :
  keeps_store (append_choices n all_chars pw).
Proof. revert pw. induction n as [| n IH]; intros pw; simpl; keeps. Qed.

Lemma keeps_shuffle_from {A} (i : nat) (l : list A) : keeps_store (shuffle_from i l).
Proof. revert l. induction i as [| i IH]; intros l; cbn [shuffle_from]; keeps. Qed.
#[local] Hint Resolve keeps_append_choices keeps_shuffle_from : keeps.

Lemma keeps_generate_password : keeps_store generate_password.
Proof. unfold generate_password, random_shuffle. keeps. Qed.

Lemma keeps_get_user_name (fuel : nat) : keeps_store (get_user_name fuel).
Proof.
  induction fuel as [| fuel IH]; simpl.
  - intros w r w' H. inversion H. apply same_store_refl.
  - keeps.
Qed.

Lemma keeps_login_ask_username (n : nat) : keeps_store (login_ask_username n).
Proof. induction n as [| n IH]; simpl; keeps. Qed.

Lemma keeps_register_ask_username (n : nat) : keeps_store (register_ask_username n).
Proof. induction n as [| n IH]; simpl; keeps. Qed.

Lemma keeps_register_ask_password (n : nat) : keeps_store (register_ask_password n).
Proof. induction n as [| n IH]; simpl; keeps. Qed.

#[local] Hint Resolve keeps_generate_password keeps_get_user_name
  keeps_login_ask_username keeps_register_ask_username
  keeps_register_ask_password : keeps.

(** Inversion of the primitive effects. *)

Lemma deref_inv (l : loc) (w w' : world) (a : account) :
  deref l w = (Returned a, w') -> w' = w /\ heap w !! l = Some a.
Proof.
  unfold deref. destruct (heap w !! l); intros H; inversion H. now subst.
Qed.

Lemma assign_inv (l : loc) (a : account) (w w' : world) (r : unit) :
  assign l a w = (Returned r, w') ->
  w' = set_heap (<[l := a]> (heap w)) w /\ (l < length (heap w))%nat.
Proof.
  unfold assign. destruct (heap w !! l) eqn:E; intros H; inversion H.
  split; [reflexivity |]. eapply lookup_lt_Some; exact E.
Qed.

Lemma deref_all_inv (ls : list loc) (w w' : world) (recs : list account) :
  deref_all ls w = (Returned recs, w') ->
  w' = w /\ lookup_all (heap w) ls = Some recs.
Proof.
  revert recs w'. induction ls as [| l rest IH]; intros recs w' H; simpl in *.
  - inversion H. auto.
  - apply bind_inv in H. destruct H as (a & w1 & Ha & H).
    apply deref_inv in Ha. destruct Ha as [-> Ha].
    apply bind_inv in H. destruct H as (r & w2 & Hr & H).
    apply IH in Hr. destruct Hr as [-> Hr].
    inversion H; subst. rewrite Ha, Hr. auto.
Qed.

Lemma deref_all_lookup (ls : list loc) (w : world) (recs : list account) :
  lookup_all (heap w) ls = Some recs -> deref_all ls w = (Returned recs, w).
Proof.
  revert recs. induction ls as [| l rest IH]; intros recs H; simpl in *.
  - inversion H. reflexivity.
  - unfold bind, deref.
    destruct (heap w !! l) as [a |]; [| discriminate].
    destruct (lookup_all (heap w) rest) as [r |]; [| discriminate].
    inversion H; subst. now rewrite (IH r eq_refl).
Qed.

(** When [save_accounts] returns, the file holds the records of the store:
    the handler of its [try] never completes, since the evaluation of its
    [except] tuple raises. *)
Lemma save_accounts_returned (w w' : world) (r : unit) :
  save_accounts w = (Returned r, w') ->
  exists recs,
    stored_records w = Some recs
    /\ disk w' = Some (JsonAccounts recs)
    /\ heap w' = heap w /\ accounts w' = accounts w.
Proof.
  unfold save_accounts, try_except.
  match goal with |- context [match ?b w with _ => _ end] => destruct (b w) as [[a | e |] w1] eqn:E end;
    intros H; [| discriminate H | discriminate H].
  inversion H; subst.
  apply bind_inv in E. destruct E as (accs & w2 & Ha & E).
  inversion Ha; subst.
  apply bind_inv in E. destruct E as (recs & w3 & Hd & E).
  apply deref_all_inv in Hd. destruct Hd as [-> Hd].
  apply bind_inv in E. destruct E as (u & w4 & Hw & E).
  inversion E; subst.
  exists recs. split; [exact Hd |].
  unfold write_file in Hw.
  destruct (disk_faults w2) as [| [[e | e] |] rest]; inversion Hw; subst; simpl; auto.
Qed.

Lemma lookup_snoc (h : list account) (a : account) : (h ++ [a]) !! length h = Some a.
Proof. rewrite lookup_app_r by lia. now rewrite Nat.sub_diag. Qed.

Lemma insert_snoc (h : list account) (a b : account) :
  <[length h := b]> (h ++ [a]) = h ++ [b].
Proof.
  rewrite insert_app_r_alt by lia. now rewrite Nat.sub_diag.
Qed.

Lemma dict_get_set {V} (d : dict V) (k : string) (v : V) :
  dict_get (dict_set d k v) k = Some v.
Proof.
  unfold dict_get. induction d as [| [k' v'] d IH]; simpl.
  - now rewrite String.eqb_refl.
  - destruct (String.eqb k' k) eqn:E; simpl.
    + now rewrite String.eqb_refl.
    + now rewrite E.
Qed.

Lemma dict_get_values {V} (d : dict V) (k : string) (v : V) :
  dict_get d k = Some v -> In v (dict_values d).
Proof.
  unfold dict_get. induction d as [| [k' v'] d IH]; simpl; [discriminate |].
  destruct (String.eqb k' k); intros H.
  - inversion H. now left.
  - right. now apply IH.
Qed.

Lemma lookup_all_In (h : list account) (ls : list loc) (recs : list account)
    (l : loc) (a : account) :
  lookup_all h ls = Some recs -> In l ls -> h !! l = Some a -> In a recs.
Proof.
  revert recs. induction ls as [| l' rest IH]; intros recs H Hin Ha; simpl in *.
  - destruct Hin.
  - destruct (h !! l') as [a' |] eqn:E; [| discriminate].
    destruct (lookup_all h rest) as [r |]; [| discriminate].
    inversion H; subst. destruct Hin as [-> | Hin].
    + left. congruence.
    + right. now apply IH.
Qed.

Lemma registered_same_store (w0 w : world) (g : account) (u : loc) (w' : world)
    (a : account) :
  same_store w0 w -> registered w g u w' a -> registered w0 g u w' a.
Proof.
  intros (Hh & _) [? ? ? ? ? ? ? ? ? ?]. constructor; try assumption.
  now rewrite <- Hh.
Qed.

Tactic Notation "step" hyp(H) "as" ident(a) ident(w) ident(E) :=
  apply bind_inv in H; destruct H as (a & w & E & H).

Lemma set_heap_twice (h1 h2 : list account) (w : world) :
  set_heap h2 (set_heap h1 w) = set_heap h2 w.
Proof. reflexivity. Qed.

(** Two reads followed by a write, in the middle of a computation and at its
    end. *)
Lemma read_read_write {B} (x y z : loc) (G : account -> account -> account)
    (k : Py B) (w w' : world) (r : B) (vx vy : account) :
  (a <- deref x ;; b <- deref y ;; assign z (G a b) ;; k) w = (Returned r, w') ->
  heap w !! x = Some vx -> heap w !! y = Some vy ->
  k (set_heap (<[z := G vx vy]> (heap w)) w) = (Returned r, w')
  /\ (z < length (heap w))%nat.
Proof.
  intros H Hx Hy.
  step H as a w1 E1. apply deref_inv in E1. destruct E1 as [-> E1].
  step H as b w2 E2. apply deref_inv in E2. destruct E2 as [-> E2].
  step H as u w3 E3. apply assign_inv in E3. destruct E3 as [-> E3].
  split; [congruence | exact E3].
Qed.

Lemma read_read_write_end (x y z : loc) (G : account -> account -> account)
    (w w' : world) (r : unit) (vx vy : account) :
  (a <- deref x ;; b <- deref y ;; assign z (G a b)) w = (Returned r, w') ->
  heap w !! x = Some vx -> heap w !! y = Some vy ->
  w' = set_heap (<[z := G vx vy]> (heap w)) w /\ (z < length (heap w))%nat.
Proof.
  intros H Hx Hy.
  step H as a w1 E1. apply deref_inv in E1. destruct E1 as [-> E1].
  step H as b w2 E2. apply deref_inv in E2. destruct E2 as [-> E2].
  apply assign_inv in H. destruct H as [-> H].
  split; [congruence | exact H].
Qed.

Lemma register_finish_spec (un pw : string) (cu : loc) (w w' : world)
    (r : bool * loc) (g : account) :
  register_finish un pw cu w = (Returned r, w') ->
  heap w !! cu = Some g -> is_guest g = true ->
  exists a, r = (true, length (heap w)) /\ username a = un
            /\ registered w g (length (heap w)) w' a.
Proof.
  intros H Hg Hguest. unfold register_finish in H.
  step H as line w1 E1.
  pose proof (keeps_input_stripped _ _ _ _ E1) as (Hh & Ha & _).
  set (nm := if negb (nonempty line) then un else line) in H.
  step H as acc w2 E2.
  unfold create_account, new_account in E2. inversion E2; subst acc w2; clear E2.
  rewrite Hh in H.
  set (h := heap w) in *.
  step H as c w3 E3. apply deref_inv in E3. destruct E3 as [-> Hc]. simpl in Hc.
  assert (Hcu : forall a, (h ++ [a]) !! cu = Some g).
  { intros a. now apply lookup_app_l_Some. }
  assert (c = g) by (rewrite Hcu in Hc; congruence). subst c. rewrite Hguest in H.
  step H as u0 w4 E4.
  eapply read_read_write in E4; [| simpl; apply Hcu | simpl; apply lookup_snoc].
  destruct E4 as [E4 _]. simpl in E4. rewrite insert_snoc in E4.
  eapply read_read_write in E4; [| simpl; apply Hcu | simpl; apply lookup_snoc].
  destruct E4 as [E4 _]. simpl in E4. rewrite insert_snoc in E4.
  eapply read_read_write_end in E4; [| simpl; apply Hcu | simpl; apply lookup_snoc].
  destruct E4 as [-> _]. simpl in H. rewrite insert_snoc in H.
  step H as u1 w5 E5. inversion E5; subst u1 w5; clear E5.
  step H as u2 w6 E6. apply save_accounts_returned in E6.
  destruct E6 as (recs & Hrecs & Hdisk & Hheap & Haccs). simpl in Hheap, Haccs.
  step H as u3 w7 E7. inversion E7; subst u3 w7; clear E7.
  inversion H; subst r w'; clear H.
  eexists. split; [reflexivity |]. split; [shelve |].
  constructor; simpl; rewrite ?Hheap, ?Haccs.
  - apply lookup_snoc.
  - reflexivity.
  - reflexivity.
  - reflexivity.
  - reflexivity.
  - reflexivity.
  - reflexivity.
  - reflexivity.
  - simpl. apply dict_get_set.
  - exists recs. split; [| split]; [| | exact Hdisk].
    + unfold stored_records. simpl. rewrite Hheap, Haccs. exact Hrecs.
    + unfold stored_records in Hrecs. simpl in Hrecs.
      eapply lookup_all_In; [exact Hrecs | | apply lookup_snoc].
      eapply dict_get_values. apply dict_get_set.
  Unshelve. reflexivity.
Qed.

Lemma registration_post_after {A} (cu : loc) (g : account) (m : Py A)
    (k : A -> Py (bool * loc)) :
  keeps_store m ->
  (forall a, registration_post cu g (k a)) ->
  registration_post cu g (bind m k).
Proof.
  intros Hm Hk w w' u H Hg. step H as a w1 E.
  pose proof (Hm _ _ _ E) as Hs.
  destruct (Hk a w1 w' u H) as (acc & Hacc).
  - destruct Hs as (Hh & _). now rewrite Hh.
  - exists acc. eapply registered_same_store; eassumption.
Qed.

Lemma registration_post_finish (un pw : string) (cu : loc) (g : account) :
  is_guest g = true -> registration_post cu g (register_finish un pw cu).
Proof.
  intros Hguest w w' u H Hg.
  destruct (register_finish_spec _ _ _ _ _ _ _ H Hg Hguest) as (a & Hr & _ & Ha).
  inversion Hr; subst u. now exists a.
Qed.

Lemma registration_post_body (h : string -> loc -> Py (bool * loc)) (cu : loc)
    (g : account) :
  is_guest g = true ->
  registration_post cu g (h "registration" cu) ->
  registration_post cu g (register_user_body h cu).
Proof.
  intros Hguest Hh. unfold register_user_body.
  apply registration_post_after; [keeps |]. intros [un |]; [| exact Hh].
  apply registration_post_after; [keeps |]. intros choice.
  destruct (String.eqb choice "2").
  - apply registration_post_after; [keeps |]. intros pw.
    apply registration_post_after; [keeps |]. intros _.
    apply registration_post_after; [keeps |]. intros _.
    now apply registration_post_finish.
  - apply registration_post_after; [keeps |]. intros [pw |]; [| exact Hh].
    now apply registration_post_finish.
Qed.

Lemma registration_post_choice (turns : nat) (retry : Py (bool * loc)) (cu : loc)
    (g : account) :
  registration_post cu g retry ->
  registration_post cu g (handle_choice turns retry cu).
Proof.
  intros Hr. induction turns as [| turns IH]; simpl.
  - intros w w' u H. discriminate H.
  - apply registration_post_after; [keeps |]. intros choice.
    destruct (String.eqb choice "1"); [exact Hr |].
    destruct (String.eqb choice "2").
    + intros w w' u H. discriminate H.
    + apply registration_post_after; [keeps |]. intros _. exact IH.
Qed.

Lemma registration_post_handle (fuel : nat) (cu : loc) (g : account) :
  is_guest g = true ->
  registration_post cu g (handle_max_attempts fuel "registration" cu).
Proof.
  intros Hguest. induction fuel as [| fuel IH]; cbn [handle_max_attempts].
  - intros w w' u H. discriminate H.
  - apply registration_post_after; [keeps |]. intros _.
    apply registration_post_choice.
    change (String.eqb "registration" "login") with false. cbv iota.
    now apply registration_post_body.
Qed.

(** C5.  When [register_user] succeeds for an acting identity that is a
    guest, the new account record has [wins = losses = plays = 0], its session
    counters are the guest's, the record is a new one, it is in the store
    under its username, and the accounts file holds the records of the store,
    the new one among them. *)
Theorem register_user_as_guest (fuel : nat) (current_user : loc) (w w' : world)
    (u : loc) (g : account) :
  register_user fuel current_user w = (Returned (true, u), w') ->
  heap w !! current_user = Some g ->
  is_guest g = true ->
  exists a,
    heap w' !! u = Some a
    /\ wins a = 0 /\ losses a = 0 /\ plays a = 0
    /\ session_wins a = session_wins g
    /\ session_losses a = session_losses g
    /\ session_plays a = session_plays g
    /\ (length (heap w) <= u)%nat
    /\ dict_get (accounts w') (username a) = Some u
    /\ exists recs,
         stored_records w' = Some recs /\ In a recs
         /\ disk w' = Some (JsonAccounts recs).
Proof.
  intros H Hg Hguest.
  destruct (registration_post_body (handle_max_attempts fuel) current_user g Hguest
              (registration_post_handle fuel current_user g Hguest) w w' u H Hg)
    as (a & [? ? ? ? ? ? ? ? ? ?]).
  exists a. repeat split; assumption.
Qed.

Lemma accounts_getitem_inv (k : string) (w w' : world) (l : loc) :
  accounts_getitem k w = (Returned l, w') ->
  w' = w /\ dict_get (accounts w) k = Some l.
Proof.
  unfold accounts_getitem. destruct (dict_get (accounts w) k); intros H;
    inversion H. now subst.
Qed.

Lemma merge_guest_session_spec (un : string) (cu t : loc) (w w' : world)
    (r : unit) (a g : account) :
  merge_guest_session un cu w = (Returned r, w') ->
  dict_get (accounts w) un = Some t ->
  heap w !! t = Some a -> heap w !! cu = Some g ->
  w' = set_heap (<[t := merge_session a g]> (heap w)) w.
Proof.
  intros H Hun Ht Hcu. unfold merge_guest_session in H.
  assert (Hlt : (t < length (heap w))%nat) by (eapply lookup_lt_Some; exact Ht).
  step H as t1 w1 E1. apply accounts_getitem_inv in E1. destruct E1 as [-> E1].
  assert (t1 = t) by congruence. subst t1.
  eapply read_read_write in H; [| exact Ht | exact Hcu]. destruct H as [H _].
  step H as t2 w2 E2. apply accounts_getitem_inv in E2. destruct E2 as [-> E2].
  simpl in E2. assert (t2 = t) by congruence. subst t2.
  destruct (decide (t = cu)) as [-> | Hne].
  - assert (a = g) by congruence. subst a.
    eapply read_read_write in H;
      [| simpl; now apply list_lookup_insert_eq
       | simpl; now apply list_lookup_insert_eq].
    destruct H as [H _]. simpl in H. rewrite list_insert_insert_eq in H.
    step H as t3 w3 E3. apply accounts_getitem_inv in E3. destruct E3 as [-> E3].
    simpl in E3. assert (t3 = cu) by congruence. subst t3.
    eapply read_read_write_end in H;
      [| simpl; now apply list_lookup_insert_eq
       | simpl; now apply list_lookup_insert_eq].
    destruct H as [-> _]. simpl. now rewrite list_insert_insert_eq.
  - eapply read_read_write in H;
      [| simpl; now apply list_lookup_insert_eq
       | simpl; rewrite list_lookup_insert_ne by exact Hne; exact Hcu].
    destruct H as [H _]. simpl in H. rewrite list_insert_insert_eq in H.
    step H as t3 w3 E3. apply accounts_getitem_inv in E3. destruct E3 as [-> E3].
    simpl in E3. assert (t3 = t) by congruence. subst t3.
    eapply read_read_write_end in H;
      [| simpl; now apply list_lookup_insert_eq
       | simpl; rewrite list_lookup_insert_ne by exact Hne; exact Hcu].
    destruct H as [-> _]. simpl. now rewrite list_insert_insert_eq.
Qed.

Lemma logged_in_same_store (w0 w : world) (g : account) (u : loc) (w' : world)
    (un : string) (t : account) :
  same_store w0 w -> logged_in w g u w' un t -> logged_in w0 g u w' un t.
Proof.
  intros (Hh & Ha & Hd & _) [? ? ? ? ? ?].
  constructor; try assumption; congruence.
Qed.

Lemma login_ask_password_spec (n : nat) (un : string) (cu : loc) (g : account)
    (w w' : world) (o : option (bool * loc)) :
  login_ask_password n un cu w = (Returned o, w') ->
  heap w !! cu = Some g -> is_guest g = true ->
  match o with
  | None => same_store w w'
  | Some (b, u) => b = true /\ exists t, logged_in w g u w' un t
  end.
Proof.
  revert w. induction n as [| n IH]; intros w H Hg Hguest; simpl in H.
  - inversion H. apply same_store_refl.
  - step H as pw w1 E1.
    pose proof (keeps_input_stripped _ _ _ _ E1) as Hs1.
    assert (Hg1 : heap w1 !! cu = Some g) by (destruct Hs1 as (-> & _); exact Hg).
    step H as t w2 E2. apply accounts_getitem_inv in E2. destruct E2 as [-> Ht].
    step H as a w3 E3. apply deref_inv in E3. destruct E3 as [-> Ha].
    destruct (String.eqb (password a) pw).
    + step H as c w4 E4. apply deref_inv in E4. destruct E4 as [-> Hc].
      assert (c = g) by congruence. subst c. rewrite Hguest in H.
      step H as u0 w5 E5.
      eapply merge_guest_session_spec in E5; [| exact Ht | exact Ha | exact Hg1].
      subst w5.
      step H as u w6 E6. apply accounts_getitem_inv in E6. destruct E6 as [-> Hu].
      simpl in Hu. assert (u = t) by congruence. subst u.
      step H as rec w7 E7. apply deref_inv in E7. destruct E7 as [-> _].
      step H as u1 w8 E8. inversion E8; subst u1 w8; clear E8.
      inversion H; subst o w'; clear H.
      split; [reflexivity |]. exists a.
      eapply logged_in_same_store; [exact Hs1 |].
      constructor; simpl; try reflexivity; try assumption.
      apply list_lookup_insert_eq. eapply lookup_lt_Some; exact Ha.
    + step H as u1 w4 E4. inversion E4; subst u1 w4; clear E4.
      apply IH in H; [| exact Hg1 | exact Hguest].
      assert (Hs : same_store w (set_stdout (stdout w1 ++ ["Incorrect password. Please try again."]) w1)).
      { eapply same_store_trans; [exact Hs1 | repeat split]. }
      destruct o as [[b u] |].
      * destruct H as (Hb & t' & Hl). split; [exact Hb |]. exists t'.
        eapply logged_in_same_store; eassumption.
      * eapply same_store_trans; eassumption.
Qed.

Lemma login_post_after {A} (cu : loc) (g : account) (m : Py A)
    (k : A -> Py (bool * loc)) :
  keeps_store m ->
  (forall a, login_post cu g (k a)) ->
  login_post cu g (bind m k).
Proof.
  intros Hm Hk w w' u H Hg. step H as a w1 E.
  pose proof (Hm _ _ _ E) as Hs.
  destruct (Hk a w1 w' u H) as (un & t & Hl).
  - destruct Hs as (Hh & _). now rewrite Hh.
  - exists un, t. eapply logged_in_same_store; eassumption.
Qed.

Lemma login_post_body (h : string -> loc -> Py (bool * loc)) (cu : loc)
    (g : account) :
  is_guest g = true ->
  login_post cu g (h "login" cu) ->
  login_post cu g (login_user_body h cu).
Proof.
  intros Hguest Hh. unfold login_user_body.
  apply login_post_after; [keeps |]. intros [un |]; [| exact Hh].
  intros w w' u H Hg. step H as o w1 E.
  pose proof (login_ask_password_spec _ _ _ _ _ _ _ E Hg Hguest) as Hspec.
  destruct o as [[b u'] |].
  - destruct Hspec as (-> & t & Hl). inversion H; subst u' w1.
    now exists un, t.
  - destruct (Hh w1 w' u H) as (un' & t & Hl).
    + destruct Hspec as (-> & _). exact Hg.
    + exists un', t. eapply logged_in_same_store; eassumption.
Qed.

Lemma login_post_choice (turns : nat) (retry : Py (bool * loc)) (cu : loc)
    (g : account) :
  login_post cu g retry -> login_post cu g (handle_choice turns retry cu).
Proof.
  intros Hr. induction turns as [| turns IH]; simpl.
  - intros w w' u H. discriminate H.
  - apply login_post_after; [keeps |]. intros choice.
    destruct (String.eqb choice "1"); [exact Hr |].
    destruct (String.eqb choice "2").
    + intros w w' u H. discriminate H.
    + apply login_post_after; [keeps |]. intros _. exact IH.
Qed.

Lemma login_post_handle (fuel : nat) (cu : loc) (g : account) :
  is_guest g = true ->
  login_post cu g (handle_max_attempts fuel "login" cu).
Proof.
  intros Hguest. induction fuel as [| fuel IH]; cbn [handle_max_attempts].
  - intros w w' u H. discriminate H.
  - apply login_post_after; [keeps |]. intros _.
    apply login_post_choice.
    change (String.eqb "login" "login") with true. cbv iota.
    now apply login_post_body.
Qed.

(** C6.  When [login_user] succeeds for an acting identity that is a guest,
    the returned identity is the record the store holds under the given
    username, and each session counter of that record is its previous value
    plus the guest's counter; its other fields, the other records, the
    dictionary and the file are unchanged. *)
Theorem login_user_as_guest (fuel : nat) (current_user : loc) (w w' : world)
    (u : loc) (g : account) :
  login_user fuel current_user w = (Returned (true, u), w') ->
  heap w !! current_user = Some g ->
  is_guest g = true ->
  exists un t t',
    dict_get (accounts w) un = Some u
    /\ dict_get (accounts w') un = Some u
    /\ heap w !! u = Some t
    /\ heap w' !! u = Some t'
    /\ session_wins t' = session_wins t + session_wins g
    /\ session_losses t' = session_losses t + session_losses g
    /\ session_plays t' = session_plays t + session_plays g
    /\ wins t' = wins t /\ losses t' = losses t /\ plays t' = plays t
    /\ name t' = name t /\ username t' = username t /\ password t' = password t
    /\ heap w' = <[u := t']> (heap w)
    /\ disk w' = disk w.
Proof.
  intros H Hg Hguest.
  destruct (login_post_body (handle_max_attempts fuel) current_user g Hguest
              (login_post_handle fuel current_user g Hguest) w w' u H Hg)
    as (un & t & [? ? ? ? Hacc ?]).
  exists un, t, (merge_session t g). rewrite Hacc.
  repeat split; assumption.
Qed.

Lemma read_write {B} (x : loc) (F : account -> account) (k : Py B)
    (w w' : world) (r : B) (vx : account) :
  (a <- deref x ;; assign x (F a) ;; k) w = (Returned r, w') ->
  heap w !! x = Some vx ->
  k (set_heap (<[x := F vx]> (heap w)) w) = (Returned r, w').
Proof.
  intros H Hx.
  step H as a w1 E1. apply deref_inv in E1. destruct E1 as [-> E1].
  step H as u w2 E2. apply assign_inv in E2. destruct E2 as [-> _].
  congruence.
Qed.

Lemma read_write_end (x : loc) (F : account -> account)
    (w w' : world) (r : unit) (vx : account) :
  (a <- deref x ;; assign x (F a)) w = (Returned r, w') ->
  heap w !! x = Some vx ->
  w' = set_heap (<[x := F vx]> (heap w)) w.
Proof.
  intros H Hx.
  step H as a w1 E1. apply deref_inv in E1. destruct E1 as [-> E1].
  apply assign_inv in H. destruct H as [-> _]. congruence.
Qed.

Lemma add_session_to_totals_spec (acc : loc) (w w' : world) (r : unit) (c : account) :
  add_session_to_totals acc w = (Returned r, w') ->
  heap w !! acc = Some c ->
  w' = set_heap (<[acc := fold_session c]> (heap w)) w.
Proof.
  intros H Hc. unfold add_session_to_totals in H.
  assert (Hlt : (acc < length (heap w))%nat) by (eapply lookup_lt_Some; exact Hc).
  eapply read_write in H; [| exact Hc].
  eapply read_write in H; [| simpl; now apply list_lookup_insert_eq].
  simpl in H. rewrite list_insert_insert_eq in H.
  eapply read_write_end in H; [| simpl; now apply list_lookup_insert_eq].
  subst w'. simpl. now rewrite list_insert_insert_eq.
Qed.

Lemma read_write_runs {B} (x : loc) (F : account -> account) (k : Py B)
    (w : world) (vx : account) :
  heap w !! x = Some vx ->
  (a <- deref x ;; assign x (F a) ;; k) w
  = k (set_heap (<[x := F vx]> (heap w)) w).
Proof.
  intros Hx. unfold bind, deref, assign. rewrite Hx. simpl. rewrite ?Hx. reflexivity.
Qed.

Lemma read_write_end_runs (x : loc) (F : account -> account)
    (w : world) (vx : account) :
  heap w !! x = Some vx ->
  (a <- deref x ;; assign x (F a)) w
  = (Returned tt, set_heap (<[x := F vx]> (heap w)) w).
Proof.
  intros Hx. unfold bind, deref, assign. rewrite Hx. simpl. rewrite ?Hx. reflexivity.
Qed.

Lemma add_session_to_totals_runs (acc : loc) (w : world) (c : account) :
  heap w !! acc = Some c ->
  add_session_to_totals acc w
  = (Returned tt, set_heap (<[acc := fold_session c]> (heap w)) w).
Proof.
  intros Hc.
  assert (Hlt : (acc < length (heap w))%nat) by (eapply lookup_lt_Some; exact Hc).
  unfold add_session_to_totals.
  erewrite read_write_runs by exact Hc.
  erewrite read_write_runs by (simpl; now apply list_lookup_insert_eq).
  erewrite read_write_end_runs
    by (simpl; apply list_lookup_insert_eq; now rewrite length_insert).
  simpl. now rewrite !list_insert_insert_eq.
Qed.

Lemma save_accounts_runs (w : world) (recs : list account) :
  write_succeeds w ->
  stored_records w = Some recs ->
  exists w',
    save_accounts w = (Returned tt, w')
    /\ same_store (set_disk (Some (JsonAccounts recs))
                     (set_disk_faults (tail (disk_faults w)) w)) w'
    /\ stdin w' = stdin w.
Proof.
  intros Hw Hrecs. unfold stored_records in Hrecs.
  unfold save_accounts, try_except, bind at 1, get_accounts.
  unfold bind at 1. rewrite (deref_all_lookup _ _ _ Hrecs).
  unfold bind, write_file, write_succeeds in *.
  destruct (disk_faults w) as [| [f |] rest] eqn:Hf; [| destruct Hw |];
    simpl; eexists; (split; [reflexivity |]); simpl; rewrite ?Hf;
    repeat split; simpl; rewrite ?Hf; reflexivity.
Qed.

Lemma get_user_name_runs (fuel : nat) (w : world) (line : string)
    (rest : list string) :
  stdin w = line :: rest ->
  nonempty (Str.strip line) = true ->
  exists w',
    get_user_name (S fuel) w = (Returned (Str.strip line), w')
    /\ same_store w w'.
Proof.
  intros Hin Hne. simpl. unfold bind, input_stripped, bind, input. simpl.
  rewrite Hin. simpl. rewrite Hne.
  eexists. split; [reflexivity | repeat split].
Qed.

(** [logout_user] does return: for a guest as soon as a name is typed, for a
    registered identity when in addition the write of the file goes through
    and the store refers to existing records. *)
Lemma logout_user_runs (fuel : nat) (current_user : loc) (w : world)
    (c : account) (line : string) (rest : list string) :
  heap w !! current_user = Some c ->
  stdin w = line :: rest ->
  nonempty (Str.strip line) = true ->
  (is_guest c = false ->
   write_succeeds w
   /\ exists recs,
        lookup_all (<[current_user := fold_session c]> (heap w))
                   (dict_values (accounts w)) = Some recs) ->
  exists w', logout_user (S fuel) current_user w = (Returned (length (heap w)), w').
Proof.
  intros Hc Hin Hne Hreg. unfold logout_user.
  unfold bind at 1, deref. rewrite Hc.
  destruct (is_guest c) eqn:Hg; cbn [negb].
  - unfold bind at 1. cbn [ret].
    destruct (get_user_name_runs fuel w line rest Hin Hne) as (w1 & E1 & Hs1).
    unfold bind at 1. rewrite E1.
    unfold create_guest_account, create_account, new_account.
    destruct Hs1 as (-> & _). eexists. reflexivity.
  - destruct (Hreg eq_refl) as (Hw & recs & Hrecs).
    unfold bind at 1. unfold bind at 1.
    rewrite (add_session_to_totals_runs _ _ _ Hc).
    set (w1 := set_heap (<[current_user := fold_session c]> (heap w)) w).
    destruct (save_accounts_runs w1 recs Hw Hrecs) as (w2 & E2 & Hs2 & Hin2).
    unfold bind at 1. rewrite E2.
    destruct Hs2 as (Hh2 & _). cbn [heap set_disk set_disk_faults w1 set_heap] in Hh2.
    unfold bind at 1, deref. rewrite Hh2.
    rewrite list_lookup_insert_eq by (eapply lookup_lt_Some; exact Hc).
    unfold bind at 1, print. unfold bind at 1.
    match goal with
    | |- context [get_user_name (S fuel) ?w3] =>
        destruct (get_user_name_runs fuel w3 line rest) as (w4 & E4 & Hs4);
          [cbn [stdin set_stdout]; rewrite Hin2; exact Hin | exact Hne |]
    end.
    rewrite E4.
    unfold create_guest_account, create_account, new_account.
    destruct Hs4 as (-> & _). cbn [heap set_stdout]. rewrite Hh2, length_insert.
    eexists. reflexivity.
Qed.

Lemma logout_user_returned (fuel : nat) (current_user : loc) (w w' : world)
    (u : loc) (c : account) :
  logout_user fuel current_user w = (Returned u, w') ->
  heap w !! current_user = Some c ->
  logged_out current_user c w u w'.
Proof.
  intros H Hc. unfold logged_out. unfold logout_user in H.
  assert (Hlt : (current_user < length (heap w))%nat)
    by (eapply lookup_lt_Some; exact Hc).
  step H as c0 w1 E1. apply deref_inv in E1. destruct E1 as [-> E1].
  assert (c0 = c) by congruence. subst c0.
  step H as u0 w2 E2.
  step H as nm w3 E3.
  pose proof (keeps_get_user_name _ _ _ _ E3) as (Hh & Ha & Hd & Hf).
  unfold create_guest_account, create_account, new_account in H.
  inversion H; subst u w'; clear H. simpl.
  exists nm. rewrite Hh, Ha, Hd, Hf.
  destruct (is_guest c); simpl in E2.
  - inversion E2; subst w2; clear E2.
    repeat split. apply lookup_snoc.
  - step E2 as u1 w4 E4.
    eapply add_session_to_totals_spec in E4; [| exact Hc]. subst w4.
    step E2 as u2 w5 E5. apply save_accounts_returned in E5.
    destruct E5 as (recs & Hrecs & Hdisk & Hheap & Haccs).
    unfold stored_records in Hrecs. simpl in Hrecs, Hheap, Haccs.
    step E2 as c1 w6 E6. apply deref_inv in E6. destruct E6 as [-> _].
    step E2 as u3 w7 E7. inversion E7; subst u3 w7; clear E7.
    inversion E2; subst w2; clear E2. simpl.
    rewrite Hheap, Haccs, length_insert.
    split; [reflexivity |].
    split; [rewrite <- (length_insert (heap w) current_user (fold_session c));
            apply lookup_snoc |].
    split; [reflexivity |]. split; [reflexivity |].
    split.
    + apply lookup_app_l_Some. now apply list_lookup_insert_eq.
    + exists recs. split; [exact Hrecs | exact Hdisk].
Qed.

(** C7.  When [logout_user] returns for a registered identity [c], the record
    of [c] has [wins], [losses] and [plays] increased by its session counters,
    which keep their values; the accounts file holds the records of the store
    as they are after the fold; and the returned identity is a new guest
    record with all counters at zero.  When it returns for a guest identity,
    no record, no entry of the store and nothing of the file has changed, and
    no write was attempted; the returned identity is a new guest record.
    And [logout_user] does return, once a non-empty name is typed and, for a
    registered identity, the write of the file goes through. *)
Theorem logout_user_spec (fuel : nat) (current_user : loc) (w : world) (c : account) :
  heap w !! current_user = Some c ->
  (forall u w',
     logout_user fuel current_user w = (Returned u, w') ->
     logged_out current_user c w u w')
  /\ (forall line rest,
        stdin w = line :: rest ->
        nonempty (Str.strip line) = true ->
        (is_guest c = false ->
         write_succeeds w
         /\ exists recs,
              lookup_all (<[current_user := fold_session c]> (heap w))
                         (dict_values (accounts w)) = Some recs) ->
        exists w',
          logout_user (S fuel) current_user w = (Returned (length (heap w)), w')).
Proof.
  intros Hc. split.
  - intros u w' H. exact (logout_user_returned fuel current_user w w' u c H Hc).
  - intros line rest Hin Hne Hreg.
    exact (logout_user_runs fuel current_user w c line rest Hc Hin Hne Hreg).
Qed.

Lemma register_user_as_guest_witness :
  register_user 3%nat 0%nat world_register
    = (Returned (true, 1%nat), snd (register_user 3%nat 0%nat world_register))
  /\ heap world_register !! 0%nat = Some guest_bob
  /\ is_guest guest_bob = true
  /\ exists a,
       heap (snd (register_user 3%nat 0%nat world_register)) !! 1%nat = Some a
       /\ wins a = 0 /\ losses a = 0 /\ plays a = 0
       /\ session_wins a = 3
       /\ session_losses a = 1
       /\ session_plays a = 4
       /\ (1 <= 1)%nat
       /\ dict_get (accounts (snd (register_user 3%nat 0%nat world_register))) (username a)
          = Some 1%nat
       /\ exists recs,
            stored_records (snd (register_user 3%nat 0%nat world_register)) = Some recs
            /\ In a recs
            /\ disk (snd (register_user 3%nat 0%nat world_register)) = Some (JsonAccounts recs).
Proof.
  split; [vm_compute; reflexivity |].
  split; [reflexivity |]. split; [reflexivity |].
  apply (register_user_as_guest 3%nat 0%nat world_register
           (snd (register_user 3%nat 0%nat world_register)) 1%nat guest_bob);
    vm_compute; reflexivity.
Defined.

Lemma login_user_as_guest_witness :
  login_user 3%nat 0%nat world_login
    = (Returned (true, 1%nat), snd (login_user 3%nat 0%nat world_login))
  /\ heap world_login !! 0%nat = Some (Account "Bob" "guest" EmptyString 0 0 0 1 1 2)
  /\ is_guest (Account "Bob" "guest" EmptyString 0 0 0 1 1 2) = true
  /\ exists un t t',
       dict_get (accounts world_login) un = Some 1%nat
       /\ dict_get (accounts (snd (login_user 3%nat 0%nat world_login))) un = Some 1%nat
       /\ heap world_login !! 1%nat = Some t
       /\ heap (snd (login_user 3%nat 0%nat world_login)) !! 1%nat = Some t'
       /\ session_wins t' = session_wins t + 1
       /\ session_losses t' = session_losses t + 1
       /\ session_plays t' = session_plays t + 2
       /\ wins t' = wins t /\ losses t' = losses t /\ plays t' = plays t
       /\ name t' = name t /\ username t' = username t /\ password t' = password t
       /\ heap (snd (login_user 3%nat 0%nat world_login)) = <[1%nat := t']> (heap world_login)
       /\ disk (snd (login_user 3%nat 0%nat world_login)) = disk world_login.
Proof.
  split; [vm_compute; reflexivity |].
  split; [reflexivity |]. split; [reflexivity |].
  apply (login_user_as_guest 3%nat 0%nat world_login
           (snd (login_user 3%nat 0%nat world_login)) 1%nat
           (Account "Bob" "guest" EmptyString 0 0 0 1 1 2));
    vm_compute; reflexivity.
Defined.

(** The example of the specification: a guest with [session_plays = 2] logs
    into an account with [session_plays = 5]; the account then has 7. *)
Example login_merge_is_additive :
  session_plays user_ann = 5
  /\ exists t, heap (snd (login_user 3%nat 0%nat world_login)) !! 1%nat = Some t
               /\ session_plays t = 7.
Proof.
  split; [reflexivity |]. eexists. split; vm_compute; reflexivity.
Qed.

Lemma logout_user_spec_witness :
  heap world_logout !! 0%nat = Some user_ann
  /\ logout_user 3%nat 0%nat world_logout
     = (Returned 1%nat, snd (logout_user 3%nat 0%nat world_logout))
  /\ logged_out 0%nat user_ann world_logout 1%nat
       (snd (logout_user 3%nat 0%nat world_logout))
  /\ heap (snd (logout_user 3%nat 0%nat world_logout)) !! 0%nat
     = Some (Account "Ann" "ann" "Pw1!" 12 7 19 2 3 5)
  /\ exists w',
       logout_user 1%nat 0%nat (set_stdin ["Bob"] world_logout)
       = (Returned 1%nat, w').
Proof.
  split; [reflexivity |]. split; [vm_compute; reflexivity |].
  split; [| split].
  - apply (logout_user_spec 3%nat 0%nat world_logout user_ann eq_refl).
    vm_compute. reflexivity.
  - vm_compute. reflexivity.
  - apply (proj2 (logout_user_spec 0%nat 0%nat (set_stdin ["Bob"] world_logout)
                    user_ann eq_refl) "Bob" []).
    + reflexivity.
    + reflexivity.
    + intros _. split; [exact I |]. eexists. vm_compute. reflexivity.
Defined.

(** ** Store-write failures *)

(** Whatever exception the write raises, [save_accounts] does not handle it:
    the tuple of its [except] clause names [json.JSONEncodeError], which the
    [json] module does not have, so the clause itself raises
    [AttributeError]; the handler's report is never printed. *)
Lemma save_accounts_write_failure (w : world) (f : write_fault)
    (rest : list (option write_fault)) (recs : list account) :
  disk_faults w = Some f :: rest ->
  stored_records w = Some recs ->
  exists w',
    save_accounts w = (Raised json_encode_error_missing, w')
    /\ stdout w' = stdout w
    /\ heap w' = heap w /\ accounts w' = accounts w.
Proof.
  intros Hf Hrecs. unfold stored_records in Hrecs.
  unfold save_accounts, try_except, bind at 1, get_accounts.
  unfold bind at 1. rewrite (deref_all_lookup _ _ _ Hrecs).
  unfold bind, write_file. rewrite Hf.
  destruct f as [e | e]; simpl; eexists; repeat split.
Qed.

(** C8, on the failing run.  [save_accounts], called by [register_user] while
    the file cannot be opened, does not catch the error: it raises
    [AttributeError] to its caller and prints no report; the error goes up to
    the catch-all of [main], which ends the program with the rest of the
    input unread and the file without the new account. *)
Theorem write_failure_ends_program :
  (let w := set_disk_faults [Some (OpenFails permission_denied)] world_register in
   fst (save_accounts w) = Raised json_encode_error_missing
   /\ stdout (snd (save_accounts w)) = stdout w
   /\ fst (register_user 3 0%nat w) = Raised json_encode_error_missing)
  /\ (let final := main 20 world_write_failure in
      fst final = Returned tt
      /\ stdin (snd final) = ["1"; "4"]
      /\ Str.mem (nl +:+ "An unexpected error occurred: "
                     +:+ exn_msg json_encode_error_missing)
                 (stdout (snd final)) = true
      /\ Str.mem ("Error saving accounts: " +:+ exn_msg permission_denied)
                 (stdout (snd final)) = false
      /\ dict_mem (accounts (snd final)) "ann" = true
      /\ disk (snd final) = Some (JsonAccounts [])).
Proof.
  split; vm_compute; repeat split.
Qed.

(** C10, on the failing run.  [register_user] accepts the username "guest":
    the record is inserted into the store under "guest" and written to the
    accounts file, and the program goes on treating the acting identity as a
    guest. *)
Theorem registered_guest_is_persisted :
  let final := main 20 world_register_guest in
  fst final = Returned tt
  /\ stdin (snd final) = []
  /\ dict_get (accounts (snd final)) "guest" = Some 1%nat
  /\ heap (snd final) !! 1%nat = Some (account_record "guest" "guest" "Abcdef1!")
  /\ disk (snd final)
     = Some (JsonAccounts [account_record "guest" "guest" "Abcdef1!"]).
Proof.
  vm_compute. repeat split.
Qed.

(** * Further properties *)

(** ** The session *)

Lemma make_guess_bookkeeping (gs : game_session) (g : string) :
  bookkeeping gs -> bookkeeping (snd (make_guess gs g)).
Proof.
  intros [Hnd Hsp Hco Hwr Hup]. unfold make_guess.
  destruct (Str.mem (Str.upper g) (guessed_letters gs)) eqn:Hm; simpl.
  { now constructor. }
  assert (Hnew : ~ In (Str.upper g) (guessed_letters gs)).
  { intros Hin. apply mem_In in Hin. congruence. }
  assert (Hnd' : List.NoDup (guessed_letters gs ++ [Str.upper g])).
  { eapply Permutation_NoDup; [apply Permutation_cons_append |].
    now constructor. }
  assert (Hup' : List.Forall (fun l => Str.upper l = l)
                   (guessed_letters gs ++ [Str.upper g])).
  { apply List.Forall_app. split; [exact Hup |].
    constructor; [apply upper_idem | constructor]. }
  destruct (Str.contains (word gs) (Str.upper g)) eqn:Hc; simpl.
  - assert (Hsp' : Permutation (guessed_letters gs ++ [Str.upper g])
                     ((correct_guesses gs ++ [Str.upper g]) ++ wrong_guesses gs)).
    { rewrite <- Permutation_cons_append, Hsp.
      rewrite <- app_assoc. simpl. apply Permutation_middle. }
    assert (Hco' : List.Forall (fun l => Str.contains (word gs) l = true)
                     (correct_guesses gs ++ [Str.upper g])).
    { apply List.Forall_app. split; [exact Hco |]. constructor; [exact Hc | constructor]. }
    destruct (all_chars_in _ _); constructor; simpl; assumption.
  - assert (Hsp' : Permutation (guessed_letters gs ++ [Str.upper g])
                     (correct_guesses gs ++ wrong_guesses gs ++ [Str.upper g])).
    { rewrite app_assoc, <- !Permutation_cons_append. now constructor. }
    assert (Hwr' : List.Forall (fun l => Str.contains (word gs) l = false)
                     (wrong_guesses gs ++ [Str.upper g])).
    { apply List.Forall_app. split; [exact Hwr |]. constructor; [exact Hc | constructor]. }
    destruct (lives gs - 1 <=? 0); constructor; simpl; assumption.
Qed.

(** Whatever is guessed, and in whatever state: no letter is recorded twice;
    the guessed letters are the correct ones together with the wrong ones;
    every correct guess occurs in the word and no wrong guess does; and every
    recorded guess is in its uppercase form. *)
Theorem guess_all_bookkeeping (W : string) (guesses : list string) :
  bookkeeping (guess_all (create_game_session W) guesses).
Proof.
  unfold guess_all.
  assert (H : bookkeeping (create_game_session W)).
  { constructor; simpl; constructor. }
  revert H. generalize (create_game_session W).
  induction guesses as [| g rest IH]; intros gs H; simpl.
  - exact H.
  - apply IH. now apply make_guess_bookkeeping.
Qed.

(** [make_guess] changes the session exactly when the letter is new, in which
    case the letter, in uppercase, is appended to the guessed letters; the
    case of the letter does not matter; and guessing the same letter again
    changes nothing and returns [False]. *)
Theorem make_guess_new_letter (gs : game_session) (letter : string) :
  (snd (make_guess gs letter) = gs <-> is_letter_already_guessed gs letter = true)
  /\ (is_letter_already_guessed gs letter = false ->
      guessed_letters (snd (make_guess gs letter))
      = guessed_letters gs ++ [Str.upper letter])
  /\ make_guess gs (Str.upper letter) = make_guess gs letter
  /\ make_guess (snd (make_guess gs letter)) letter = (false, snd (make_guess gs letter)).
Proof.
  assert (Hgrow : is_letter_already_guessed gs letter = false ->
                  guessed_letters (snd (make_guess gs letter))
                  = guessed_letters gs ++ [Str.upper letter]).
  { unfold is_letter_already_guessed, make_guess. intros ->.
    repeat match goal with |- context [if ?b then _ else _] => destruct b end;
      reflexivity. }
  split; [| split; [exact Hgrow | split]].
  - unfold is_letter_already_guessed. split.
    + intros Heq.
      destruct (Str.mem (Str.upper letter) (guessed_letters gs)) eqn:Hm;
        [reflexivity |].
      specialize (Hgrow Hm). rewrite Heq in Hgrow.
      apply (f_equal (@length string)) in Hgrow.
      rewrite length_app in Hgrow. simpl in Hgrow. lia.
    + intros Hm. unfold make_guess. now rewrite Hm.
  - unfold make_guess. now rewrite upper_idem.
  - assert (Hin : Str.mem (Str.upper letter)
                    (guessed_letters (snd (make_guess gs letter))) = true).
    { destruct (is_letter_already_guessed gs letter) eqn:Hm.
      - unfold is_letter_already_guessed in Hm. unfold make_guess.
        now rewrite Hm.
      - rewrite (Hgrow eq_refl), mem_app. simpl.
        rewrite String.eqb_refl. apply orb_true_iff. right. reflexivity. }
    unfold make_guess at 1. now rewrite Hin.
Qed.

Lemma make_guess_new_letter_witness :
  is_letter_already_guessed (create_game_session "cat") "a" = false
  /\ guessed_letters (snd (make_guess (create_game_session "cat") "a")) = [] ++ ["A"].
Proof.
  split; [reflexivity |].
  apply (make_guess_new_letter (create_game_session "cat") "a"). reflexivity.
Defined.

Lemma make_guess_monotone (gs : game_session) (g : string) :
  (is_complete gs = true -> is_complete (snd (make_guess gs g)) = true)
  /\ lives gs - 1 <= lives (snd (make_guess gs g)) <= lives gs
  /\ exists added, guessed_letters (snd (make_guess gs g)) = guessed_letters gs ++ added.
Proof.
  unfold make_guess.
  repeat match goal with |- context [if ?b then _ else _] => destruct b end;
    simpl; (split; [auto | split; [lia |]]).
  - exists (@nil string). now rewrite app_nil_r.
  - eexists; reflexivity.
  - eexists; reflexivity.
  - eexists; reflexivity.
  - eexists; reflexivity.
Qed.

(** [make_guess] has no way back, guarded or not: a complete session stays
    complete, the lives never go up (and go down by at most one per guess),
    the word stays the same and earlier guesses stay recorded, in order. *)
Theorem guess_all_monotone (gs : game_session) (guesses : list string) :
  (is_complete gs = true -> is_complete (guess_all gs guesses) = true)
  /\ lives gs - Z.of_nat (length guesses) <= lives (guess_all gs guesses) <= lives gs
  /\ word (guess_all gs guesses) = word gs
  /\ exists added,
       guessed_letters (guess_all gs guesses) = guessed_letters gs ++ added.
Proof.
  unfold guess_all. revert gs.
  induction guesses as [| g rest IH]; intros gs; simpl.
  - split; [auto |]. split; [lia |]. split; [reflexivity |].
    exists (@nil string). now rewrite app_nil_r.
  - destruct (IH (snd (make_guess gs g))) as (Hc & Hl & Hw & added & Hg).
    destruct (make_guess_monotone gs g) as (Hc1 & Hl1 & added1 & Hg1).
    split; [auto |]. split; [lia |]. split.
    + rewrite Hw. apply make_guess_word.
    + exists (added1 ++ added). rewrite Hg, Hg1. now rewrite app_assoc.
Qed.

Lemma guess_all_monotone_witness :
  is_complete (guess_all (create_game_session "a") ["a"]) = true
  /\ is_complete
       (guess_all (guess_all (create_game_session "a") ["a"]) ["b"; "c"]) = true.
Proof.
  split; [reflexivity |].
  apply (guess_all_monotone (guess_all (create_game_session "a") ["a"]) ["b"; "c"]).
  reflexivity.
Defined.

(** The invariant of guarded play that decides the end of the game. *)
Lemma make_guess_won_covered (gs : game_session) (g : string) :
  is_complete gs = false ->
  ~ word_covered gs -> is_won gs = false ->
  let gs' := snd (make_guess gs g) in
  (is_won gs' = true <-> word_covered gs')
  /\ (is_complete gs' = false -> ~ word_covered gs' /\ is_won gs' = false).
Proof.
  intros Hact Hnc Hnw. unfold make_guess.
  destruct (Str.mem (Str.upper g) (guessed_letters gs)); simpl.
  { rewrite Hnw. split; [split; [discriminate | tauto] | auto]. }
  destruct (Str.contains (word gs) (Str.upper g)); simpl.
  - destruct (all_chars_in (word gs) (correct_guesses gs ++ [Str.upper g])) eqn:Hall;
      simpl.
    + split; [| discriminate]. split; [intros _ | reflexivity].
      unfold word_covered; simpl. now apply all_chars_in_covered.
    + assert (Hn : ~ word_covered
                       {| word := word gs;
                          guessed_letters := guessed_letters gs ++ [Str.upper g];
                          correct_guesses := correct_guesses gs ++ [Str.upper g];
                          wrong_guesses := wrong_guesses gs;
                          lives := lives gs;
                          is_complete := is_complete gs;
                          is_won := is_won gs |}).
      { unfold word_covered; simpl. intros Hcov.
        apply all_chars_in_covered in Hcov. congruence. }
      rewrite Hnw. split; [split; [discriminate | tauto] | auto].
  - destruct (lives gs - 1 <=? 0); simpl.
    + split; [| discriminate]. split; [discriminate |]. intros Hcov.
      exfalso. apply Hnc. exact Hcov.
    + rewrite Hnw. split; [split; [discriminate |] | auto].
      intros Hcov. exfalso. apply Hnc. exact Hcov.
Qed.

Lemma guess_while_active_won_covered (gs : game_session) (guesses : list string) :
  (is_won gs = true <-> word_covered gs) ->
  (is_complete gs = false -> ~ word_covered gs /\ is_won gs = false) ->
  is_won (guess_while_active gs guesses) = true
  <-> word_covered (guess_while_active gs guesses).
Proof.
  revert gs. induction guesses as [| g rest IH]; intros gs Hw Ha; simpl.
  - exact Hw.
  - destruct (is_complete gs) eqn:E; [exact Hw |].
    destruct (Ha eq_refl) as [Hnc Hnw].
    destruct (make_guess_won_covered gs g E Hnc Hnw) as [H1 H2].
    now apply IH.
Qed.

(** In a round played the way [play_game] plays it, on a non-empty word: the
    game is won exactly when every letter of the word has been guessed, and
    a game that is over and not won has no life left and exactly six wrong
    guesses. *)
Theorem game_end (W : string) (guesses : list string) :
  W <> EmptyString ->
  let gs := guess_while_active (create_game_session W) guesses in
  (is_won gs = true <-> word_covered gs)
  /\ (is_complete gs = true -> is_won gs = false ->
      lives gs = 0 /\ length (wrong_guesses gs) = 6%nat).
Proof.
  intros Hne gs.
  pose proof (create_game_session_invariant W Hne) as Hinit.
  pose proof (guess_while_active_invariant _ guesses Hinit) as [Hl Hc Hw Hf].
  fold gs in Hl, Hc, Hw, Hf.
  assert (Hnc : ~ word_covered (create_game_session W)).
  { intros Hcov. destruct Hinit as [_ Hc0 _ _].
    assert (is_complete (create_game_session W) = true) by (apply Hc0; now right).
    discriminate. }
  split.
  - apply guess_while_active_won_covered.
    + simpl. split; [discriminate | intros; exfalso; auto].
    + intros _. split; [exact Hnc | reflexivity].
  - intros Hcomp Hlost.
    assert (Hz : lives gs = 0).
    { specialize (Hf Hcomp).
      destruct (Z_gt_le_dec (lives gs) 0) as [Hpos | Hle]; [| lia].
      assert (is_won gs = true) by (apply Hw; split; assumption). congruence. }
    split; [exact Hz | lia].
Qed.

Lemma game_end_witness :
  "cat" <> EmptyString
  /\ (let gs := guess_while_active (create_game_session "cat")
                  ["x"; "y"; "z"; "q"; "w"; "e"] in
      (is_won gs = true <-> word_covered gs)
      /\ (is_complete gs = true -> is_won gs = false ->
          lives gs = 0 /\ length (wrong_guesses gs) = 6%nat)).
Proof.
  split; [discriminate |].
  apply (game_end "cat" ["x"; "y"; "z"; "q"; "w"; "e"]). discriminate.
Defined.

(** ** The display of the session *)

Lemma chars_app (s1 s2 : string) :
  Str.chars (s1 +:+ s2) = Str.chars s1 ++ Str.chars s2.
Proof.
  induction s1 as [| c s1 IH]; simpl; [reflexivity | now rewrite IH].
Qed.

Section Mask.

Variable shown : ascii -> bool.

Let cell (c : ascii) : string :=
  if shown c then String c EmptyString else "_".

Lemma cell_length (c : ascii) : String.length (cell c) = 1%nat.
Proof. unfold cell. now destruct (shown c). Qed.

Lemma mask_length (cs : list ascii) :
  String.length (String.concat " " (map cell cs)) = (2 * length cs - 1)%nat.
Proof.
  induction cs as [| c [| c' cs] IH].
  - reflexivity.
  - simpl. apply cell_length.
  - change (String.concat " " (map cell (c :: c' :: cs)))
      with (cell c +:+ " " +:+ String.concat " " (map cell (c' :: cs))).
    rewrite <- chars_length, !chars_app, !length_app, !chars_length.
    rewrite cell_length, IH. simpl. lia.
Qed.

Lemma mask_get (cs : list ascii) (i : nat) (c : ascii) :
  nth_error cs i = Some c ->
  String.get (2 * i) (String.concat " " (map cell cs))
  = Some (if shown c then c else "_"%char).
Proof.
  revert i. induction cs as [| c0 [| c1 cs] IH]; intros i H.
  - destruct i; discriminate.
  - destruct i as [| [| i]]; try discriminate.
    inversion H; subst. simpl. unfold cell. now destruct (shown c).
  - change (String.concat " " (map cell (c0 :: c1 :: cs)))
      with (cell c0 +:+ " " +:+ String.concat " " (map cell (c1 :: cs))).
    destruct i as [| i].
    + inversion H; subst. unfold cell. now destruct (shown c).
    + replace (2 * S i)%nat with (S (S (2 * i))) by lia.
      simpl in H. specialize (IH i H).
      unfold cell at 1. destruct (shown c0); simpl; exact IH.
Qed.

Lemma mask_placeholder (cs : list ascii) :
  ~ In "_"%char cs ->
  In "_"%char (Str.chars (String.concat " " (map cell cs)))
  <-> exists c, In c cs /\ shown c = false.
Proof.
  intros Hno. induction cs as [| c0 [| c1 cs] IH].
  - simpl. split; [tauto | intros (c & [] & _)].
  - simpl. unfold cell. destruct (shown c0) eqn:E; simpl.
    + split.
      * intros [-> | []]. exfalso. apply Hno. now left.
      * intros (c & [<- | []] & Hc). congruence.
    + split; [intros _; exists c0; auto | auto].
  - change (String.concat " " (map cell (c0 :: c1 :: cs)))
      with (cell c0 +:+ " " +:+ String.concat " " (map cell (c1 :: cs))).
    rewrite !chars_app, !in_app_iff.
    assert (Hno' : ~ In "_"%char (c1 :: cs)) by (intros H; apply Hno; now right).
    specialize (IH Hno'). rewrite IH. unfold cell at 1.
    split.
    + intros [H | [H | (c & Hc & Hs)]].
      * destruct (shown c0) eqn:E; simpl in H.
        -- destruct H as [-> | []]. exfalso. apply Hno. now left.
        -- exists c0. split; [now left | exact E].
      * simpl in H. destruct H as [H | []]. discriminate H.
      * exists c. split; [now right | exact Hs].
    + intros (c & [<- | Hc] & Hs).
      * left. rewrite Hs. simpl. now left.
      * right. right. exists c. split; assumption.
Qed.

End Mask.

Lemma forallb_false_exists {A} (f : A -> bool) (l : list A) :
  forallb f l = false -> exists x, In x l /\ f x = false.
Proof.
  induction l as [| a l IH]; simpl; [discriminate |].
  destruct (f a) eqn:E; simpl.
  - intros H. destruct (IH H) as (x & Hx & Hf). exists x. auto.
  - intros _. exists a. auto.
Qed.

(** [get_display_word] shows the word letter by letter with one space in
    between: position [2 * i] holds letter [i] of the word when that letter
    has been guessed correctly and an underscore otherwise, and the whole
    has [2 * len(word) - 1] characters.  For a word without underscores, an
    underscore is left in the display exactly as long as some letter of the
    word is still to be guessed. *)
Theorem get_display_word_spec (gs : game_session) :
  String.length (get_display_word gs) = (2 * String.length (word gs) - 1)%nat
  /\ (forall i c,
        String.get i (word gs) = Some c ->
        String.get (2 * i) (get_display_word gs)
        = Some (if Str.mem (String c EmptyString) (correct_guesses gs)
                then c else "_"%char))
  /\ (~ In "_"%char (Str.chars (word gs)) ->
      (In "_"%char (Str.chars (get_display_word gs)) <-> ~ word_covered gs)).
Proof.
  unfold get_display_word. split; [| split].
  - rewrite mask_length. now rewrite chars_length.
  - intros i c H.
    apply (mask_get (fun c => Str.mem (String c EmptyString) (correct_guesses gs))).
    revert i H. unfold Str.chars.
    induction (word gs) as [| a s IH]; intros i H; [destruct i; discriminate |].
    destruct i as [| i]; simpl in *; [exact H | now apply IH].
  - intros Hno.
    rewrite (mask_placeholder
               (fun c => Str.mem (String c EmptyString) (correct_guesses gs)) _ Hno).
    unfold word_covered. split.
    + intros (c & Hc & Hs) Hcov. apply Hcov in Hc. apply mem_In in Hc. congruence.
    + intros Hn.
      destruct (all_chars_in (word gs) (correct_guesses gs)) eqn:Hall.
      * exfalso. apply Hn. now apply all_chars_in_covered.
      * unfold all_chars_in in Hall.
        apply forallb_false_exists in Hall. exact Hall.
Qed.

Lemma get_display_word_spec_witness :
  let gs := guess_all (create_game_session "cat") ["a"] in
  ~ In "_"%char (Str.chars (word gs))
  /\ (In "_"%char (Str.chars (get_display_word gs)) <-> ~ word_covered gs)
  /\ get_display_word gs = "_ A _".
Proof.
  split; [| split].
  - vm_compute. intuition discriminate.
  - apply (get_display_word_spec (guess_all (create_game_session "cat") ["a"])).
    vm_compute. intuition discriminate.
  - reflexivity.
Defined.

Lemma make_guess_lives_floor (gs : game_session) (g : string) :
  is_complete gs = false ->
  0 <= lives gs /\ (is_complete gs = false -> 0 < lives gs) ->
  0 <= lives (snd (make_guess gs g))
  /\ (is_complete (snd (make_guess gs g)) = false -> 0 < lives (snd (make_guess gs g))).
Proof.
  intros Hact [H0 H1]. specialize (H1 Hact). unfold make_guess.
  destruct (Str.mem _ _); simpl; [auto |].
  destruct (Str.contains _ _); simpl.
  - destruct (all_chars_in _ _); simpl; split; auto; lia.
  - destruct (lives gs - 1 <=? 0) eqn:E; simpl.
    + split; [lia | discriminate].
    + apply Z.leb_gt in E. split; [lia | auto].
Qed.

(** In a round played the way [play_game] plays it, whatever the word, the
    picture index [6 - lives] stays within the seven pictures, so the lookup
    never fails, and the picture shown is the one numbered by the count of
    wrong guesses.  Without the guard of the loop a seventh wrong guess puts
    the index out of range. *)
Theorem current_stage_in_range (W : string) (guesses : list string) :
  (let gs := guess_while_active (create_game_session W) guesses in
   (length (wrong_guesses gs) <= 6)%nat
   /\ current_stage gs = nth_error get_hangman_stages (length (wrong_guesses gs))
   /\ is_Some (current_stage gs))
  /\ current_stage
       (guess_all (create_game_session "A") ["B"; "C"; "D"; "E"; "F"; "G"; "H"])
     = None.
Proof.
  split; [| reflexivity].
  assert (H : forall gs,
             lives gs = 6 - Z.of_nat (length (wrong_guesses gs)) ->
             0 <= lives gs /\ (is_complete gs = false -> 0 < lives gs) ->
             let gs' := guess_while_active gs guesses in
             lives gs' = 6 - Z.of_nat (length (wrong_guesses gs')) /\ 0 <= lives gs').
  { induction guesses as [| g rest IH]; intros gs Hl Hf; simpl.
    - tauto.
    - destruct (is_complete gs) eqn:E; [tauto |].
      apply IH; [now apply make_guess_lives |].
      apply make_guess_lives_floor;
        [exact E | split; [tauto | intros _; now apply Hf]]. }
  destruct (H (create_game_session W)) as [Hl H0]; [reflexivity | simpl; lia |].
  cbv zeta.
  set (gs := guess_while_active (create_game_session W) guesses) in *.
  assert (Hn : (length (wrong_guesses gs) <= 6)%nat) by lia.
  split; [exact Hn |].
  assert (Hs : current_stage gs
               = nth_error get_hangman_stages (length (wrong_guesses gs))).
  { unfold current_stage, list_getitem. rewrite Hl.
    replace (6 - (6 - Z.of_nat (length (wrong_guesses gs))))
      with (Z.of_nat (length (wrong_guesses gs))) by lia.
    destruct (0 <=? Z.of_nat (length (wrong_guesses gs))) eqn:E;
      [now rewrite Nat2Z.id | apply Z.leb_gt in E; lia]. }
  split; [exact Hs |]. rewrite Hs.
  destruct (nth_error get_hangman_stages (length (wrong_guesses gs))) eqn:E;
    [eauto |].
  apply nth_error_None in E. simpl in E. lia.
Qed.

(** ** Console input *)

Lemma input_stripped_inv (prompt : string) (w w' : world) (s : string) :
  input_stripped prompt w = (Returned s, w') ->
  exists line, stdin w = line :: stdin w' /\ s = Str.strip line /\ same_store w w'.
Proof.
  intros H. pose proof (keeps_input_stripped _ _ _ _ H) as Hs.
  unfold input_stripped, bind, input in H. simpl in H.
  destruct (stdin w) as [| line rest] eqn:E; [discriminate |].
  inversion H; subst. exists line. simpl. auto.
Qed.

Lemma input_inv (prompt : string) (w w' : world) (line : string) :
  input prompt w = (Returned line, w') ->
  stdin w = line :: stdin w' /\ same_store w w'.
Proof.
  unfold input. simpl. destruct (stdin w) as [| l rest] eqn:E; [discriminate |].
  intros H. inversion H; subst. simpl. repeat split.
Qed.

(** The loop of [get_letter_guess] hands back the first line that it takes. *)
Lemma get_letter_guess_with_inv (strip upper : string -> string)
    (isalpha : string -> bool) (len : string -> nat)
    (fuel : nat) (w w' : world) (g : string) :
  get_letter_guess_with strip upper isalpha len fuel w = (Returned g, w') ->
  exists skipped line,
    stdin w = skipped ++ line :: stdin w'
    /\ g = upper (strip line)
    /\ taken strip upper isalpha len line = true
    /\ List.Forall (fun l => taken strip upper isalpha len l = false) skipped
    /\ same_store w w'.
Proof.
  revert w. induction fuel as [| fuel IH]; intros w H; simpl in H; [discriminate |].
  step H as line w1 E1. apply input_inv in E1. destruct E1 as (Hin & Hs1).
  fold (taken strip upper isalpha len line) in H.
  destruct (taken strip upper isalpha len line) eqn:Hok.
  - inversion H; subst. exists [], line. simpl.
    split; [exact Hin |]. split; [reflexivity |]. split; [exact Hok |].
    split; [constructor | exact Hs1].
  - step H as u w2 E2. inversion E2; subst u w2; clear E2.
    apply IH in H. destruct H as (skipped & l & Hl & Hg & Hlok & Hsk & Hs).
    simpl in Hl.
    exists (line :: skipped), l. simpl.
    split; [rewrite Hin, Hl; reflexivity |]. split; [exact Hg |].
    split; [exact Hlok |]. split; [now constructor |].
    eapply same_store_trans; [exact Hs1 |].
    eapply same_store_trans; [| exact Hs]. repeat split.
Qed.

(** The embedded [get_letter_guess] is the loop taken with the string
    methods of the model. *)
Lemma get_letter_guess_with_model (fuel : nat) (w : world) :
  get_letter_guess fuel w
  = get_letter_guess_with Str.strip Str.upper Str.isalpha String.length fuel w.
Proof.
  revert w. induction fuel as [| fuel IH]; intros w; [reflexivity |].
  cbn [get_letter_guess get_letter_guess_with].
  unfold input_stripped, bind, ret.
  destruct (input (nl +:+ "Enter a letter: ") w) as [[line | e |] w1];
    try reflexivity.
  destruct ((String.length (Str.upper (Str.strip line)) =? 1)%nat
            && Str.isalpha (Str.upper (Str.strip line))); [reflexivity |].
  destruct (print "Please enter a single letter." w1) as [[u | e |] w2];
    try reflexivity.
  apply IH.
Qed.

(** Whatever is typed, and whatever [str.strip], [str.upper], [str.isalpha]
    and [len] do, when [get_letter_guess] returns it hands back the
    stripped, uppercased form of the first line typed whose form has length
    one and passes [isalpha]; the lines before it are used up, the lines
    after it are left, and nothing of the accounts is touched.  The function
    of the model is this loop with the string methods of the model. *)
Theorem get_letter_guess_valid (strip upper : string -> string)
    (isalpha : string -> bool) (len : string -> nat)
    (fuel : nat) (w w' : world) (g : string) :
  (get_letter_guess_with strip upper isalpha len fuel w = (Returned g, w') ->
   exists skipped line,
     stdin w = skipped ++ line :: stdin w'
     /\ g = upper (strip line)
     /\ len g = 1%nat /\ isalpha g = true
     /\ List.Forall (fun l => taken strip upper isalpha len l = false) skipped
     /\ same_store w w')
  /\ get_letter_guess fuel w
     = get_letter_guess_with Str.strip Str.upper Str.isalpha String.length fuel w.
Proof.
  split; [| apply get_letter_guess_with_model].
  intros H. apply get_letter_guess_with_inv in H.
  destruct H as (skipped & line & Hin & Hg & Hok & Hsk & Hs).
  exists skipped, line. split; [exact Hin |]. split; [exact Hg |].
  unfold taken in Hok. apply andb_true_iff in Hok. destruct Hok as [Hlen Halpha].
  apply Nat.eqb_eq in Hlen. subst g.
  split; [exact Hlen |]. split; [exact Halpha |]. split; [exact Hsk | exact Hs].
Qed.

Lemma get_letter_guess_valid_witness :
  get_letter_guess_with Str.strip Str.upper Str.isalpha String.length 3
    (set_stdin ["12"; " q "; "z"] world_register)
  = (Returned "Q", set_stdout [nl +:+ "Enter a letter: "; "Please enter a single letter.";
                               nl +:+ "Enter a letter: "]
                     (set_stdin ["z"] world_register))
  /\ exists skipped line,
       ["12"; " q "; "z"] = skipped ++ line :: ["z"]
       /\ "Q" = Str.upper (Str.strip line).
Proof.
  split; [vm_compute; reflexivity |].
  destruct (proj1 (get_letter_guess_valid Str.strip Str.upper Str.isalpha String.length 3
              (set_stdin ["12"; " q "; "z"] world_register)
              (set_stdout [nl +:+ "Enter a letter: "; "Please enter a single letter.";
                           nl +:+ "Enter a letter: "]
                 (set_stdin ["z"] world_register)) "Q"))
    as (skipped & line & Hin & Hg & _).
  { vm_compute. reflexivity. }
  exists skipped, line. split; [exact Hin | exact Hg].
Defined.

(** [get_menu_choice] hands back only "1", "2", "3" or "4", and
    [get_user_name] only a non-empty name, each the stripped form of a line
    that was typed; neither touches the accounts. *)
Theorem menu_and_name_valid (fuel : nat) (w w' : world) (s : string) :
  (get_menu_choice fuel w = (Returned s, w') ->
   In s ["1"; "2"; "3"; "4"]
   /\ (exists line, In line (stdin w) /\ s = Str.strip line)
   /\ same_store w w')
  /\ (get_user_name fuel w = (Returned s, w') ->
      s <> EmptyString
      /\ (exists line, In line (stdin w) /\ s = Str.strip line)
      /\ same_store w w').
Proof.
  split.
  - revert w. induction fuel as [| fuel IH]; intros w H;
      [simpl in H; discriminate |]. cbn [get_menu_choice get_user_name] in H.
    step H as c w1 E1. apply input_stripped_inv in E1.
    destruct E1 as (line & Hin & -> & Hs1).
    destruct (Str.mem (Str.strip line) ["1"; "2"; "3"; "4"]) eqn:Hok.
    + inversion H; subst. split; [now apply mem_In |].
      split; [| exact Hs1]. exists line. split; [rewrite Hin; now left | reflexivity].
    + step H as u w2 E2. inversion E2; subst u w2; clear E2.
      apply IH in H. destruct H as (Hc & (l & Hl & Hg) & Hs).
      split; [exact Hc |]. split.
      * exists l. split; [rewrite Hin; right; exact Hl | exact Hg].
      * eapply same_store_trans; [exact Hs1 |].
        eapply same_store_trans; [| exact Hs]. repeat split.
  - revert w. induction fuel as [| fuel IH]; intros w H;
      [simpl in H; discriminate |]. cbn [get_menu_choice get_user_name] in H.
    step H as c w1 E1. apply input_stripped_inv in E1.
    destruct E1 as (line & Hin & -> & Hs1).
    destruct (nonempty (Str.strip line)) eqn:Hok.
    + inversion H; subst. split; [intros E; rewrite E in Hok; discriminate |].
      split; [| exact Hs1]. exists line. split; [rewrite Hin; now left | reflexivity].
    + step H as u w2 E2. inversion E2; subst u w2; clear E2.
      apply IH in H. destruct H as (Hc & (l & Hl & Hg) & Hs).
      split; [exact Hc |]. split.
      * exists l. split; [rewrite Hin; right; exact Hl | exact Hg].
      * eapply same_store_trans; [exact Hs1 |].
        eapply same_store_trans; [| exact Hs]. repeat split.
Qed.

Lemma menu_and_name_valid_witness :
  get_menu_choice 3 (set_stdin ["9"; " 2 "] world_register)
  = (Returned "2", snd (get_menu_choice 3 (set_stdin ["9"; " 2 "] world_register)))
  /\ In "2" ["1"; "2"; "3"; "4"].
Proof.
  split; [vm_compute; reflexivity |].
  apply (proj1 (menu_and_name_valid 3 (set_stdin ["9"; " 2 "] world_register)
                  (snd (get_menu_choice 3 (set_stdin ["9"; " 2 "] world_register)))
                  "2")).
  vm_compute. reflexivity.
Defined.

(** ** A round of the game *)

Lemma keeps_raise {A} (e : exn) : keeps_store (@raise A e).
Proof. intros w r w' H. inversion H. apply same_store_refl. Qed.

Lemma keeps_dispatch {A} (e : exn) (clauses : list (list class_expr * (exn -> Py A))) :
  List.Forall (fun cl => forall e', keeps_store (snd cl e')) clauses ->
  keeps_store (dispatch e clauses).
Proof.
  induction 1 as [| [ces h] rest Hh _ IH]; simpl.
  - apply keeps_raise.
  - destruct (eval_class_tuple ces) as [e' | cs]; [apply keeps_raise |].
    destruct (exn_matches e cs) as [e' | []];
      [apply keeps_raise | apply Hh | exact IH].
Qed.

Lemma keeps_try_except {A} (body : Py A)
    (clauses : list (list class_expr * (exn -> Py A))) :
  keeps_store body ->
  List.Forall (fun cl => forall e', keeps_store (snd cl e')) clauses ->
  keeps_store (try_except body clauses).
Proof.
  intros Hb Hc w r w' H. unfold try_except in H.
  destruct (body w) as [[a | e |] w1] eqn:E.
  - inversion H; subst. eapply Hb; exact E.
  - eapply same_store_trans; [eapply Hb; exact E |].
    eapply keeps_dispatch; [exact Hc | exact H].
  - inversion H; subst. eapply Hb; exact E.
Qed.

Lemma keeps_retrieve_word (n : nat) : keeps_store (retrieve_word n).
Proof.
  intros w r w' H. unfold retrieve_word in H.
  destruct (word_source w) as [| [wd |] rest]; inversion H; repeat split.
Qed.

Lemma keeps_get_random_word : keeps_store get_random_word.
Proof.
  unfold get_random_word. apply keeps_try_except.
  - unfold random_randint. pose proof keeps_retrieve_word. keeps.
  - constructor; [| constructor]. intros e. simpl. unfold random_choice. keeps.
Qed.

Lemma keeps_get_letter_guess (fuel : nat) : keeps_store (get_letter_guess fuel).
Proof.
  induction fuel as [| fuel IH]; simpl.
  - intros w r w' H. inversion H. apply same_store_refl.
  - keeps.
Qed.

(** Reading no input. *)

Lemma keeps_stdin_ret {A} (a : A) : keeps_stdin (ret a).
Proof. intros w r w' H. now inversion H. Qed.

Lemma keeps_stdin_raise {A} (e : exn) : keeps_stdin (@raise A e).
Proof. intros w r w' H. now inversion H. Qed.

Lemma keeps_stdin_bind {A B} (m : Py A) (k : A -> Py B) :
  keeps_stdin m -> (forall a, keeps_stdin (k a)) -> keeps_stdin (bind m k).
Proof.
  intros Hm Hk w r w' H. unfold bind in H.
  destruct (m w) as [[a | e |] w1] eqn:E.
  - rewrite (Hk a _ _ _ H). eapply Hm; exact E.
  - inversion H; subst. eapply Hm; exact E.
  - inversion H; subst. eapply Hm; exact E.
Qed.

Lemma keeps_stdin_print (s : string) : keeps_stdin (print s).
Proof. intros w r w' H. unfold print in H. now inversion H. Qed.

Lemma keeps_stdin_randbelow (n : nat) : keeps_stdin (randbelow n).
Proof.
  intros w r w' H. unfold randbelow in H.
  destruct (rng w); inversion H; reflexivity.
Qed.

Lemma keeps_stdin_retrieve_word (n : nat) : keeps_stdin (retrieve_word n).
Proof.
  intros w r w' H. unfold retrieve_word in H.
  destruct (word_source w) as [| [wd |] rest]; inversion H; reflexivity.
Qed.

Lemma keeps_stdin_dispatch {A} (e : exn)
    (clauses : list (list class_expr * (exn -> Py A))) :
  List.Forall (fun cl => forall e', keeps_stdin (snd cl e')) clauses ->
  keeps_stdin (dispatch e clauses).
Proof.
  induction 1 as [| [ces h] rest Hh _ IH]; simpl.
  - apply keeps_stdin_raise.
  - destruct (eval_class_tuple ces) as [e' | cs]; [apply keeps_stdin_raise |].
    destruct (exn_matches e cs) as [e' | []];
      [apply keeps_stdin_raise | apply Hh | exact IH].
Qed.

Lemma keeps_stdin_try_except {A} (body : Py A)
    (clauses : list (list class_expr * (exn -> Py A))) :
  keeps_stdin body ->
  List.Forall (fun cl => forall e', keeps_stdin (snd cl e')) clauses ->
  keeps_stdin (try_except body clauses).
Proof.
  intros Hb Hc w r w' H. unfold try_except in H.
  destruct (body w) as [[a | e |] w1] eqn:E.
  - inversion H; subst. eapply Hb; exact E.
  - rewrite (keeps_stdin_dispatch e clauses Hc _ _ _ H). eapply Hb; exact E.
  - inversion H; subst. eapply Hb; exact E.
Qed.

Lemma keeps_stdin_get_random_word : keeps_stdin get_random_word.
Proof.
  unfold get_random_word. apply keeps_stdin_try_except.
  - unfold random_randint.
    repeat first [ apply keeps_stdin_bind; [| intros ?]
                 | apply keeps_stdin_ret | apply keeps_stdin_print
                 | apply keeps_stdin_randbelow | apply keeps_stdin_retrieve_word ].
  - constructor; [| constructor]. intros e. simpl. unfold random_choice.
    repeat first [ apply keeps_stdin_bind; [| intros ?]
                 | apply keeps_stdin_ret | apply keeps_stdin_print
                 | apply keeps_stdin_randbelow ].
Qed.

Lemma guess_while_active_complete (gs : game_session) (guesses : list string) :
  is_complete gs = true -> guess_while_active gs guesses = gs.
Proof. intros H. destruct guesses; simpl; [reflexivity | now rewrite H]. Qed.

Lemma letter_guesses_app (l1 l2 : list string) :
  letter_guesses (l1 ++ l2) = letter_guesses l1 ++ letter_guesses l2.
Proof. unfold letter_guesses. now rewrite List.filter_app, map_app. Qed.

Lemma letter_guesses_skipped (skipped : list string) :
  List.Forall (fun l => taken Str.strip Str.upper Str.isalpha String.length l = false)
    skipped ->
  letter_guesses skipped = [].
Proof.
  unfold letter_guesses. induction 1 as [| l rest Hl _ IH]; simpl; [reflexivity |].
  now rewrite Hl.
Qed.

(** What [get_letter_guess] hands back is the first of the guesses that the
    lines to come make. *)
Lemma get_letter_guess_next (fuel : nat) (w w' : world) (g : string) :
  get_letter_guess fuel w = (Returned g, w') ->
  letter_guesses (stdin w) = g :: letter_guesses (stdin w') /\ same_store w w'.
Proof.
  rewrite get_letter_guess_with_model. intros H.
  apply get_letter_guess_with_inv in H.
  destruct H as (skipped & line & Hin & Hg & Hok & Hsk & Hs).
  split; [| exact Hs].
  rewrite Hin, letter_guesses_app, (letter_guesses_skipped _ Hsk). simpl.
  unfold letter_guesses at 1. simpl. rewrite Hok. simpl. now rewrite Hg.
Qed.

(** The loop of [play_game] ends on the session that the guesses typed lead
    to, in the order typed. *)
Lemma play_rounds_complete (fuel : nat) (gs gs' : game_session) (w w' : world) :
  play_rounds fuel gs w = (Returned gs', w') ->
  is_complete gs' = true /\ same_store w w'
  /\ gs' = guess_while_active gs (letter_guesses (stdin w)).
Proof.
  revert gs w. induction fuel as [| fuel IH]; intros gs w H;
    [simpl in H; discriminate |].
  cbn [play_rounds] in H.
  destruct (is_complete gs) eqn:Hc.
  - inversion H; subst. split; [exact Hc |]. split; [apply same_store_refl |].
    now rewrite guess_while_active_complete.
  - step H as g w1 E1. apply get_letter_guess_next in E1.
    destruct E1 as (Hnext & Hs1). rewrite Hnext. simpl. rewrite Hc.
    destruct (is_letter_already_guessed gs g) eqn:Hdup.
    + step H as u w2 E2. inversion E2; subst u w2; clear E2.
      apply IH in H. destruct H as (Hcomp & Hs & Hg).
      split; [exact Hcomp |]. split.
      * eapply same_store_trans; [exact Hs1 |].
        eapply same_store_trans; [| exact Hs]. repeat split.
      * assert (Hsame : snd (make_guess gs g) = gs).
        { unfold make_guess. unfold is_letter_already_guessed in Hdup.
          now rewrite Hdup. }
        rewrite Hsame. exact Hg.
    + destruct (make_guess gs g) as [hit gs1] eqn:Hmk.
      step H as u w2 E2.
      assert (Hs2 : same_store w1 w2 /\ stdin w2 = stdin w1).
      { destruct hit; inversion E2; repeat split. }
      destruct Hs2 as (Hs2 & Hin2).
      apply IH in H. destruct H as (Hcomp & Hs & Hg).
      split; [exact Hcomp |]. split.
      * eapply same_store_trans; [exact Hs1 |].
        eapply same_store_trans; [exact Hs2 | exact Hs].
      * simpl. rewrite Hg, Hin2. reflexivity.
Qed.



(** [get_random_word] always returns a word and never raises: the answer of
    the word source when it gives one, and otherwise one of the fifteen
    fallback words, each of which is a non-empty word of uppercase letters.
    It touches nothing of the accounts. *)
Theorem get_random_word_total (w : world) :
  (exists wd w',
     get_random_word w = (Returned wd, w')
     /\ same_store w w'
     /\ ((exists rest, word_source w = Some wd :: rest)
         \/ ((forall wd' rest, word_source w <> Some wd' :: rest)
             /\ In wd fallback_words)))
  /\ List.Forall (fun wd => wd <> EmptyString
                            /\ forallb Str.isupper (Str.chars wd) = true)
                 fallback_words.
Proof.
  split; [| repeat constructor; discriminate].
  assert (Hfb : forall w0, exists wd w1,
             random_choice EmptyString fallback_words w0 = (Returned wd, w1)
             /\ In wd fallback_words).
  { intros w0. unfold random_choice.
    destruct (returns_randbelow (length fallback_words) w0) as (i & w1 & E & Hi).
    exists (nth i fallback_words EmptyString), w1. unfold bind. rewrite E.
    split; [reflexivity |]. apply nth_In. apply Hi. simpl. lia. }
  assert (Hri : exists n w1, random_randint 4 10 w = (Returned n, w1)
                             /\ word_source w1 = word_source w).
  { unfold random_randint, bind, randbelow.
    destruct (rng w); eexists _, _; split; reflexivity. }
  destruct Hri as (n & w1 & E1 & Hws).
  destruct (get_random_word w) as [r w'] eqn:E.
  pose proof (keeps_get_random_word _ _ _ E) as Hs.
  unfold get_random_word, try_except in E. unfold bind at 1 in E.
  rewrite E1 in E. unfold bind at 1 in E. unfold retrieve_word in E.
  rewrite Hws in E.
  destruct (word_source w) as [| [wd |] ws] eqn:Hw.
  - remember (random_choice EmptyString fallback_words) as rc eqn:Hrc.
    simpl in E. unfold bind, print in E. simpl in E.
    match type of E with
    | context [rc ?w0] => destruct (Hfb w0) as (wd & w2 & E2 & Hin)
    end.
    rewrite E2 in E. inversion E; subst r w'. eexists _, _. split; [reflexivity |]. split; [exact Hs |].
    right. split; [intros ? ?; discriminate | exact Hin].
  - unfold bind, print, ret in E. inversion E; subst.
    eexists _, _. split; [reflexivity |]. split; [exact Hs |].
    left. eexists. reflexivity.
  - remember (random_choice EmptyString fallback_words) as rc eqn:Hrc.
    simpl in E. unfold bind, print in E. simpl in E.
    match type of E with
    | context [rc ?w0] => destruct (Hfb w0) as (wd & w2 & E2 & Hin)
    end.
    rewrite E2 in E. inversion E; subst r w'. eexists _, _. split; [reflexivity |]. split; [exact Hs |].
    right. split; [intros ? ?; discriminate | exact Hin].
Qed.

(** ** Conversations: login and registration as a whole *)

Lemma converses_keeps {A} (m : Py A) : converses m -> keeps_store m.
Proof. intros H w r w' E. now destruct (H w r w' E). Qed.

Lemma converses_ret {A} (a : A) : converses (ret a).
Proof.
  intros w r w' H. inversion H. split; [apply same_store_refl |]. now exists [].
Qed.

Lemma converses_bind {A B} (m : Py A) (k : A -> Py B) :
  converses m -> (forall a, converses (k a)) -> converses (bind m k).
Proof.
  intros Hm Hk w r w' H. unfold bind in H.
  destruct (m w) as [[a | e |] w1] eqn:E.
  - destruct (Hm _ _ _ E) as (Hs1 & r1 & Hr1).
    destruct (Hk a _ _ _ H) as (Hs2 & r2 & Hr2).
    split; [eapply same_store_trans; eassumption |].
    exists (r1 ++ r2). now rewrite Hr1, Hr2, app_assoc.
  - inversion H; subst. eapply Hm; exact E.
  - inversion H; subst. eapply Hm; exact E.
Qed.

Lemma converses_print (s : string) : converses (print s).
Proof.
  intros w r w' H. inversion H. split; [repeat split |]. now exists [].
Qed.

Lemma converses_input_stripped (s : string) : converses (input_stripped s).
Proof.
  intros w r w' H. split; [eapply keeps_input_stripped; exact H |].
  unfold input_stripped, bind, input in H. simpl in H.
  destruct (stdin w) as [| line rest] eqn:E; inversion H; subst; simpl; rewrite ?E.
  - now exists [].
  - now exists [line].
Qed.

Lemma converses_get_accounts : converses get_accounts.
Proof.
  intros w r w' H. inversion H. split; [apply same_store_refl |]. now exists [].
Qed.

Lemma converses_randbelow (n : nat) : converses (randbelow n).
Proof.
  intros w r w' H. split; [eapply keeps_randbelow; exact H |].
  unfold randbelow in H. destruct (rng w); inversion H; now exists [].
Qed.

Create HintDb conv.
#[local] Hint Resolve converses_ret converses_print converses_input_stripped
  converses_get_accounts converses_randbelow : conv.

Ltac conv :=
  repeat first
    [ progress auto with conv
    | apply converses_bind; [| intros ?]
    | match goal with
      | |- converses (if ?b then _ else _) => destruct b
      | |- converses (match ?o with Some _ => _ | None => _ end) => destruct o
      end ].

Lemma converses_login_ask_username (n : nat) : converses (login_ask_username n).
Proof. induction n as [| n IH]; simpl; conv. Qed.

Lemma converses_register_ask_username (n : nat) : converses (register_ask_username n).
Proof. induction n as [| n IH]; simpl; conv. Qed.

Lemma converses_register_ask_password (n : nat) : converses (register_ask_password n).
Proof. induction n as [| n IH]; simpl; conv. Qed.

Lemma converses_append_choices (n : nat) (all_chars : string) (pw : list ascii) :
  converses (append_choices n all_chars pw).
Proof.
  revert pw. induction n as [| n IH]; intros pw; simpl; [conv |].
  unfold choice_chr, random_choice. conv.
Qed.

Lemma converses_shuffle_from {A} (i : nat) (l : list A) : converses (shuffle_from i l).
Proof. revert l. induction i as [| i IH]; intros l; cbn [shuffle_from]; conv. Qed.

#[local] Hint Resolve converses_login_ask_username converses_register_ask_username
  converses_register_ask_password converses_append_choices
  converses_shuffle_from : conv.

Lemma converses_generate_password : converses generate_password.
Proof.
  unfold generate_password, random_shuffle, choice_chr, random_choice. conv.
Qed.
#[local] Hint Resolve converses_generate_password : conv.

(** A property of the outcome [(b0, u)] of login or registration that looks
    back at the world in which the conversation started. *)
Section Outcome.

Variable current_user : loc.
Variable b0 : bool.
Variable R : world -> loc -> world -> Prop.

Hypothesis R_back :
  forall w0 w u w',
    same_store w0 w -> (exists read, stdin w0 = read ++ stdin w) ->
    R w u w' -> R w0 u w'.
Hypothesis R_abort : b0 = false -> forall w, R w current_user w.

Lemma ensures_after {A} (m : Py A) (k : A -> Py (bool * loc)) :
  converses m -> (forall a, ensures b0 R (k a)) -> ensures b0 R (bind m k).
Proof.
  intros Hm Hk w w' u H. step H as a w1 E.
  destruct (Hm _ _ _ E) as (Hs & Hr).
  eapply R_back; [exact Hs | exact Hr |]. eapply Hk. exact H.
Qed.

Lemma ensures_choice (turns : nat) (retry : Py (bool * loc)) :
  ensures b0 R retry -> ensures b0 R (handle_choice turns retry current_user).
Proof.
  intros Hr. induction turns as [| turns IH]; simpl.
  - intros w w' u H. discriminate H.
  - apply ensures_after; [conv |]. intros choice.
    destruct (String.eqb choice "1"); [exact Hr |].
    destruct (String.eqb choice "2").
    + intros w w' u H. inversion H; subst. now apply R_abort.
    + apply ensures_after; [conv |]. intros _. exact IH.
Qed.

Lemma ensures_handle_login (fuel : nat) :
  (forall h, ensures b0 R (h "login" current_user) ->
             ensures b0 R (login_user_body h current_user)) ->
  ensures b0 R (handle_max_attempts fuel "login" current_user).
Proof.
  intros Hbody. induction fuel as [| fuel IH]; cbn [handle_max_attempts].
  - intros w w' u H. discriminate H.
  - apply ensures_after; [conv |]. intros _. apply ensures_choice.
    change (String.eqb "login" "login") with true. cbv iota.
    now apply Hbody.
Qed.

Lemma ensures_handle_registration (fuel : nat) :
  (forall h, ensures b0 R (h "registration" current_user) ->
             ensures b0 R (register_user_body h current_user)) ->
  ensures b0 R (handle_max_attempts fuel "registration" current_user).
Proof.
  intros Hbody. induction fuel as [| fuel IH]; cbn [handle_max_attempts].
  - intros w w' u H. discriminate H.
  - apply ensures_after; [conv |]. intros _. apply ensures_choice.
    change (String.eqb "registration" "login") with false. cbv iota.
    now apply Hbody.
Qed.

End Outcome.

Lemma merge_guest_session_frame (un : string) (cu : loc) (w w' : world) (r : unit) :
  merge_guest_session un cu w = (Returned r, w') ->
  accounts w' = accounts w /\ stdin w' = stdin w /\ disk w' = disk w
  /\ disk_faults w' = disk_faults w.
Proof.
  intros H. unfold merge_guest_session in H.
  repeat match type of H with
  | bind (accounts_getitem _) _ _ = _ =>
      let t := fresh "t" in let w1 := fresh "w" in let E := fresh "E" in
      apply bind_inv in H; destruct H as (t & w1 & E & H);
      apply accounts_getitem_inv in E; destruct E as [-> E]
  | bind (deref _) _ _ = _ =>
      let t := fresh "a" in let w1 := fresh "w" in let E := fresh "E" in
      apply bind_inv in H; destruct H as (t & w1 & E & H);
      apply deref_inv in E; destruct E as [-> E]
  | bind (assign _ _) _ _ = _ =>
      let t := fresh "u" in let w1 := fresh "w" in let E := fresh "E" in
      apply bind_inv in H; destruct H as (t & w1 & E & H);
      apply assign_inv in E; destruct E as [-> E]
  end.
  apply assign_inv in H. destruct H as [-> _]. repeat split.
Qed.

Lemma login_ask_password_outcome (n : nat) (un : string) (cu : loc)
    (w w' : world) (o : option (bool * loc)) :
  login_ask_password n un cu w = (Returned o, w') ->
  match o with
  | None => same_store w w' /\ exists read, stdin w = read ++ stdin w'
  | Some (b, u) => b = true /\ authenticated w u w'
  end.
Proof.
  revert w w' o. induction n as [| n IH]; intros w w' o H;
    [inversion H; split; [apply same_store_refl | now exists []] |].
  cbn [login_ask_password] in H.
  step H as pw w1 E1. apply input_stripped_inv in E1.
  destruct E1 as (line & Hin & -> & Hs1).
  destruct Hs1 as (Hh1 & Ha1 & Hd1 & Hf1).
  step H as t w2 E2. apply accounts_getitem_inv in E2. destruct E2 as [-> Ht].
  step H as a w3 E3. apply deref_inv in E3. destruct E3 as [-> Ha].
  destruct (String.eqb (password a) (Str.strip line)) eqn:Hpw.
  - apply String.eqb_eq in Hpw.
    step H as c w4 E4. apply deref_inv in E4. destruct E4 as [-> Hc].
    step H as u0 w5 E5.
    assert (Hacc : accounts w5 = accounts w1).
    { destruct (is_guest c); [| now inversion E5].
      now apply merge_guest_session_frame in E5. }
    step H as u w6 E6. apply accounts_getitem_inv in E6. destruct E6 as [-> Hu].
    step H as rec w7 E7. apply deref_inv in E7. destruct E7 as [-> _].
    step H as u1 w8 E8. inversion E8; subst u1 w8; clear E8.
    inversion H; subst o w'; clear H.
    split; [reflexivity |]. exists line, un, a.
    rewrite Hin, <- Ha1, <- Hh1. repeat split; try assumption.
    + now left.
    + congruence.
    + assert (u = t) by congruence. now subst u.
  - step H as u1 w4 E4. inversion E4; subst u1 w4; clear E4.
    apply IH in H. destruct o as [[b u] |].
    + destruct H as (Hb & l & un' & t' & Hl & Hg & Ht' & Hp).
      split; [exact Hb |]. exists l, un', t'. simpl in Hl, Hg, Ht'.
      rewrite Hin, <- Ha1, <- Hh1. repeat split; try assumption. now right.
    + destruct H as ((Hh & Hacc & Hd & Hf) & read & Hr). simpl in *.
      split; [repeat split; congruence |].
      exists (line :: read). rewrite Hin, Hr. reflexivity.
Qed.

Lemma register_finish_general (un pw : string) (cu : loc) (w w' : world)
    (r : bool * loc) (c : account) :
  register_finish un pw cu w = (Returned r, w') ->
  heap w !! cu = Some c ->
  exists a,
    r = (true, length (heap w))
    /\ heap w' = heap w ++ [a]
    /\ accounts w' = dict_set (accounts w) un (length (heap w))
    /\ username a = un /\ password a = pw
    /\ (un <> EmptyString -> name a <> EmptyString)
    /\ wins a = 0 /\ losses a = 0 /\ plays a = 0.
Proof.
  intros H Hg. unfold register_finish in H.
  step H as line w1 E1.
  pose proof (keeps_input_stripped _ _ _ _ E1) as (Hh & Ha & _).
  set (nm := if negb (nonempty line) then un else line) in H.
  assert (Hnm : un <> EmptyString -> nm <> EmptyString).
  { intros Hun. unfold nm. destruct line; simpl; [exact Hun | discriminate]. }
  step H as acc w2 E2.
  unfold create_account, new_account in E2. inversion E2; subst acc w2; clear E2.
  rewrite Hh in H.
  set (h := heap w) in *.
  step H as c0 w3 E3. apply deref_inv in E3. destruct E3 as [-> Hc]. simpl in Hc.
  assert (Hcu : forall a, (h ++ [a]) !! cu = Some c).
  { intros a. now apply lookup_app_l_Some. }
  assert (c0 = c) by (rewrite Hcu in Hc; congruence). subst c0.
  step H as u0 w4 E4.
  assert (Hw4 : exists a, w4 = set_heap (h ++ [a]) w1
                          /\ username a = un /\ password a = pw /\ name a = nm
                          /\ wins a = 0 /\ losses a = 0 /\ plays a = 0).
  { destruct (is_guest c).
    - eapply read_read_write in E4; [| simpl; apply Hcu | simpl; apply lookup_snoc].
      destruct E4 as [E4 _]. simpl in E4. rewrite insert_snoc in E4.
      eapply read_read_write in E4; [| simpl; apply Hcu | simpl; apply lookup_snoc].
      destruct E4 as [E4 _]. simpl in E4. rewrite insert_snoc in E4.
      eapply read_read_write_end in E4; [| simpl; apply Hcu | simpl; apply lookup_snoc].
      destruct E4 as [-> _]. simpl. rewrite insert_snoc.
      eexists. split; [reflexivity |]. repeat split.
    - inversion E4; subst. eexists. split; [reflexivity |]. repeat split. }
  destruct Hw4 as (a & -> & Hun & Hpw & Hname & Hw0 & Hl0 & Hp0).
  step H as u1 w5 E5. inversion E5; subst u1 w5; clear E5.
  step H as u2 w6 E6. apply save_accounts_returned in E6.
  destruct E6 as (recs & _ & _ & Hheap & Haccs). simpl in Hheap, Haccs.
  step H as u3 w7 E7. inversion E7; subst u3 w7; clear E7.
  inversion H; subst r w'; clear H. simpl.
  exists a. rewrite Hheap, Haccs, Ha.
  repeat split; try assumption. intros Hne. rewrite Hname. now apply Hnm.
Qed.

Lemma register_ask_username_outcome (n : nat) (w w' : world) (un : string) :
  register_ask_username n w = (Returned (Some un), w') ->
  un <> EmptyString /\ dict_get (accounts w) un = None.
Proof.
  revert w w'. induction n as [| n IH]; intros w w' H; [inversion H |].
  cbn [register_ask_username] in H.
  step H as s w1 E1. pose proof (keeps_input_stripped _ _ _ _ E1) as (_ & Ha1 & _).
  step H as accs w2 E2. inversion E2; subst accs w2; clear E2.
  destruct (nonempty s && negb (dict_mem (accounts w1) s)) eqn:Hok.
  - apply andb_true_iff in Hok. destruct Hok as [Hne Hfree].
    assert (Hget : dict_get (accounts w) s = None).
    { rewrite <- Ha1. unfold dict_mem in Hfree.
      destruct (dict_get (accounts w1) s); [discriminate | reflexivity]. }
    inversion H; subst. split; [intros ->; discriminate | exact Hget].
  - step H as u w2 E2.
    assert (Ha2 : accounts w2 = accounts w1).
    { destruct (dict_mem (accounts w1) s); now inversion E2. }
    apply IH in H. rewrite Ha2, Ha1 in H. exact H.
Qed.

Lemma register_ask_password_outcome (n : nat) (w w' : world) (pw : string) :
  register_ask_password n w = (Returned (Some pw), w') ->
  validate_password pw = true.
Proof.
  revert w w'. induction n as [| n IH]; intros w w' H; [inversion H |].
  cbn [register_ask_password] in H.
  step H as s w1 E1.
  destruct (validate_password s) eqn:Hok.
  - inversion H; subst. exact Hok.
  - step H as u w2 E2. now apply IH in H.
Qed.

(** ** Generated passwords *)

Lemma returns_append_choices_in (n : nat) (all_chars : string) (pw : list ascii) :
  all_chars <> EmptyString ->
  returns (append_choices n all_chars pw)
    (fun r => exists extra,
       r = pw ++ extra /\ length extra = n
       /\ List.Forall (fun c => In c (Str.chars all_chars)) extra).
Proof.
  intros Hne. revert pw. induction n as [| n IH]; intros pw; simpl.
  - apply returns_ret. exists []. split; [now rewrite app_nil_r |]. split; constructor.
  - eapply returns_bind; [now apply returns_choice_chr |].
    intros c Hc w. destruct (IH (pw ++ [c]) w) as (r & w' & E & extra & -> & Hlen & Hall).
    exists ((pw ++ [c]) ++ extra), w'. split; [exact E |].
    exists (c :: extra). split; [now rewrite <- app_assoc |].
    split; [simpl; now rewrite Hlen | now constructor].
Qed.

Lemma strip_no_space (s : string) :
  List.Forall (fun c => Str.isspace c = false) (Str.chars s) -> Str.strip s = s.
Proof.
  intros H. unfold Str.strip.
  assert (Hl : Str.lstrip s = s).
  { destruct s as [| c s]; [reflexivity |]. simpl in *.
    inversion H; subst. now rewrite H2. }
  rewrite Hl. induction s as [| c s IH]; [reflexivity |].
  simpl in *. inversion H; subst.
  rewrite IH; [| assumption |].
  - destruct s; [now rewrite H2 | reflexivity].
  - destruct s as [| c' s]; [reflexivity |]. simpl in *.
    inversion H3; subst. now rewrite H4.
Qed.

Lemma generate_password_returns :
  returns generate_password
    (fun pw => policy pw
               /\ List.Forall (fun c => In c (Str.chars password_alphabet))
                    (Str.chars pw)).
Proof.
  destruct alphabet_classes as (Hlo & Hup & Hdi & Hsy).
  rewrite List.Forall_forall in Hlo, Hup, Hdi, Hsy.
  assert (Hsub : forall c,
             In c (Str.chars ascii_lowercase) \/ In c (Str.chars ascii_uppercase)
             \/ In c (Str.chars digits) \/ In c (Str.chars safe_symbols) ->
             In c (Str.chars password_alphabet)).
  { intros c Hc. unfold password_alphabet. rewrite !chars_app, !in_app_iff. tauto. }
  unfold generate_password.
  eapply returns_bind; [apply returns_choice_chr; discriminate |]. intros c1 H1.
  eapply returns_bind; [apply returns_choice_chr; discriminate |]. intros c2 H2.
  eapply returns_bind; [apply returns_choice_chr; discriminate |]. intros c3 H3.
  eapply returns_bind; [apply returns_choice_chr; discriminate |]. intros c4 H4.
  eapply returns_bind; [apply returns_append_choices_in; discriminate |].
  intros pw (extra & -> & Hlen & Hall).
  eapply returns_bind; [apply returns_shuffle_from |].
  intros sh Hperm. apply returns_ret.
  assert (Hin : forall c, In c ([c1; c2; c3; c4] ++ extra) ->
                          In c (Str.chars (string_of_list_ascii sh))).
  { intros c Hc. rewrite chars_of_list.
    eapply Permutation_in; [symmetry; exact Hperm | exact Hc]. }
  assert (Hl : String.length (string_of_list_ascii sh) = 12%nat).
  { rewrite <- chars_length, chars_of_list, (Permutation_length Hperm).
    rewrite length_app, Hlen. reflexivity. }
  split.
  - constructor.
    + rewrite Hl. lia.
    + exists c1. split; [apply Hin; simpl; tauto | now apply Hlo].
    + exists c2. split; [apply Hin; simpl; tauto | now apply Hup].
    + exists c3. split; [apply Hin; simpl; tauto | now apply Hdi].
    + exists c4. split; [apply Hin; simpl; tauto | now apply Hsy].
  - rewrite chars_of_list. apply List.Forall_forall. intros c Hc.
    apply (Permutation_in _ Hperm) in Hc. apply in_app_iff in Hc.
    destruct Hc as [Hc | Hc].
    + simpl in Hc. destruct Hc as [<- | [<- | [<- | [<- | []]]]]; apply Hsub; tauto.
    + rewrite List.Forall_forall in Hall. now apply Hall.
Qed.

(** Whatever the random generator draws, a generated password is made only
    of the 70 characters of its alphabet, so it holds no white space: the
    [strip] that login and registration apply to typed input leaves it as it
    is.  Generating it touches nothing of the accounts and reads no input. *)
Theorem generate_password_alphabet (w : world) :
  exists pw w',
    generate_password w = (Returned pw, w')
    /\ List.Forall (fun c => In c (Str.chars password_alphabet)) (Str.chars pw)
    /\ Str.strip pw = pw
    /\ same_store w w' /\ stdin w' = stdin w.
Proof.
  destruct (generate_password_returns w) as (pw & w' & E & _ & Hall).
  exists pw, w'. split; [exact E |]. split; [exact Hall |].
  split; [| split; [eapply keeps_generate_password; exact E |]].
  - apply strip_no_space. rewrite List.Forall_forall in *. intros c Hc.
    apply Hall in Hc.
    assert (Hns : forallb (fun c => negb (Str.isspace c)) (Str.chars password_alphabet)
                  = true) by reflexivity.
    rewrite forallb_forall in Hns. apply Hns in Hc. now apply negb_true_iff.
  - unfold generate_password, random_shuffle, choice_chr, random_choice in E.
    assert (Hrb : forall n w1 r w2, randbelow n w1 = (r, w2) -> stdin w2 = stdin w1).
    { intros n w1 r w2 H. unfold randbelow in H.
      destruct (rng w1); inversion H; reflexivity. }
    assert (Hac : forall n s p w1 r w2,
               append_choices n s p w1 = (Returned r, w2) -> stdin w2 = stdin w1).
    { induction n as [| n IH]; intros s p w1 r w2 H; simpl in H.
      - now inversion H.
      - unfold choice_chr, random_choice in H.
        step H as c w3 E3. step E3 as i w4 E4. inversion E3; subst.
        apply Hrb in E4. apply IH in H. congruence. }
    assert (Hsh : forall i (l : list ascii) w1 r w2,
               shuffle_from i l w1 = (Returned r, w2) -> stdin w2 = stdin w1).
    { induction i as [| i IH]; intros l w1 r w2 H; cbn [shuffle_from] in H.
      - now inversion H.
      - step H as j w3 E3. apply Hrb in E3. apply IH in H. congruence. }
    step E as c1 w1 E1. step E1 as i1 v1 F1. inversion E1; subst. apply Hrb in F1.
    step E as c2 w2 E2. step E2 as i2 v2 F2. inversion E2; subst. apply Hrb in F2.
    step E as c3 w3 E3. step E3 as i3 v3 F3. inversion E3; subst. apply Hrb in F3.
    step E as c4 w4 E4. step E4 as i4 v4 F4. inversion E4; subst. apply Hrb in F4.
    step E as p w5 E5. apply Hac in E5.
    step E as sh w6 E6. apply Hsh in E6.
    inversion E; subst. congruence.
Qed.

(** ** Login and registration: giving up, creating, authenticating *)

Lemma register_finish_true (un pw : string) (cu : loc) (w w' : world)
    (b : bool) (u : loc) :
  register_finish un pw cu w = (Returned (b, u), w') -> b = true.
Proof.
  intros H. unfold register_finish in H.
  step H as v1 w1 E1. step H as v2 w2 E2. step H as v3 w3 E3.
  step H as v4 w4 E4. step H as v5 w5 E5. step H as v6 w6 E6.
  step H as v7 w7 E7. now inversion H.
Qed.

Lemma unchanged_back (cu : loc) (w0 w : world) (u : loc) (w' : world) :
  same_store w0 w -> (exists read, stdin w0 = read ++ stdin w) ->
  unchanged cu w u w' -> unchanged cu w0 u w'.
Proof.
  intros Hs _ [-> Hs']. split; [reflexivity |]. eapply same_store_trans; eassumption.
Qed.

Lemma unchanged_abort (cu : loc) : false = false -> forall w, unchanged cu w cu w.
Proof. intros _ w. split; [reflexivity | apply same_store_refl]. Qed.

Lemma unchanged_login_body (cu : loc) (h : string -> loc -> Py (bool * loc)) :
  ensures false (unchanged cu) (h "login" cu) ->
  ensures false (unchanged cu) (login_user_body h cu).
Proof.
  intros Hh. unfold login_user_body.
  apply (ensures_after _ _ (unchanged_back cu)); [conv |].
  intros [un |]; [| exact Hh].
  intros w w' u H. step H as o w1 E. apply login_ask_password_outcome in E.
  destruct o as [[b u'] |].
  - destruct E as [-> _]. inversion H.
  - destruct E as (Hs & Hr). eapply unchanged_back; [exact Hs | exact Hr |].
    now apply Hh.
Qed.

Lemma unchanged_register_body (cu : loc) (h : string -> loc -> Py (bool * loc)) :
  ensures false (unchanged cu) (h "registration" cu) ->
  ensures false (unchanged cu) (register_user_body h cu).
Proof.
  intros Hh. unfold register_user_body.
  assert (Hfin : forall un pw, ensures false (unchanged cu) (register_finish un pw cu)).
  { intros un pw w w' u H. apply register_finish_true in H. discriminate. }
  apply (ensures_after _ _ (unchanged_back cu)); [conv |].
  intros [un |]; [| exact Hh].
  apply (ensures_after _ _ (unchanged_back cu)); [conv |]. intros choice.
  destruct (String.eqb choice "2").
  - apply (ensures_after _ _ (unchanged_back cu)); [conv |]. intros pw.
    apply (ensures_after _ _ (unchanged_back cu)); [conv |]. intros _.
    apply (ensures_after _ _ (unchanged_back cu)); [conv |]. intros _.
    apply Hfin.
  - apply (ensures_after _ _ (unchanged_back cu)); [conv |].
    intros [pw |]; [apply Hfin | exact Hh].
Qed.

(** A login or a registration that is given up, that is one that hands back
    [False], hands back the acting identity it was given and has changed
    nothing: no record, no entry of the store, nothing of the file, and no
    write was attempted. *)
Theorem given_up_changes_nothing (fuel : nat) (current_user : loc) (w w' : world)
    (u : loc) :
  (login_user fuel current_user w = (Returned (false, u), w') ->
   u = current_user /\ same_store w w')
  /\ (register_user fuel current_user w = (Returned (false, u), w') ->
      u = current_user /\ same_store w w').
Proof.
  split; intros H.
  - apply (unchanged_login_body current_user (handle_max_attempts fuel)); [| exact H].
    apply (ensures_handle_login _ _ _ (unchanged_back current_user)
             (unchanged_abort current_user)).
    apply unchanged_login_body.
  - apply (unchanged_register_body current_user (handle_max_attempts fuel));
      [| exact H].
    apply (ensures_handle_registration _ _ _ (unchanged_back current_user)
             (unchanged_abort current_user)).
    apply unchanged_register_body.
Qed.

Lemma given_up_changes_nothing_witness :
  let w := set_stdin ["x"; "x"; "x"; "x"; "x"; "7"; "2"] world_login in
  login_user 3 0%nat w = (Returned (false, 0%nat), snd (login_user 3 0%nat w))
  /\ 0%nat = 0%nat /\ same_store w (snd (login_user 3 0%nat w)).
Proof.
  split; [vm_compute; reflexivity |].
  apply (proj1 (given_up_changes_nothing 3 0%nat
                  (set_stdin ["x"; "x"; "x"; "x"; "x"; "7"; "2"] world_login)
                  (snd (login_user 3 0%nat
                          (set_stdin ["x"; "x"; "x"; "x"; "x"; "7"; "2"] world_login)))
                  0%nat)).
  vm_compute. reflexivity.
Defined.

Lemma authenticated_back (w0 w : world) (u : loc) (w' : world) :
  same_store w0 w -> (exists read, stdin w0 = read ++ stdin w) ->
  authenticated w u w' -> authenticated w0 u w'.
Proof.
  intros (Hh & Ha & _) (read & Hr) (line & un & t & Hl & Hg & Ht & Hp).
  exists line, un, t. rewrite Hr, <- Ha, <- Hh.
  repeat split; try assumption. apply in_app_iff. now right.
Qed.

Lemma authenticated_login_body (cu : loc) (h : string -> loc -> Py (bool * loc)) :
  ensures true authenticated (h "login" cu) ->
  ensures true authenticated (login_user_body h cu).
Proof.
  intros Hh. unfold login_user_body.
  apply (ensures_after _ _ authenticated_back); [conv |].
  intros [un |]; [| exact Hh].
  intros w w' u H. step H as o w1 E. apply login_ask_password_outcome in E.
  destruct o as [[b u'] |].
  - destruct E as [-> Hauth]. inversion H; subst. exact Hauth.
  - destruct E as (Hs & Hr). eapply authenticated_back; [exact Hs | exact Hr |].
    now apply Hh.
Qed.

(** No login without the password: when [login_user] hands back [True] and an
    identity, that identity is the record the store holds under some
    username, and the stored password of that record is the stripped form of
    a line that was typed during the login, however many attempts and
    restarts it took. *)
Theorem login_user_authenticates (fuel : nat) (current_user : loc) (w w' : world)
    (u : loc) :
  login_user fuel current_user w = (Returned (true, u), w') ->
  exists line un t,
    In line (stdin w)
    /\ dict_get (accounts w) un = Some u
    /\ heap w !! u = Some t
    /\ password t = Str.strip line.
Proof.
  intros H.
  apply (authenticated_login_body current_user (handle_max_attempts fuel)) in H;
    [exact H |].
  apply (ensures_handle_login current_user _ _ authenticated_back).
  - discriminate.
  - intros h. apply authenticated_login_body.
Qed.

Lemma login_user_authenticates_witness :
  login_user 3 0%nat world_login
  = (Returned (true, 1%nat), snd (login_user 3 0%nat world_login))
  /\ exists line un t,
       In line (stdin world_login)
       /\ dict_get (accounts world_login) un = Some 1%nat
       /\ heap world_login !! 1%nat = Some t
       /\ password t = Str.strip line.
Proof.
  split; [vm_compute; reflexivity |].
  apply (login_user_authenticates 3 0%nat world_login
           (snd (login_user 3 0%nat world_login)) 1%nat).
  vm_compute. reflexivity.
Defined.

Lemma dict_get_set_ne {V} (d : dict V) (k k' : string) (v : V) :
  k' <> k -> dict_get (dict_set d k v) k' = dict_get d k'.
Proof.
  intros Hne. unfold dict_get. induction d as [| [k0 v0] d IH]; simpl.
  - destruct (String.eqb k k') eqn:E; [| reflexivity].
    apply String.eqb_eq in E. congruence.
  - destruct (String.eqb k0 k) eqn:E; simpl.
    + apply String.eqb_eq in E. subst k0.
      destruct (String.eqb k k') eqn:E'; [| reflexivity].
      apply String.eqb_eq in E'. congruence.
    + destruct (String.eqb k0 k'); [reflexivity | exact IH].
Qed.

Lemma creates_back (cu : loc) (w0 w : world) (u : loc) (w' : world) :
  same_store w0 w -> (exists read, stdin w0 = read ++ stdin w) ->
  creates cu w u w' -> creates cu w0 u w'.
Proof.
  intros (Hh & Ha & _) _ Hc Hcu. rewrite <- Hh in Hcu.
  destruct (Hc Hcu) as (a & [? ? ? ? ? ? ? ? ? ?]).
  exists a. constructor; try assumption; congruence.
Qed.

Lemma creates_finish (un pw : string) (cu : loc) (w0 : world) :
  un <> EmptyString -> dict_get (accounts w0) un = None ->
  validate_password pw = true ->
  forall w w' u,
    same_store w0 w ->
    register_finish un pw cu w = (Returned (true, u), w') ->
    creates cu w u w'.
Proof.
  intros Hun Hfree Hpw w w' u (Hh & Ha & _) H [c Hc].
  destruct (register_finish_general _ _ _ _ _ _ _ H Hc)
    as (a & Hr & Hheap & Hacc & Hu & Hp & Hn & Hw0 & Hl0 & Hp0).
  inversion Hr; subst u. exists a. subst un pw.
  constructor; try assumption.
  - reflexivity.
  - now rewrite Ha.
  - now apply Hn.
Qed.

Lemma creates_register_body (cu : loc) (h : string -> loc -> Py (bool * loc)) :
  ensures true (creates cu) (h "registration" cu) ->
  ensures true (creates cu) (register_user_body h cu).
Proof.
  intros Hh. unfold register_user_body.
  intros w w' u H. step H as found w1 E1.
  destruct (converses_register_ask_username _ _ _ _ E1) as (Hs1 & Hr1).
  apply (creates_back cu w w1); [exact Hs1 | exact Hr1 |].
  destruct found as [un |]; [| now apply Hh].
  apply register_ask_username_outcome in E1. destruct E1 as (Hun & Hfree).
  step H as choice w2 E2.
  destruct (converses_input_stripped _ _ _ _ E2) as (Hs2 & Hr2).
  apply (creates_back cu w1 w2); [exact Hs2 | exact Hr2 |].
  assert (Hs12 : same_store w w2) by (eapply same_store_trans; eassumption).
  destruct (String.eqb choice "2").
  - step H as pw w3 E3.
    destruct (generate_password_returns w2) as (pw' & w3' & E3' & Hpol & _).
    rewrite E3 in E3'. inversion E3'; subst pw' w3'; clear E3'.
    apply validate_password_policy in Hpol.
    pose proof (keeps_generate_password _ _ _ E3) as Hs3.
    step H as u1 w4 E4. inversion E4; subst u1 w4; clear E4.
    step H as u2 w5 E5. inversion E5; subst u2 w5; clear E5.
    apply (creates_back cu w2 w3); [exact Hs3 | |].
    { destruct (converses_generate_password _ _ _ E3) as (_ & Hr3). exact Hr3. }
    match type of H with
    | register_finish _ _ _ ?W = _ =>
        apply (creates_back cu w3 W); [repeat split | now exists [] |];
        assert (Hs : same_store w W)
          by (eapply same_store_trans; [exact Hs12 |];
              eapply same_store_trans; [exact Hs3 | repeat split])
    end.
    intros Hcu.
    eapply (creates_finish un pw cu w Hun Hfree Hpol); [exact Hs | exact H | exact Hcu].
  - step H as chosen w3 E3.
    destruct (converses_register_ask_password _ _ _ _ E3) as (Hs3 & Hr3).
    apply (creates_back cu w2 w3); [exact Hs3 | exact Hr3 |].
    destruct chosen as [pw |]; [| now apply Hh].
    apply register_ask_password_outcome in E3.
    intros Hcu.
    eapply (creates_finish un pw cu w Hun Hfree E3); [| exact H | exact Hcu].
    eapply same_store_trans; eassumption.
Qed.



(** ** Running login forward *)

Lemma bind_runs {A B} (m : Py A) (k : A -> Py B) (w w1 : world) (a : A) :
  m w = (Returned a, w1) -> bind m k w = k a w1.
Proof. intros H. unfold bind. now rewrite H. Qed.

Lemma deref_runs (l : loc) (w : world) (a : account) :
  heap w !! l = Some a -> deref l w = (Returned a, w).
Proof. intros H. unfold deref. now rewrite H. Qed.

Lemma assign_runs (l : loc) (a a0 : account) (w : world) :
  heap w !! l = Some a0 ->
  assign l a w = (Returned tt, set_heap (<[l := a]> (heap w)) w).
Proof. intros H. unfold assign. now rewrite H. Qed.

Lemma accounts_getitem_runs (k : string) (w : world) (l : loc) :
  dict_get (accounts w) k = Some l -> accounts_getitem k w = (Returned l, w).
Proof. intros H. unfold accounts_getitem. now rewrite H. Qed.

Lemma input_stripped_runs (prompt line : string) (rest : list string) (w : world) :
  stdin w = line :: rest ->
  input_stripped prompt w
  = (Returned (Str.strip line), set_stdin rest (set_stdout (stdout w ++ [prompt]) w)).
Proof.
  intros H. unfold input_stripped, bind, input. simpl. now rewrite H.
Qed.

Lemma merge_guest_session_runs (un : string) (cu t : loc) (w : world)
    (a g : account) :
  dict_get (accounts w) un = Some t ->
  heap w !! t = Some a -> heap w !! cu = Some g ->
  merge_guest_session un cu w
  = (Returned tt, set_heap (<[t := merge_session a g]> (heap w)) w).
Proof.
  intros Hun Ht Hcu.
  assert (Hlt : (t < length (heap w))%nat) by (eapply lookup_lt_Some; exact Ht).
  assert (Hstep : forall w0 (x y : account) (F : account -> account -> account)
                         {B} (k : Py B),
             dict_get (accounts w0) un = Some t ->
             heap w0 !! t = Some x -> heap w0 !! cu = Some y ->
             (t0 <- accounts_getitem un ;; a0 <- deref t0 ;; c0 <- deref cu ;;
              assign t0 (F a0 c0) ;; k) w0
             = k (set_heap (<[t := F x y]> (heap w0)) w0)).
  { intros w0 x y F B k Hk Hx Hy.
    rewrite (bind_runs _ _ _ _ _ (accounts_getitem_runs un w0 t Hk)).
    rewrite (bind_runs _ _ _ _ _ (deref_runs t w0 x Hx)).
    rewrite (bind_runs _ _ _ _ _ (deref_runs cu w0 y Hy)).
    rewrite (bind_runs _ _ _ _ _ (assign_runs t _ x w0 Hx)).
    reflexivity. }
  assert (Hlast : forall w0 (x y : account) (F : account -> account -> account),
             dict_get (accounts w0) un = Some t ->
             heap w0 !! t = Some x -> heap w0 !! cu = Some y ->
             (t0 <- accounts_getitem un ;; a0 <- deref t0 ;; c0 <- deref cu ;;
              assign t0 (F a0 c0)) w0
             = (Returned tt, set_heap (<[t := F x y]> (heap w0)) w0)).
  { intros w0 x y F Hk Hx Hy.
    rewrite (bind_runs _ _ _ _ _ (accounts_getitem_runs un w0 t Hk)).
    rewrite (bind_runs _ _ _ _ _ (deref_runs t w0 x Hx)).
    rewrite (bind_runs _ _ _ _ _ (deref_runs cu w0 y Hy)).
    now rewrite (assign_runs t _ x w0 Hx). }
  unfold merge_guest_session.
  destruct (decide (t = cu)) as [-> | Hne].
  - assert (a = g) by congruence. subst a.
    erewrite Hstep by eassumption.
    erewrite Hstep
      by (first [ exact Hun | simpl; now apply list_lookup_insert_eq ]).
    erewrite Hlast
      by (first [ exact Hun
                | simpl; apply list_lookup_insert_eq; now rewrite length_insert ]).
    simpl. now rewrite !list_insert_insert_eq.
  - erewrite Hstep by eassumption.
    erewrite Hstep
      by (first [ exact Hun
                | simpl; now apply list_lookup_insert_eq
                | simpl; rewrite list_lookup_insert_ne by exact Hne; exact Hcu ]).
    erewrite Hlast
      by (first [ exact Hun
                | simpl; apply list_lookup_insert_eq; now rewrite length_insert
                | simpl; rewrite !list_lookup_insert_ne by exact Hne; exact Hcu ]).
    simpl. now rewrite !list_insert_insert_eq.
Qed.

Lemma login_ask_username_first (n : nat) (w : world) (line : string)
    (rest : list string) (u : loc) :
  stdin w = line :: rest ->
  dict_get (accounts w) (Str.strip line) = Some u ->
  login_ask_username (S n) w
  = (Returned (Some (Str.strip line)),
     set_stdin rest (set_stdout (stdout w ++ ["Enter username: "]) w)).
Proof.
  intros Hin Hget. cbn [login_ask_username].
  rewrite (bind_runs _ _ _ _ _ (input_stripped_runs _ line rest w Hin)).
  unfold bind, get_accounts, dict_mem. simpl. now rewrite Hget.
Qed.

Lemma login_ask_password_first (n : nat) (un : string) (cu u : loc) (w : world)
    (line : string) (rest : list string) (t c : account) :
  stdin w = line :: rest ->
  dict_get (accounts w) un = Some u ->
  heap w !! u = Some t -> heap w !! cu = Some c ->
  password t = Str.strip line ->
  exists w',
    login_ask_password (S n) un cu w = (Returned (Some (true, u)), w')
    /\ stdin w' = rest /\ accounts w' = accounts w
    /\ heap w' = (if is_guest c then <[u := merge_session t c]> (heap w) else heap w).
Proof.
  intros Hin Hget Ht Hc Hpw. cbn [login_ask_password].
  rewrite (bind_runs _ _ _ _ _ (input_stripped_runs _ line rest w Hin)).
  set (w1 := set_stdin rest (set_stdout (stdout w ++ ["Enter password: "]) w)).
  rewrite (bind_runs _ _ _ _ _ (accounts_getitem_runs un w1 u Hget)).
  rewrite (bind_runs _ _ _ _ _ (deref_runs u w1 t Ht)).
  rewrite Hpw, String.eqb_refl.
  rewrite (bind_runs _ _ _ _ _ (deref_runs cu w1 c Hc)).
  destruct (is_guest c).
  - rewrite (bind_runs _ _ _ _ _ (merge_guest_session_runs un cu u w1 t c Hget Ht Hc)).
    set (w2 := set_heap (<[u := merge_session t c]> (heap w1)) w1).
    rewrite (bind_runs _ _ _ _ _ (accounts_getitem_runs un w2 u Hget)).
    assert (Hu2 : heap w2 !! u = Some (merge_session t c)).
    { simpl. apply list_lookup_insert_eq. eapply lookup_lt_Some; exact Ht. }
    rewrite (bind_runs _ _ _ _ _ (deref_runs u w2 _ Hu2)).
    eexists. split; [reflexivity |]. repeat split.
  - unfold bind at 1. cbn [ret].
    rewrite (bind_runs _ _ _ _ _ (accounts_getitem_runs un w1 u Hget)).
    rewrite (bind_runs _ _ _ _ _ (deref_runs u w1 t Ht)).
    eexists. split; [reflexivity |]. repeat split.
Qed.

(** The right credentials open the account at the first attempt, whatever
    the fuel: when the first line typed is, once stripped, a username of the
    store and the second is, once stripped, the password stored for it,
    [login_user] hands back [True] with the record of that username, having
    read exactly these two lines; for a guest the session counters are
    merged into the record, otherwise no record changes. *)
Theorem login_user_accepts (fuel : nat) (current_user u : loc) (w : world)
    (t c : account) (l1 l2 : string) (rest : list string) :
  stdin w = l1 :: l2 :: rest ->
  dict_get (accounts w) (Str.strip l1) = Some u ->
  heap w !! u = Some t ->
  heap w !! current_user = Some c ->
  password t = Str.strip l2 ->
  exists w',
    login_user fuel current_user w = (Returned (true, u), w')
    /\ stdin w' = rest /\ accounts w' = accounts w
    /\ heap w' = (if is_guest c then <[u := merge_session t c]> (heap w) else heap w).
Proof.
  intros Hin Hget Ht Hc Hpw. unfold login_user, login_user_body.
  rewrite (bind_runs _ _ _ _ _ (login_ask_username_first 4 w l1 (l2 :: rest) u Hin Hget)).
  set (w1 := set_stdin (l2 :: rest) (set_stdout (stdout w ++ ["Enter username: "]) w)).
  destruct (login_ask_password_first 4 (Str.strip l1) current_user u w1 l2 rest t c)
    as (w' & E & Hst & Hacc & Hheap); try assumption; try reflexivity.
  rewrite (bind_runs _ _ _ _ _ E).
  exists w'. split; [reflexivity |]. repeat split; assumption.
Qed.

Lemma login_user_accepts_witness :
  stdin world_login = ["ann"; "Pw1!"]
  /\ exists w',
       login_user 0 0%nat world_login = (Returned (true, 1%nat), w')
       /\ stdin w' = [].
Proof.
  split; [reflexivity |].
  destruct (login_user_accepts 0 0%nat 1%nat world_login user_ann
              (Account "Bob" "guest" EmptyString 0 0 0 1 1 2) "ann" "Pw1!" [])
    as (w' & E & Hst & _); try reflexivity.
  exists w'. split; assumption.
Defined.

(** ** Folding the session counters *)

(** [add_session_to_totals] adds the session counters to the lifetime
    counters and leaves the session counters as they are, so every further
    call adds them again: after [n] calls the lifetime counters have grown by
    [n] times the session counters. *)
Theorem add_session_times_spec (n : nat) (acc : loc) (w : world) (c : account) :
  heap w !! acc = Some c ->
  exists w',
    add_session_times n acc w = (Returned tt, w')
    /\ heap w' = <[acc :=
         {| name := name c; username := username c; password := password c;
            wins := wins c + Z.of_nat n * session_wins c;
            losses := losses c + Z.of_nat n * session_losses c;
            plays := plays c + Z.of_nat n * session_plays c;
            session_wins := session_wins c;
            session_losses := session_losses c;
            session_plays := session_plays c |}]> (heap w)
    /\ accounts w' = accounts w /\ disk w' = disk w.
Proof.
  revert w c. induction n as [| n IH]; intros w c Hc.
  - exists w. split; [reflexivity |]. split; [| auto].
    symmetry. apply list_insert_id. etransitivity; [exact Hc |]. f_equal.
    destruct c; simpl. f_equal; lia.
  - cbn [add_session_times].
    rewrite (bind_runs _ _ _ _ _ (add_session_to_totals_runs acc w c Hc)).
    destruct (IH (set_heap (<[acc := fold_session c]> (heap w)) w) (fold_session c))
      as (w' & E & Hh & Ha & Hd).
    { simpl. apply list_lookup_insert_eq. eapply lookup_lt_Some; exact Hc. }
    exists w'. split; [exact E |]. split; [| auto].
    rewrite Hh. simpl. rewrite list_insert_insert_eq. f_equal.
    unfold fold_session; simpl. f_equal; lia.
Qed.

Lemma add_session_times_spec_witness :
  heap world_logout !! 0%nat = Some user_ann
  /\ exists w',
       add_session_times 2 0%nat world_logout = (Returned tt, w')
       /\ heap w' !! 0%nat = Some (Account "Ann" "ann" "Pw1!" 14 10 24 2 3 5).
Proof.
  split; [reflexivity |].
  destruct (add_session_times_spec 2 0%nat world_logout user_ann eq_refl)
    as (w' & E & Hh & _).
  exists w'. split; [exact E |]. rewrite Hh. reflexivity.
Defined.

(** ** Loading and saving the store *)

Lemma load_records_runs (recs : list account) (w : world) :
  load_records recs w
  = (Returned tt,
     set_accounts (index_records (length (heap w)) recs (accounts w))
       (set_heap (heap w ++ recs) w)).
Proof.
  revert w. induction recs as [| r rest IH]; intros w.
  - simpl. unfold ret. rewrite app_nil_r. now destruct w.
  - cbn [load_records]. unfold bind at 1, new_account.
    unfold bind at 1, accounts_setitem. rewrite IH. simpl.
    rewrite length_app, <- app_assoc. simpl.
    now replace (length (heap w) + 1)%nat with (S (length (heap w))) by lia.
Qed.

Lemma dict_set_keeps_keys {V} (d : dict V) (k k' : string) (v : V) :
  is_Some (dict_get d k') -> is_Some (dict_get (dict_set d k v) k').
Proof.
  intros H. destruct (string_dec k' k) as [-> | Hne].
  - rewrite dict_get_set. eauto.
  - now rewrite dict_get_set_ne.
Qed.

Lemma index_records_keys (base : nat) (recs : list account) (d : dict loc) (k : string) :
  is_Some (dict_get d k) \/ In k (map username recs) ->
  is_Some (dict_get (index_records base recs d) k).
Proof.
  revert base d. induction recs as [| r rest IH]; intros base d H; simpl in *.
  - destruct H as [H | []]. exact H.
  - apply IH. destruct H as [H | [<- | H]].
    + left. now apply dict_set_keeps_keys.
    + left. rewrite dict_get_set. eauto.
    + now right.
Qed.

Lemma index_records_keyed (H : list account) (recs : list account) (base : nat)
    (d : dict loc) (P : account -> Prop) :
  (forall i r, nth_error recs i = Some r -> H !! (base + i)%nat = Some r /\ P r) ->
  (forall k l, dict_get d k = Some l -> exists r, H !! l = Some r /\ username r = k /\ P r) ->
  forall k l, dict_get (index_records base recs d) k = Some l ->
              exists r, H !! l = Some r /\ username r = k /\ P r.
Proof.
  revert base d. induction recs as [| r rest IH]; intros base d Hrecs Hd; simpl.
  - exact Hd.
  - apply IH.
    + intros i r' Hi. replace (S base + i)%nat with (base + S i)%nat by lia.
      now apply Hrecs.
    + intros k l Hl. destruct (string_dec k (username r)) as [-> | Hne].
      * rewrite dict_get_set in Hl. inversion Hl; subst l.
        destruct (Hrecs 0%nat r eq_refl) as [Hr HP].
        rewrite Nat.add_0_r in Hr. now exists r.
      * rewrite dict_get_set_ne in Hl by exact Hne. now apply Hd.
Qed.

Lemma dict_set_fresh {V} (d : dict V) (k : string) (v : V) :
  dict_get d k = None -> dict_set d k v = d ++ [(k, v)].
Proof.
  unfold dict_get. induction d as [| [k' v'] d IH]; simpl; [reflexivity |].
  destruct (String.eqb k' k); [discriminate |]. intros H. now rewrite IH.
Qed.

Lemma dict_get_app_fresh {V} (d : dict V) (k k' : string) (v : V) :
  k' <> k -> dict_get (d ++ [(k, v)]) k' = dict_get d k'.
Proof.
  intros Hne. unfold dict_get. induction d as [| [k0 v0] d IH]; simpl.
  - destruct (String.eqb k k') eqn:E; [| reflexivity].
    apply String.eqb_eq in E. congruence.
  - destruct (String.eqb k0 k'); [reflexivity | exact IH].
Qed.

Lemma index_records_fresh (base : nat) (recs : list account) (d : dict loc) :
  List.NoDup (map username recs) ->
  (forall r, In r recs -> dict_get d (username r) = None) ->
  index_records base recs d
  = d ++ combine (map username recs) (seq base (length recs)).
Proof.
  revert base d. induction recs as [| r rest IH]; intros base d Hnd Hfree; simpl.
  - now rewrite app_nil_r.
  - inversion Hnd as [| x l Hnotin Hnd']; subst.
    rewrite IH.
    + rewrite dict_set_fresh by (apply Hfree; now left).
      now rewrite <- app_assoc.
    + exact Hnd'.
    + intros r' Hr'. rewrite dict_get_set_ne.
      * apply Hfree. now right.
      * intros Heq. apply Hnotin. rewrite <- Heq. now apply in_map.
Qed.

Lemma load_accounts_runs (w : world) :
  exists r w',
    load_accounts w = (r, w')
    /\ disk w' = disk w /\ disk_faults w' = disk_faults w /\ stdin w' = stdin w
    /\ match disk w with
       | Some (JsonAccounts recs) =>
           r = Returned tt
           /\ heap w' = heap w ++ recs
           /\ accounts w' = index_records (length (heap w)) recs []
       | Some (Foreign recs bad) =>
           r = match bad with
               | NoUsername => Returned tt
               | NotARecord msg => Raised (Exn TypeError msg)
               end
           /\ heap w' = heap w ++ recs
           /\ accounts w' = index_records (length (heap w)) recs []
       | Some (Unreadable e) =>
           r = Raised (read_exn "accounts.json" e)
           /\ heap w' = heap w /\ accounts w' = []
       | _ => r = Returned tt /\ heap w' = heap w /\ accounts w' = []
       end.
Proof.
  unfold load_accounts. unfold bind at 1. unfold try_except.
  unfold bind at 1, file_exists. cbn [disk set_accounts].
  destruct (disk w) as [[recs | | e | recs bad] |] eqn:Hd.
  - unfold bind at 1, read_json. cbn [disk set_accounts]. rewrite Hd.
    unfold bind at 1, load_items. cbn [fst snd]. unfold bind at 1.
    rewrite load_records_runs.
    unfold bind, get_accounts, print. cbn.
    eexists _, _. split; [reflexivity |]. cbn. rewrite Hd. repeat split.
  - unfold bind at 1, read_json. cbn [disk set_accounts]. rewrite Hd.
    cbn. eexists _, _. split; [reflexivity |]. cbn. rewrite Hd. repeat split.
  - unfold bind at 1, read_json. cbn [disk set_accounts]. rewrite Hd.
    destruct e; cbn; eexists _, _; (split; [reflexivity |]); cbn; rewrite Hd;
      repeat split.
  - unfold bind at 1, read_json. cbn [disk set_accounts]. rewrite Hd.
    unfold bind at 1, load_items. cbn [fst snd]. unfold bind at 1.
    rewrite load_records_runs.
    destruct bad; cbn; eexists _, _; (split; [reflexivity |]); cbn; rewrite Hd;
      repeat split.
  - cbn. eexists _, _. split; [reflexivity |]. cbn. rewrite Hd. repeat split.
Qed.

Lemma NoDup_map_inj {A B} (f : A -> B) (l : list A) (x y : A) :
  List.NoDup (map f l) -> In x l -> In y l -> f x = f y -> x = y.
Proof.
  induction l as [| a l IH]; simpl; intros Hnd Hx Hy Hf; [destruct Hx |].
  inversion Hnd as [| b l' Hnotin Hnd']; subst.
  destruct Hx as [-> | Hx], Hy as [-> | Hy]; try reflexivity.
  - exfalso. apply Hnotin. rewrite Hf. now apply in_map.
  - exfalso. apply Hnotin. rewrite <- Hf. now apply in_map.
  - now apply IH.
Qed.

Lemma index_records_loads (w w' : world) (recs : list account) :
  heap w' = heap w ++ recs ->
  accounts w' = index_records (length (heap w)) recs [] ->
  loads w w' recs.
Proof.
  intros Hh Ha.
  assert (Hkeyed : forall k l, dict_get (accounts w') k = Some l ->
             exists r, heap w' !! l = Some r /\ username r = k /\ In r recs).
  { rewrite Ha, Hh.
    apply (index_records_keyed (heap w ++ recs) recs (length (heap w)) []
             (fun r => In r recs)).
    - intros i r Hi. split; [| eapply nth_error_In; exact Hi].
      rewrite lookup_app_r by lia.
      replace (length (heap w) + i - length (heap w))%nat with i by lia.
      revert i Hi. clear. induction recs as [| a l IH]; intros [| i] Hi;
        simpl in *; try discriminate; [exact Hi | now apply IH].
    - intros k l Hl. discriminate Hl. }
  assert (Hkeys : forall k, In k (map username recs) ->
                            is_Some (dict_get (accounts w') k)).
  { intros k Hk. rewrite Ha. apply index_records_keys. now right. }
  split; [exact Hh |]. split; [| split; [exact Hkeyed |]].
  - intros k. split; [| apply Hkeys].
    intros [l Hl]. destruct (Hkeyed k l Hl) as (r & _ & <- & Hr). now apply in_map.
  - intros Hnd r Hr.
    destruct (Hkeys (username r) (in_map username recs r Hr)) as [l Hl].
    exists l. split; [exact Hl |].
    destruct (Hkeyed _ _ Hl) as (r' & Hr' & Hu & Hin).
    now rewrite (NoDup_map_inj username recs r' r Hnd Hin Hr Hu) in Hr'.
Qed.



(** A file that holds one record and then a dictionary without a username:
    [load_accounts] reports an error and an empty database, and returns
    with the first record in the store. *)
Example load_accounts_partial :
  let w' := snd (load_accounts (set_disk (Some (Foreign [user_ann] NoUsername))
                                         world_register)) in
  dict_get (accounts w') "ann" = Some 1%nat
  /\ stdout w' = ["Error loading accounts: 'username'";
                  "Starting with empty accounts database."].
Proof. vm_compute. split; reflexivity. Qed.

(** [setup_accounts_file] never touches a file that exists.  When the file is
    missing and the write goes through, the file becomes the empty array.
    When the write fails with an [OSError], the error is caught and reported
    and the call returns normally; any other exception goes up to the
    caller.  In no case does it touch the records or the store. *)
Theorem setup_accounts_file_spec (w : world) :
  (disk w <> None -> setup_accounts_file w = (Returned tt, w))
  /\ (disk w = None -> write_succeeds w ->
      exists w',
        setup_accounts_file w = (Returned tt, w')
        /\ disk w' = Some (JsonAccounts [])
        /\ heap w' = heap w /\ accounts w' = accounts w)
  /\ (disk w = None ->
      forall f rest,
        disk_faults w = Some f :: rest ->
        exists w',
          (if issubclass (exn_type (fault_exn f)) OSError then
             setup_accounts_file w = (Returned tt, w')
             /\ In ("Error creating accounts file: " +:+ exn_msg (fault_exn f))
                   (stdout w')
           else setup_accounts_file w = (Raised (fault_exn f), w'))
          /\ heap w' = heap w /\ accounts w' = accounts w
          /\ disk_faults w' = rest).
Proof.
  unfold setup_accounts_file, try_except, bind, file_exists, write_file, write_succeeds.
  split; [| split].
  - intros Hd. destruct (disk w); [reflexivity | congruence].
  - intros Hd Hw. rewrite Hd. cbn.
    destruct (disk_faults w) as [| [f |] rest]; [| destruct Hw |];
      cbn; eexists; (split; [reflexivity |]); repeat split.
  - intros Hd f rest Hf. cbv beta. rewrite Hd. cbn [negb]. cbv beta iota.
    rewrite Hf.
    destruct f as [e | e]; cbn [fault_exn];
      destruct (issubclass (exn_type e) OSError) eqn:Hsub;
      cbn -[issubclass]; unfold IOError; rewrite ?Hsub; cbn -[issubclass];
      eexists;
      (split;
       [first [ reflexivity
              | split; [reflexivity | apply in_app_iff; right; now left] ]
       | repeat split ]).
Qed.

Lemma setup_accounts_file_spec_witness :
  disk world_register_guest = None
  /\ write_succeeds world_register_guest
  /\ exists w',
       setup_accounts_file world_register_guest = (Returned tt, w')
       /\ disk w' = Some (JsonAccounts []).
Proof.
  split; [reflexivity |]. split; [exact I |].
  destruct (proj1 (proj2 (setup_accounts_file_spec world_register_guest)) eq_refl I)
    as (w' & E & Hd & _).
  exists w'. split; assumption.
Defined.

Lemma dict_get_In_NoDup {V} (d : dict V) (k : string) (v : V) :
  List.NoDup (map fst d) -> In (k, v) d -> dict_get d k = Some v.
Proof.
  unfold dict_get. induction d as [| [k' v'] d IH]; simpl; intros Hnd Hin;
    [destruct Hin |].
  inversion Hnd as [| x l Hnotin Hnd']; subst.
  destruct Hin as [Heq | Hin].
  - inversion Heq; subst. now rewrite String.eqb_refl.
  - destruct (String.eqb k' k) eqn:E.
    + apply String.eqb_eq in E. subst k'. exfalso. apply Hnotin.
      change k with (fst (k, v)). now apply in_map.
    + now apply IH.
Qed.

Lemma dict_get_nth {V} (d : dict V) (k : string) (v : V) :
  dict_get d k = Some v -> exists i, nth_error d i = Some (k, v).
Proof.
  unfold dict_get. induction d as [| [k' v'] d IH]; simpl; [discriminate |].
  destruct (String.eqb k' k) eqn:E; intros H.
  - apply String.eqb_eq in E. inversion H; subst. now exists 0%nat.
  - destruct (IH H) as (i & Hi). now exists (S i).
Qed.

Lemma lookup_all_keyed (h : list account) (d : dict loc) :
  (forall k l, In (k, l) d -> exists a, h !! l = Some a /\ username a = k) ->
  exists recs,
    lookup_all h (dict_values d) = Some recs
    /\ map username recs = map fst d
    /\ forall i k l, nth_error d i = Some (k, l) ->
         exists a, h !! l = Some a /\ nth_error recs i = Some a.
Proof.
  unfold dict_values. induction d as [| [k0 l0] d IH]; intros H; simpl.
  - exists []. repeat split. intros [| i] k l Hi; discriminate.
  - destruct (H k0 l0 (or_introl eq_refl)) as (a0 & Ha0 & Hu0).
    destruct IH as (recs & Hrecs & Hkeys & Hnth).
    { intros k l Hin. apply H. now right. }
    exists (a0 :: recs). rewrite Ha0, Hrecs.
    split; [reflexivity |]. split; [simpl; now rewrite Hu0, Hkeys |].
    intros [| i] k l Hi; simpl in Hi.
    + inversion Hi; subst. now exists a0.
    + now apply (Hnth i k l).
Qed.

Lemma dict_get_combine (ks : list string) (base i : nat) (k : string) :
  List.NoDup ks -> nth_error ks i = Some k ->
  dict_get (combine ks (seq base (length ks))) k = Some (base + i)%nat.
Proof.
  unfold dict_get. revert base i. induction ks as [| k0 ks IH]; intros base i Hnd Hi.
  - destruct i; discriminate.
  - inversion Hnd as [| x l Hnotin Hnd']; subst. simpl.
    destruct i as [| i]; simpl in Hi.
    + inversion Hi; subst. rewrite String.eqb_refl. f_equal. lia.
    + destruct (String.eqb k0 k) eqn:E.
      * apply String.eqb_eq in E. subst k0. exfalso. apply Hnotin.
        eapply nth_error_In; exact Hi.
      * rewrite (IH (S base) i Hnd' Hi). f_equal. lia.
Qed.

Lemma map_fst_combine_seq (ks : list string) (base : nat) :
  map fst (combine ks (seq base (length ks))) = ks.
Proof.
  revert base. induction ks as [| k ks IH]; intros base; simpl;
    [reflexivity | now rewrite IH].
Qed.

(** Saving and loading again carries the store over: from a store in which no
    username occurs twice and every record sits under its own username, and
    with a write that goes through, [save_accounts] followed by
    [load_accounts] gives a store with the same usernames in the same order,
    under each of which a record with the same nine fields is found; and the
    new store is again such a store. *)
Theorem save_load_round_trip (w : world) :
  store_ok w -> write_succeeds w ->
  exists w1 w2,
    save_accounts w = (Returned tt, w1)
    /\ load_accounts w1 = (Returned tt, w2)
    /\ map fst (accounts w2) = map fst (accounts w)
    /\ (forall k l a,
          dict_get (accounts w) k = Some l -> heap w !! l = Some a ->
          exists l', dict_get (accounts w2) k = Some l' /\ heap w2 !! l' = Some a)
    /\ store_ok w2.
Proof.
  intros [Hnd Hkeyed] Hwr.
  destruct (lookup_all_keyed (heap w) (accounts w)) as (recs & Hrecs & Hkeys & Hnth).
  { intros k l Hin. apply Hkeyed. now apply dict_get_In_NoDup. }
  destruct (save_accounts_runs w recs Hwr Hrecs) as (w1 & E1 & (Hh1 & Ha1 & Hd1 & _) & _).
  cbn in Hh1, Ha1, Hd1.
  destruct (load_accounts_runs w1) as (r2 & w2 & E2 & _ & _ & _ & Hcase).
  rewrite Hd1 in Hcase. destruct Hcase as (Hr2 & Hh2 & Ha2). subst r2.
  assert (Hnd' : List.NoDup (map username recs)) by now rewrite Hkeys.
  rewrite index_records_fresh in Ha2; [| exact Hnd' | reflexivity].
  simpl in Ha2.
  assert (Hlen : length recs = length (map fst (accounts w)))
    by (rewrite <- Hkeys; now rewrite length_map).
  rewrite Hlen, Hkeys, Hh1 in Ha2. rewrite Hh1 in Hh2.
  assert (Hfind : forall k l a,
             dict_get (accounts w) k = Some l -> heap w !! l = Some a ->
             exists l', dict_get (accounts w2) k = Some l' /\ heap w2 !! l' = Some a).
  { intros k l a Hk Hl.
    destruct (dict_get_nth _ _ _ Hk) as (i & Hi).
    destruct (Hnth i k l Hi) as (a' & Ha' & Hri).
    assert (a' = a) by congruence. subst a'.
    exists (length (heap w) + i)%nat. split.
    - rewrite Ha2. apply dict_get_combine; [exact Hnd |].
      rewrite nth_error_map, Hi. reflexivity.
    - rewrite Hh2, lookup_app_r by lia.
      replace (length (heap w) + i - length (heap w))%nat with i by lia.
      clear - Hri. revert i Hri.
      induction recs as [| r recs IH]; intros [| i] Hi; simpl in *;
        try discriminate; [exact Hi | now apply IH]. }
  exists w1, w2. split; [exact E1 |]. split; [exact E2 |].
  assert (Hk2 : map fst (accounts w2) = map fst (accounts w)).
  { rewrite Ha2. apply map_fst_combine_seq. }
  split; [exact Hk2 |]. split; [exact Hfind |].
  split; [now rewrite Hk2 |].
  intros k l' Hl'.
  destruct (dict_get_nth _ _ _ Hl') as (i & Hi).
  assert (Hki : nth_error (map fst (accounts w)) i = Some k).
  { rewrite <- Hk2, nth_error_map, Hi. reflexivity. }
  rewrite nth_error_map in Hki.
  destruct (nth_error (accounts w) i) as [[k0 l0] |] eqn:Hi0; [| discriminate].
  simpl in Hki. inversion Hki; subst k0.
  assert (Hin : In (k, l0) (accounts w)) by (eapply nth_error_In; exact Hi0).
  pose proof (dict_get_In_NoDup _ _ _ Hnd Hin) as Hget.
  destruct (Hkeyed _ _ Hget) as (a & Ha & Hu).
  destruct (Hfind k l0 a Hget Ha) as (l'' & Hl'' & Ha'').
  assert (l'' = l') by congruence. subst l''. now exists a.
Qed.

Lemma save_load_round_trip_witness :
  store_ok world_login /\ write_succeeds world_login
  /\ exists w1 w2,
       save_accounts world_login = (Returned tt, w1)
       /\ load_accounts w1 = (Returned tt, w2)
       /\ map fst (accounts w2) = map fst (accounts world_login).
Proof.
  assert (Hok : store_ok world_login).
  { split; [repeat constructor; intros [] |].
    intros k l Hl. unfold dict_get in Hl.
    change (accounts world_login) with [("ann", 1%nat)] in Hl. cbn [assoc] in Hl.
    destruct (String.eqb_spec "ann" k) as [<- | Hne]; [| discriminate].
    inversion Hl; subst. now exists user_ann. }
  split; [exact Hok |]. split; [exact I |].
  destruct (save_load_round_trip world_login Hok I) as (w1 & w2 & E1 & E2 & Hk & _).
  exists w1, w2. repeat split; assumption.
Defined.

(** ** Leaving the program *)

(** When [exit_game] returns for a registered identity, its session counters
    have been folded into its lifetime counters and the accounts file holds
    the records of the store as they are after the fold.  When it returns
    for a guest, nothing of the accounts has changed and no write was
    attempted. *)
Theorem exit_game_spec (current_user : loc) (w w' : world) (r : unit) (c : account) :
  exit_game current_user w = (Returned r, w') ->
  heap w !! current_user = Some c ->
  accounts w' = accounts w
  /\ if is_guest c then same_store w w'
     else
       heap w' = <[current_user := fold_session c]> (heap w)
       /\ exists recs,
            lookup_all (<[current_user := fold_session c]> (heap w))
                       (dict_values (accounts w)) = Some recs
            /\ disk w' = Some (JsonAccounts recs).
Proof.
  intros H Hc. unfold exit_game in H.
  step H as c0 w1 E1. apply deref_inv in E1. destruct E1 as [-> E1].
  assert (c0 = c) by congruence. subst c0.
  step H as u0 w2 E2. inversion H; subst r w'; clear H. simpl.
  destruct (is_guest c); simpl in E2.
  - inversion E2; subst w2; clear E2. repeat split.
  - step E2 as u1 w4 E4.
    eapply add_session_to_totals_spec in E4; [| exact Hc]. subst w4.
    step E2 as u2 w5 E5. apply save_accounts_returned in E5.
    destruct E5 as (recs & Hrecs & Hdisk & Hheap & Haccs).
    unfold stored_records in Hrecs. simpl in Hrecs, Hheap, Haccs.
    step E2 as c1 w6 E6. apply deref_inv in E6. destruct E6 as [-> _].
    inversion E2; subst w2; clear E2. simpl.
    rewrite Hheap, Haccs. split; [reflexivity |]. split; [reflexivity |].
    exists recs. split; [exact Hrecs | exact Hdisk].
Qed.

Lemma exit_game_spec_witness :
  exit_game 0%nat world_logout = (Returned tt, snd (exit_game 0%nat world_logout))
  /\ heap world_logout !! 0%nat = Some user_ann
  /\ heap (snd (exit_game 0%nat world_logout))
     = <[0%nat := fold_session user_ann]> (heap world_logout).
Proof.
  split; [vm_compute; reflexivity |]. split; [reflexivity |].
  apply (exit_game_spec 0%nat world_logout (snd (exit_game 0%nat world_logout)) tt
           user_ann); vm_compute; reflexivity.
Defined.

(** No exception of the [Exception] family and no [KeyboardInterrupt] leaves
    [main]: whatever the input, the file, the word source and the write
    faults, an exception that [main] lets through is of the bare class
    [BaseException]. *)
Theorem main_catches (fuel : nat) (w w' : world) (e : exn) :
  main fuel w = (Raised e, w') -> exn_type e = BaseException.
Proof.
  unfold main, try_except.
  match goal with
  | |- context [match ?body w with _ => _ end] =>
      destruct (body w) as [[a | e0 |] w1]
  end; try discriminate.
  destruct e0 as [cls msg]. cbn.
  destruct cls; cbn; intros H; inversion H; reflexivity.
Qed.

Lemma main_catches_witness :
  main 5 (initial_world [] [] [] None
            [Some (OpenFails (Exn BaseException "stop"))])
  = (Raised (Exn BaseException "stop"),
     snd (main 5 (initial_world [] [] [] None
                    [Some (OpenFails (Exn BaseException "stop"))])))
  /\ exn_type (Exn BaseException "stop") = BaseException.
Proof.
  split; [vm_compute; reflexivity |].
  apply (main_catches 5 (initial_world [] [] [] None
                           [Some (OpenFails (Exn BaseException "stop"))])
           (snd (main 5 (initial_world [] [] [] None
                           [Some (OpenFails (Exn BaseException "stop"))])))).
  vm_compute. reflexivity.
Defined.

(** ** [storage.py]: the helpers that take a path *)

Lemma validate_json_file_eval p s :
  Files.answerable p s = true ->
  Files.validate_json_file p s = (Returned (Files.valid_json p s), s).
Proof.
  unfold Files.validate_json_file, Files.try_except, Files.bind, Files.json_load,
    Files.valid_json, Files.answerable.
  destruct (Files.files s !! p) as [[records | | [| msg | msg] | recs bad] |];
    try discriminate; reflexivity.
Qed.

Lemma validate_json_file_raises p s :
  Files.answerable p s = false ->
  exists e,
    Files.validate_json_file p s = (Raised e, s)
    /\ issubclass (exn_type e) Exception = true
    /\ Files.valid_json p s = false.
Proof.
  unfold Files.validate_json_file, Files.try_except, Files.bind, Files.json_load,
    Files.valid_json, Files.answerable.
  destruct (Files.files s !! p) as [[records | | [| msg | msg] | recs bad] |];
    try discriminate; intros _; eexists; (split; [reflexivity |]);
    split; reflexivity.
Qed.


Lemma ordinary_faults_head f rest :
  Files.ordinary_faults (Some f :: rest) ->
  issubclass (exn_type (fault_exn f)) Exception = true.
Proof. intros H. apply H. now left. Qed.

Lemma ordinary_faults_tail o rest :
  Files.ordinary_faults (o :: rest) -> Files.ordinary_faults rest.
Proof. intros H f Hf. apply H. now right. Qed.

(** The handler of [repair_accounts_file] turns an ordinary exception into
    the answer [False]. *)
Lemma repair_handler_catches e s :
  issubclass (exn_type e) Exception = true ->
  exists s',
    Files.dispatch e
      [ ([Builtin Exception],
         fun e => Files.bind
                    (Files.print ("Error repairing accounts file: " +:+ exn_msg e))
                    (fun _ => Files.ret false)) ] s
    = (Returned false, s').
Proof.
  intros He. cbn -[issubclass]. rewrite He. eexists. reflexivity.
Qed.

(** Writing the empty list, under the handler. *)
Lemma repair_write_returns p s :
  Files.ordinary_faults (Files.faults s) ->
  exists s',
    Files.try_except
      (Files.bind (Files.write p (JsonAccounts []))
         (fun _ => Files.bind (Files.print "Created new empty accounts file.")
                     (fun _ => Files.ret false)))
      [ ([Builtin Exception],
         fun e => Files.bind
                    (Files.print ("Error repairing accounts file: " +:+ exn_msg e))
                    (fun _ => Files.ret false)) ] s
    = (Returned false, s').
Proof.
  intros Hord. unfold Files.try_except, Files.bind at 1, Files.write.
  destruct (Files.faults s) as [|[[e|e]|] rest] eqn:Ef.
  - eexists. reflexivity.
  - apply repair_handler_catches. exact (ordinary_faults_head (OpenFails e) rest Hord).
  - apply repair_handler_catches. exact (ordinary_faults_head (WriteFails e) rest Hord).
  - eexists. reflexivity.
Qed.



(** [repair_accounts_file] when the file is not valid.  When the file is
    missing, is not JSON or may not be opened, and the file system lets the
    two changes through, the repair answers [False], the file holds the
    empty list and is valid from then on, what was in it is kept under the
    name [accounts_corrupted_backup.json], and no other file is touched.
    When the bytes of the file are not text, or its JSON nests too deep, the
    check itself fails: the repair reports the error and answers [False],
    and the file is left as it is, neither set aside nor replaced. *)
Theorem repair_accounts_file_repairs p s :
  Files.valid_json p s = false ->
  (Files.answerable p s = true ->
   Files.no_fault 2 (Files.faults s) ->
   exists s',
     Files.repair_accounts_file p s = (Returned false, s') /\
     Files.files s' !! p = Some (JsonAccounts []) /\
     Files.validate_json_file p s' = (Returned true, s') /\
     (p <> Files.corrupted_backup ->
      Files.files s' !! Files.corrupted_backup
      = match Files.files s !! p with
        | Some c => Some c
        | None => Files.files s !! Files.corrupted_backup
        end) /\
     (forall q, q <> p -> q <> Files.corrupted_backup ->
                Files.files s' !! q = Files.files s !! q))
  /\ (Files.answerable p s = false ->
      exists s',
        Files.repair_accounts_file p s = (Returned false, s') /\
        Files.files s' = Files.files s /\
        Files.faults s' = Files.faults s).
Proof.
  intros Hv. split.
  2:{ intros Eans.
      destruct (validate_json_file_raises p s Eans) as (e & Ee & Hsub & _).
      unfold Files.repair_accounts_file, Files.try_except.
      unfold Files.bind at 1. rewrite Ee.
      cbn -[issubclass]. rewrite Hsub. eexists. split; [reflexivity |].
      split; reflexivity. }
  intros Eans Hnf.
  assert (Hgoal : exists s',
    Files.repair_accounts_file p s = (Returned false, s') /\
    Files.files s'
    = <[p := JsonAccounts []]>
        (match Files.files s !! p with
         | Some c => <[Files.corrupted_backup := c]> (delete p (Files.files s))
         | None => Files.files s
         end)).
  { unfold Files.repair_accounts_file, Files.try_except.
    unfold Files.bind at 1. rewrite (validate_json_file_eval p s Eans), Hv.
    unfold Files.bind at 1, Files.print at 1.
    unfold Files.bind at 1, Files.path_exists. cbn [Files.files Files.faults Files.out].
    destruct (Files.files s !! p) as [c|] eqn:Ep.
    - unfold Files.bind at 1. unfold Files.bind at 1. unfold Files.rename.
      cbn [Files.files Files.faults Files.out]. rewrite Ep.
      destruct (Files.faults s) as [|[f|] rest] eqn:Ef; [| destruct Hnf |].
      + unfold Files.print at 1. unfold Files.bind at 1, Files.write.
        cbn [Files.files Files.faults Files.out].
        eexists. split; reflexivity.
      + unfold Files.print at 1. unfold Files.bind at 1, Files.write.
        cbn [Files.files Files.faults Files.out].
        destruct rest as [|[f|] rest']; [| destruct Hnf |];
          (eexists; split; reflexivity).
    - unfold Files.bind at 1. unfold Files.ret at 1.
      unfold Files.bind at 1, Files.write.
      destruct (Files.faults s) as [|[f|] rest] eqn:Ef; [| destruct Hnf |];
        (eexists; split; reflexivity). }
  destruct Hgoal as [s' [Hrun Hfiles]].
  assert (Hp : Files.files s' !! p = Some (JsonAccounts [])).
  { rewrite Hfiles. apply lookup_insert_eq. }
  exists s'. split; [exact Hrun |]. split; [exact Hp |].
  split.
  { rewrite validate_json_file_eval.
    - unfold Files.valid_json. now rewrite Hp.
    - unfold Files.answerable. now rewrite Hp. }
  split.
  - intros Hne. rewrite Hfiles. rewrite lookup_insert_ne by exact Hne.
    destruct (Files.files s !! p) as [c|]; [apply lookup_insert_eq | reflexivity].
  - intros q Hq Hqb. rewrite Hfiles. rewrite lookup_insert_ne by congruence.
    destruct (Files.files s !! p) as [c|]; [| reflexivity].
    rewrite lookup_insert_ne by congruence. apply lookup_delete_ne. congruence.
Qed.

Lemma repair_accounts_file_repairs_witness :
  Files.valid_json "accounts.json" (Files.corrupted_dir []) = false /\
  Files.answerable "accounts.json" (Files.corrupted_dir []) = true /\
  Files.no_fault 2 (Files.faults (Files.corrupted_dir [])) /\
  (exists s',
    Files.repair_accounts_file "accounts.json" (Files.corrupted_dir [])
    = (Returned false, s') /\
    Files.files s' !! "accounts.json" = Some (JsonAccounts []) /\
    Files.files s' !! Files.corrupted_backup = Some Malformed) /\
  Files.answerable "accounts.json" Files.undecodable_dir = false /\
  (exists s',
    Files.repair_accounts_file "accounts.json" Files.undecodable_dir
    = (Returned false, s') /\
    Files.files s' = Files.files Files.undecodable_dir).
Proof.
  split; [reflexivity |]. split; [reflexivity |]. split; [exact I |].
  split; [| split; [reflexivity |]].
  - destruct (proj1 (repair_accounts_file_repairs "accounts.json"
                       (Files.corrupted_dir []) eq_refl) eq_refl I)
      as [s' [Hrun [Hp [_ [Hb _]]]]].
    exists s'. split; [exact Hrun |]. split; [exact Hp |].
    rewrite Hb; [reflexivity | discriminate].
  - destruct (proj2 (repair_accounts_file_repairs "accounts.json"
                       Files.undecodable_dir eq_refl) eq_refl)
      as [s' [Hrun [Hf _]]].
    exists s'. split; [exact Hrun | exact Hf].
Defined.

(** [backup_accounts] never answers [False]: when the file system lets the
    write through, it answers [True] and the file [accounts_<name>.json]
    holds the records of the dictionary, in its order, every other file
    being as before; when the write fails, whatever the exception, the
    exception that leaves the function is the [AttributeError] of its own
    [except] clause, and nothing is printed. *)
Theorem backup_accounts_spec (accounts : dict account) (backup_name : string)
    (s : Files.state) :
  match Files.faults s with
  | Some f :: _ =>
      exists s',
        Files.backup_accounts accounts backup_name s
        = (Raised (Exn AttributeError "module 'json' has no attribute 'JSONEncodeError'"),
           s') /\
        Files.out s' = Files.out s
  | _ =>
      exists s',
        Files.backup_accounts accounts backup_name s = (Returned true, s') /\
        Files.files s'
        = <["accounts_" +:+ backup_name +:+ ".json" := JsonAccounts (dict_values accounts)]>
            (Files.files s)
  end.
Proof.
  unfold Files.backup_accounts, Files.try_except, Files.bind, Files.write, Files.print.
  destruct (Files.faults s) as [|[[e|e]|] rest]; cbn;
    eexists; split; reflexivity.
Qed.
